(** * Scene graph core of streamlabs-obs: the [Scene] service helper

    A shallow embedding of [class Scene] (the second module of
    src/app/services/user.ts): the scene record kept in the state store,
    its mutations, the operations that call them and the two recursive
    traversals of the scene-reference graph. *)

From Stdlib Require Import QArith.
From stdpp Require Import gmap strings list fin_maps relations.

Local Open Scope string_scope.
Local Open Scope list_scope.

#[local] Set Warnings "-clear-no-such-hyp".

(** ** Outcomes of a JavaScript call *)

(** What a call can throw.  [Error msg] is [new Error(msg)]; [TypeError] is
    the engine's error on reading a property of [null] or [undefined]. *)
Inductive JsError : Type :=
  | Error (msg : string)
  | TypeError.

(** A call returns a value, throws, or recurses without end (in an engine,
    until the call stack gives out).  The recursive methods take a recursion
    budget, the depth of calls they may reach; [OutOfFuel] is the answer of
    a run that exhausts it. *)
Inductive outcome (A : Type) : Type :=
  | Ret (a : A)
  | Throw (e : JsError)
  | OutOfFuel.
Arguments Ret {A} a.
Arguments Throw {A} e.
Arguments OutOfFuel {A}.

Definition bindO {A B : Type} (m : outcome A) (k : A → outcome B) : outcome B :=
  match m with
  | Ret a => k a
  | Throw e => Throw e
  | OutOfFuel => OutOfFuel
  end.

Notation "'let*' x ':=' m 'in' k" := (bindO m (λ x, k))
  (at level 10, x name, m at level 100, k at level 200,
   format "'[v' 'let*'  x  ':='  m  'in' '/' k ']'").

(** [xs.map(f)] where [f] may throw: elements are visited left to right and
    the first failure ends the call. *)
Fixpoint mapO {A B : Type} (f : A → outcome B) (l : list A) : outcome (list B) :=
  match l with
  | [] => Ret []
  | a :: l' => let* b := f a in let* bs := mapO f l' in Ret (b :: bs)
  end.

(** ** Data model *)

Record ICrop : Type := {
  top : Q;
  bottom : Q;
  left : Q;
  right : Q
}.

(** One row of [sceneState.items]: the object literal pushed by
    [ADD_SOURCE_TO_SCENE].  JavaScript numbers are carried around and never
    computed with; they are kept as rationals. *)
Record ISceneItem : Type := {
  sceneItemId : string;
  sourceId : string;
  obsSceneItemId : Z;
  x : Q;
  y : Q;
  scaleX : Q;
  scaleY : Q;
  visible : bool;
  crop : ICrop;
  rotation : Q;
  locked : bool
}.

(** A slot of the [items] array.  [Array.prototype.find] answers [undefined]
    when nothing matches and [SET_SOURCE_ORDER] stores that answer, so a slot
    is either a row or [undefined] ([None]). *)
Abbreviation slot := (option ISceneItem).

(** [IScene], the record of one scene in [scenesService.state.scenes]. *)
Record IScene : Type := {
  scene_id : string;
  scene_name : string;
  activeItemIds : list string;
  items : list slot
}.

(** A source descriptor of the registry, as far as [Scene] reads it. *)
Record Source : Type := {
  src_sourceId : string;
  src_name : string;
  src_type : string
}.

(** The handle built by [new SceneItem(this.id, sceneItemId, sourceId)]. *)
Record SceneItem : Type := {
  si_sceneId : string;
  si_sceneItemId : string;
  si_sourceId : string
}.

(** The injected services' state: the source registry and the scenes
    dictionary [scenesService.state.scenes]. *)
Record Store : Type := {
  sources : gmap string Source;
  scenes : gmap string IScene
}.

(** [ISceneItemAddOptions]. *)
Record ISceneItemAddOptions : Type := {
  opt_sceneItemId : option string
}.

(** The backend item answered by [getObsScene().add(...)]: its numeric id and
    the attributes the compositing backend holds for it. *)
Record ObsSceneItem : Type := {
  obs_id : Z;
  obs_x : Q;
  obs_y : Q;
  obs_scaleX : Q;
  obs_scaleY : Q;
  obs_visible : bool;
  obs_crop : ICrop;
  obs_rotation : Q
}.

(** [ISceneItemInfo], an entry of persisted state handed to [addSources];
    the numeric fields may be [null]. *)
Record ISceneItemInfo : Type := {
  info_id : string;
  info_sourceId : string;
  info_crop : ICrop;
  info_scaleX : option Q;
  info_scaleY : option Q;
  info_visible : bool;
  info_x : option Q;
  info_y : option Q;
  info_locked : bool;
  info_rotation : option Q
}.

(** An element of [arrayItems] in [addSources]. *)
Record ArrayItem : Type := {
  arr_name : string;
  arr_id : string;
  arr_sourceId : string;
  arr_crop : ICrop;
  arr_scaleX : Q;
  arr_scaleY : Q;
  arr_visible : bool;
  arr_x : Q;
  arr_y : Q;
  arr_locked : bool;
  arr_rotation : Q
}.

(** ** Collaborators *)

(** Modelled from the spec: [SourcesService.getSource] belongs to another
    module; "SourceRegistry: resolve(sourceId) ->
    Option<SourceDescriptor>". *)
Definition getSource (st : Store) (sourceId : string) : option Source :=
  sources st !! sourceId.

(** Modelled from the spec: [ScenesService.getScene] belongs to another
    module; a [Scene] handle "binds to an already-registered scene
    record", as the constructor's [scenesService.state.scenes[sceneId]]
    does.  [None] stands for the absence of a handle. *)
Definition getScene (st : Store) (sceneId : string) : option IScene :=
  scenes st !! sceneId.

(** Modelled from the spec: the [type] a [SceneItem] handle shows is the type
    of the source it is bound to ("a source of type "scene" used by one of
    this scene's items"); a handle whose source does not resolve has none. *)
Definition SceneItem_type (st : Store) (si : SceneItem) : option string :=
  src_type <$> getSource st (si_sourceId si).

Definition is_scene_item (st : Store) (si : SceneItem) : bool :=
  bool_decide (SceneItem_type st si = Some "scene").

(** lodash's [_.uniqBy(array, key)]: the first element of every key is kept,
    in order. *)
Fixpoint uniqBy_from {A K : Type} `{EqDecision K} (key : A → K)
    (seen : list K) (l : list A) : list A :=
  match l with
  | [] => []
  | a :: l' =>
      if decide (key a ∈ seen) then uniqBy_from key seen l'
      else a :: uniqBy_from key (key a :: seen) l'
  end.

Definition uniqBy {A K : Type} `{EqDecision K} (key : A → K) (l : list A) : list A :=
  uniqBy_from key [] l.

(** lodash's [_.without(array, value)]. *)
Definition without (l : list string) (v : string) : list string :=
  filter (λ i, i ≠ v) l.

(** ** Reading a scene *)

(** [items.find(m => m.sceneItemId === id)]: the callback reads a property of
    every slot it visits, so an [undefined] slot met before a match throws. *)
Fixpoint find_model (id : string) (l : list slot) : outcome (option ISceneItem) :=
  match l with
  | [] => Ret None
  | None :: _ => Throw TypeError
  | Some m :: l' => if decide (sceneItemId m = id) then Ret (Some m) else find_model id l'
  end.

Definition new_SceneItem (sceneId : string) (m : ISceneItem) : SceneItem :=
  {| si_sceneId := sceneId; si_sceneItemId := sceneItemId m; si_sourceId := sourceId m |}.

Definition getItem (this : IScene) (id : string) : outcome (option SceneItem) :=
  let* m := find_model id (items this) in
  Ret (new_SceneItem (scene_id this) <$> m).

(** [getItems]: every slot is looked up again by its own id; a handle is what
    [find] reaches first for that id. *)
Definition getItems (this : IScene) : outcome (list (option SceneItem)) :=
  mapO (λ s : slot,
          match s with
          | None => Throw TypeError
          | Some m => getItem this (sceneItemId m)
          end) (items this).

Definition getItemIndex_from (id : string) : list slot → nat → outcome Z :=
  fix go l i :=
    match l with
    | [] => Ret (-1)%Z
    | None :: _ => Throw TypeError
    | Some m :: l' => if decide (sceneItemId m = id) then Ret (Z.of_nat i) else go l' (S i)
    end.

Definition getItemIndex (this : IScene) (id : string) : outcome Z :=
  getItemIndex_from id (items this) 0.

(** [xs.filter(p)] where [p] may throw. *)
Fixpoint filterO {A : Type} (p : A → outcome bool) (l : list A) : outcome (list A) :=
  match l with
  | [] => Ret []
  | a :: l' =>
      let* keep := p a in
      let* r := filterO p l' in
      Ret (if keep then a :: r else r)
  end.

(** [sceneItem => sceneItem.type === 'scene'] on what [getItem] answered. *)
Definition type_is_scene (st : Store) (h : option SceneItem) : outcome bool :=
  match h with
  | None => Throw TypeError
  | Some si => Ret (is_scene_item st si)
  end.

Definition type_is_not_scene (st : Store) (h : option SceneItem) : outcome bool :=
  let* b := type_is_scene st h in Ret (negb b).

(** [sceneItem => this.scenesService.getScene(sceneItem.sourceId)] *)
Definition scene_of_item (st : Store) (h : option SceneItem) : outcome (option IScene) :=
  match h with
  | None => Throw TypeError
  | Some si => Ret (getScene st (si_sourceId si))
  end.

(** The [childScenes] array of [hasNestedScene]. *)
Definition childScenes (st : Store) (this : IScene) : outcome (list (option IScene)) :=
  let* its := getItems this in
  let* sc := filterO (type_is_scene st) its in
  mapO (scene_of_item st) sc.

(** The [for ... of] loop of [hasNestedScene]; [rec] is the recursive call
    [childScene.hasNestedScene(sceneId)]. *)
Fixpoint any_child (rec : IScene → outcome bool) (sceneId : string)
    (cs : list (option IScene)) : outcome bool :=
  match cs with
  | [] => Ret false
  | None :: _ => Throw TypeError
  | Some childScene :: cs' =>
      if decide (scene_id childScene = sceneId) then Ret true
      else
        let* nested := rec childScene in
        if nested then Ret true else any_child rec sceneId cs'
  end.

(** [hasNestedScene]; [fuel] bounds the depth of the recursion. *)
Fixpoint hasNestedScene (fuel : nat) (st : Store) (this : IScene) (sceneId : string)
    : outcome bool :=
  match fuel with
  | O => OutOfFuel
  | S n =>
      let* cs := childScenes st this in
      any_child (λ childScene, hasNestedScene n st childScene sceneId) sceneId cs
  end.

(** [canAddSource]; [fuel] is the budget handed to [hasNestedScene]. *)
Definition canAddSource (fuel : nat) (st : Store) (this : IScene) (sourceId : string)
    : outcome bool :=
  match getSource st sourceId with
  | None => Ret false
  | Some source =>
      if decide (src_type source ≠ "scene") then Ret true
      else if decide (scene_id this = src_sourceId source) then Ret false
      else
        match getScene st (src_sourceId source) with
        | None => Throw TypeError
        | Some sceneToAdd =>
            let* nested := hasNestedScene fuel st sceneToAdd (scene_id this) in
            Ret (negb nested)
        end
  end.

(** [sceneItem => getScene(sceneItem.sourceId).getNestedItems()], with [rec]
    the recursive call. *)
Definition nested_of_item (st : Store)
    (rec : IScene → outcome (list (option SceneItem))) (h : option SceneItem)
    : outcome (list (option SceneItem)) :=
  let* sc := scene_of_item st h in
  match sc with
  | None => Throw TypeError
  | Some childScene => rec childScene
  end.

(** The key [_.uniqBy(result, 'sceneItemId')] reads. *)
Definition key_sceneItemId (h : option SceneItem) : option string :=
  si_sceneItemId <$> h.

(** [getNestedItems]; the recursive call takes the default options. *)
Fixpoint getNestedItems (fuel : nat) (st : Store) (this : IScene) (excludeScenes : bool)
    : outcome (list (option SceneItem)) :=
  match fuel with
  | O => OutOfFuel
  | S n =>
      let* result := getItems this in
      let* sc := filterO (type_is_scene st) result in
      let* nested := mapO (nested_of_item st (λ c, getNestedItems n st c false)) sc in
      let result := foldl (λ acc sceneItems, acc ++ sceneItems) result nested in
      let* result :=
        (if excludeScenes then filterO (type_is_not_scene st) result else Ret result) in
      Ret (uniqBy key_sceneItemId result)
  end.

(** ** Mutations of one scene record *)

(** A mutation runs on the record the handle is bound to; when it throws, the
    assignments made before the throw stay. *)
Definition Mutation (A : Type) : Type := IScene → outcome A * IScene.

Definition set_name (n : string) (this : IScene) : IScene :=
  {| scene_id := scene_id this; scene_name := n;
     activeItemIds := activeItemIds this; items := items this |}.

Definition set_activeItemIds (ids : list string) (this : IScene) : IScene :=
  {| scene_id := scene_id this; scene_name := scene_name this;
     activeItemIds := ids; items := items this |}.

Definition set_items (l : list slot) (this : IScene) : IScene :=
  {| scene_id := scene_id this; scene_name := scene_name this;
     activeItemIds := activeItemIds this; items := l |}.

(** Finish a mutation whose last step is an assignment of a computed array. *)
Definition assign {A : Type} (r : outcome A) (f : A → IScene → IScene) (this : IScene)
    : outcome unit * IScene :=
  match r with
  | Ret a => (Ret (), f a this)
  | Throw e => (Throw e, this)
  | OutOfFuel => (OutOfFuel, this)
  end.

Definition SET_NAME (newName : string) : Mutation unit :=
  λ this, (Ret (), set_name newName this).

Definition MAKE_SOURCES_ACTIVE (sceneItemIds : list string) : Mutation unit :=
  λ this, (Ret (), set_activeItemIds sceneItemIds this).

(** The row [ADD_SOURCE_TO_SCENE] builds. *)
Definition new_row (sceneItemId sourceId : string) (obsSceneItemId : Z) : ISceneItem :=
  {| sceneItemId := sceneItemId;
     sourceId := sourceId;
     obsSceneItemId := obsSceneItemId;
     x := 0;
     y := 0;
     scaleX := 1;
     scaleY := 1;
     visible := true;
     crop := {| top := 0; bottom := 0; left := 0; right := 0 |};
     rotation := 0;
     locked := false |}.

Definition ADD_SOURCE_TO_SCENE (sceneItemId sourceId : string) (obsSceneItemId : Z)
    : Mutation unit :=
  λ this,
    (Ret (), set_items (Some (new_row sceneItemId sourceId obsSceneItemId) :: items this) this).

(** [source => source.sceneItemId !== sceneItemId] *)
Definition other_id (removedId : string) (s : slot) : outcome bool :=
  match s with
  | None => Throw TypeError
  | Some m => Ret (bool_decide (sceneItemId m ≠ removedId))
  end.

Definition REMOVE_SOURCE_FROM_SCENE (sceneItemId : string) : Mutation unit :=
  λ this,
    let this :=
      if decide (sceneItemId ∈ activeItemIds this)
      then set_activeItemIds (without (activeItemIds this) sceneItemId) this
      else this in
    assign (filterO (other_id sceneItemId) (items this)) set_items this.

Definition SET_SOURCE_ORDER (order : list string) : Mutation unit :=
  λ this, assign (mapO (λ id, find_model id (items this)) order) set_items this.

(** Modelled from the spec: [SceneItem] lives in ./index, another module.
    Its attribute loaders write into the one row the
    handle is bound to, the row [find] reaches for the handle's id; "operations
    referencing a sceneItemId that no longer exists in the owning scene's
    items are programming errors (fail fast)". *)
Fixpoint update_row (id : string) (f : ISceneItem → ISceneItem) (l : list slot)
    : outcome (list slot) :=
  match l with
  | [] => Throw TypeError
  | None :: _ => Throw TypeError
  | Some m :: l' =>
      if decide (sceneItemId m = id) then Ret (Some (f m) :: l')
      else let* r := update_row id f l' in Ret (Some m :: r)
  end.

Definition UPDATE (id : string) (f : ISceneItem → ISceneItem) : Mutation unit :=
  λ this, assign (update_row id f (items this)) set_items this.

(** Modelled from the spec: [loadAttributes] "pulls current state from the
    backend item to populate position/scale/crop/rotation/visibility after
    creation". *)
Definition attributes_of_obs (o : ObsSceneItem) (m : ISceneItem) : ISceneItem :=
  {| sceneItemId := sceneItemId m;
     sourceId := sourceId m;
     obsSceneItemId := obsSceneItemId m;
     x := obs_x o;
     y := obs_y o;
     scaleX := obs_scaleX o;
     scaleY := obs_scaleY o;
     visible := obs_visible o;
     crop := obs_crop o;
     rotation := obs_rotation o;
     locked := locked m |}.

(** Modelled from the spec: [loadItemAttributes(backendItem)], the "bulk
    variant used during restore", which takes an entry of [arrayItems] with
    its "explicit geometry". *)
Definition attributes_of_info (a : ArrayItem) (m : ISceneItem) : ISceneItem :=
  {| sceneItemId := sceneItemId m;
     sourceId := sourceId m;
     obsSceneItemId := obsSceneItemId m;
     x := arr_x a;
     y := arr_y a;
     scaleX := arr_scaleX a;
     scaleY := arr_scaleY a;
     visible := arr_visible a;
     crop := arr_crop a;
     rotation := arr_rotation a;
     locked := arr_locked a |}.

(** ** Operations of a [Scene] handle on the store *)

(** An operation runs on the store and leaves it as it is at the moment it
    returns or throws. *)
Definition M (A : Type) : Type := Store → outcome A * Store.

Definition retM {A : Type} (a : A) : M A := λ st, (Ret a, st).

Definition throwM {A : Type} (e : JsError) : M A := λ st, (Throw e, st).

Definition bindM {A B : Type} (m : M A) (k : A → M B) : M B :=
  λ st,
    match m st with
    | (Ret a, st') => k a st'
    | (Throw e, st') => (Throw e, st')
    | (OutOfFuel, st') => (OutOfFuel, st')
    end.

Notation "'let!' x ':=' m 'in' k" := (bindM m (λ x, k))
  (at level 10, x name, m at level 100, k at level 200,
   format "'[v' 'let!'  x  ':='  m  'in' '/' k ']'").

Definition set_scenes (sc : gmap string IScene) (st : Store) : Store :=
  {| sources := sources st; scenes := sc |}.

Definition set_sources (so : gmap string Source) (st : Store) : Store :=
  {| sources := so; scenes := scenes st |}.

(** A handle [new Scene(self)] is bound to [state.scenes[self]]; a handle on
    an id the dictionary does not hold is bound to [undefined] and every use
    of its state throws. *)
Definition read {A : Type} (self : string) (f : Store → IScene → outcome A) : M A :=
  λ st,
    match scenes st !! self with
    | None => (Throw TypeError, st)
    | Some this => (f st this, st)
    end.

Definition commit {A : Type} (self : string) (mut : Mutation A) : M A :=
  λ st,
    match scenes st !! self with
    | None => (Throw TypeError, st)
    | Some this =>
        let '(r, this') := mut this in
        (r, set_scenes (<[self := this']> (scenes st)) st)
    end.

(** Modelled from the spec: [Source.setName] belongs to another module;
    rename "sets display name; side effect: renames the underlying
    source". *)
Definition rename_source (sourceId newName : string) : M unit :=
  λ st,
    match sources st !! sourceId with
    | None => (Throw TypeError, st)
    | Some src =>
        (Ret (),
         set_sources (<[sourceId := {| src_sourceId := src_sourceId src;
                                       src_name := newName;
                                       src_type := src_type src |}]> (sources st)) st)
    end.

Definition setName (self newName : string) : M unit :=
  let! sceneId := read self (λ _ this, Ret (scene_id this)) in
  let! _ := rename_source sceneId newName in
  commit self (SET_NAME newName).

(** [getItem(itemId).obsSceneItemId], read through the handle from the row it
    is bound to. *)
Definition obsSceneItemId_of (this : IScene) (itemId : string) : outcome Z :=
  let* m := find_model itemId (items this) in
  match m with
  | None => Throw TypeError
  | Some m => Ret (obsSceneItemId m)
  end.

(** The selection flags live in the compositing backend only; of
    [makeItemsActive] the store sees the lookups and the mutation. *)
Definition makeItemsActive (self : string) (sceneItemIds : list string) : M unit :=
  let! activeObsIds := read self (λ _ this, mapO (obsSceneItemId_of this) sceneItemIds) in
  commit self (MAKE_SOURCES_ACTIVE sceneItemIds).

Definition loadAttributes (self : string) (h : option SceneItem) (o : ObsSceneItem) : M unit :=
  match h with
  | None => throwM TypeError
  | Some si => commit self (UPDATE (si_sceneItemId si) (attributes_of_obs o))
  end.

Definition loadItemAttributes (self : string) (h : option SceneItem) (a : ArrayItem) : M unit :=
  match h with
  | None => throwM TypeError
  | Some si => commit self (UPDATE (si_sceneItemId si) (attributes_of_info a))
  end.

(** [options.sceneItemId || ipcRenderer.sendSync('getUniqueId')]: an absent
    or empty caller id gives way to the generated one. *)
Definition chosen_sceneItemId (options : ISceneItemAddOptions) (uniqueId : string) : string :=
  match opt_sceneItemId options with
  | Some id => if decide (id = EmptyString) then uniqueId else id
  | None => uniqueId
  end.

Definition not_found (what id : string) : JsError :=
  Error (String.append what (String.append " " (String.append id " not found"))).

(** [addSource]; [uniqueId] is what the id provider would answer and
    [obsSceneItem] what the backend answers to [add].  The notification sent
    at the end does not touch the store. *)
Definition addSource (fuel : nat) (self sourceId : string) (options : ISceneItemAddOptions)
    (uniqueId : string) (obsSceneItem : ObsSceneItem) : M (option SceneItem) :=
  λ st,
    match getSource st sourceId with
    | None => throwM (not_found "Source" sourceId) st
    | Some source =>
        (let! ok := read self (λ st this, canAddSource fuel st this sourceId) in
         if negb ok then retM None
         else
           let sceneItemId := chosen_sceneItemId options uniqueId in
           let! _ := commit self
                       (ADD_SOURCE_TO_SCENE sceneItemId (src_sourceId source)
                          (obs_id obsSceneItem)) in
           let! sceneItem := read self (λ _ this, getItem this sceneItemId) in
           let! _ := makeItemsActive self [sceneItemId] in
           let! _ := loadAttributes self sceneItem obsSceneItem in
           retM sceneItem) st
    end.

Definition removeItem (self sceneItemId : string) : M unit :=
  let! sceneItem := read self (λ _ this, getItem this sceneItemId) in
  match sceneItem with
  | None => throwM (not_found "SceneItem" sceneItemId)
  | Some _ => commit self (REMOVE_SOURCE_FROM_SCENE sceneItemId)
  end.

(** [setSourceOrder]: the backend move needs the index of the item; the store
    then takes [order]. *)
Definition setSourceOrder (self sceneItemId : string) (positionDelta : Z)
    (order : list string) : M unit :=
  let! itemIndex := read self (λ _ this, getItemIndex this sceneItemId) in
  commit self (SET_SOURCE_ORDER order).

(** [item.rotation || 0] *)
Definition or_zero (r : option Q) : Q :=
  match r with
  | Some q => if Qeq_bool q 0 then 0%Q else q
  | None => 0%Q
  end.

Definition to_arrayItem (source : Source) (item : ISceneItemInfo) : ArrayItem :=
  {| arr_name := src_sourceId source;
     arr_id := info_id item;
     arr_sourceId := src_sourceId source;
     arr_crop := info_crop item;
     arr_scaleX := default 1%Q (info_scaleX item);
     arr_scaleY := default 1%Q (info_scaleY item);
     arr_visible := info_visible item;
     arr_x := default 0%Q (info_x item);
     arr_y := default 0%Q (info_y item);
     arr_locked := info_locked item;
     arr_rotation := or_zero (info_rotation item) |}.

(** The first [forEach] of [addSources]: entries whose source resolves. *)
Definition arrayItems_of (st : Store) (items : list ISceneItemInfo) : list ArrayItem :=
  omap (λ item, (λ source, to_arrayItem source item) <$> getSource st (info_sourceId item)) items.

(** The second [forEach] of [addSources], from position [index] on.  It
    walks [arrayItems] and reads [items] and the backend's [sceneItems] at the
    same position. *)
Fixpoint addSources_from (self : string) (items : list ISceneItemInfo) (sceneItems : list Z)
    (arrayItems : list ArrayItem) (index : nat) : M unit :=
  match arrayItems with
  | [] => retM ()
  | sceneItem :: rest =>
      match items !! index, sceneItems !! index with
      | Some item, Some obsId =>
          let! _ := commit self (ADD_SOURCE_TO_SCENE (info_id item) (info_sourceId item) obsId) in
          let! h := read self (λ _ this, getItem this (info_id item)) in
          let! _ := loadItemAttributes self h sceneItem in
          addSources_from self items sceneItems rest (S index)
      | _, _ => throwM TypeError
      end
  end.

(** [addSources]; [sceneItems] are the ids of the backend items
    [obs.addItems] answers. *)
Definition addSources (self : string) (items : list ISceneItemInfo) (sceneItems : list Z)
    : M unit :=
  λ st, addSources_from self items sceneItems (arrayItems_of st items) 0 st.

(** * Vocabulary of the statements *)

(** The rows held by the defined slots of an [items] array, and their ids. *)
Definition rows_of (l : list slot) : list ISceneItem := omap (λ s, s) l.

Definition item_ids (this : IScene) : list string := sceneItemId <$> rows_of (items this).

(** The declared type [ISceneItem[]] of [items]: no slot is [undefined]. *)
Definition items_defined (this : IScene) : Prop := Forall is_Some (items this).

(** [find] on an array without holes. *)
Fixpoint find_row (id : string) (l : list ISceneItem) : option ISceneItem :=
  match l with
  | [] => None
  | m :: l' => if decide (sceneItemId m = id) then Some m else find_row id l'
  end.

(** The scene record a successful [addSource] leaves behind. *)
Definition added (this : IScene) (source : Source) (options : ISceneItemAddOptions)
    (uniqueId : string) (obsSceneItem : ObsSceneItem) : IScene :=
  let id := chosen_sceneItemId options uniqueId in
  {| scene_id := scene_id this;
     scene_name := scene_name this;
     activeItemIds := [id];
     items := Some (attributes_of_obs obsSceneItem
                      (new_row id (src_sourceId source) (obs_id obsSceneItem)))
              :: items this |}.

Definition zero_crop : ICrop := {| top := 0; bottom := 0; left := 0; right := 0 |}.

(** The state [ADD_SOURCE_TO_SCENE] gives a new row. *)
Definition default_state (m : ISceneItem) : Prop :=
  visible m = true ∧ locked m = false ∧ scaleX m = 1%Q ∧ scaleY m = 1%Q ∧
  x m = 0%Q ∧ y m = 0%Q ∧ rotation m = 0%Q ∧ crop m = zero_crop.

(** A backend item that holds the same attributes. *)
Definition obs_default (o : ObsSceneItem) : Prop :=
  obs_visible o = true ∧ obs_scaleX o = 1%Q ∧ obs_scaleY o = 1%Q ∧
  obs_x o = 0%Q ∧ obs_y o = 0%Q ∧ obs_rotation o = 0%Q ∧ obs_crop o = zero_crop.

(** ** A small studio, to run the statements on

    Scene S1 shows scene S2 twice and a camera; S2 shows the camera. *)
Definition a_source (id type : string) : Source :=
  {| src_sourceId := id; src_name := id; src_type := type |}.

Definition a_scene (id : string) (active : list string) (rows : list ISceneItem) : IScene :=
  {| scene_id := id; scene_name := id; activeItemIds := active; items := Some <$> rows |}.

Definition scene_S1 : IScene :=
  a_scene "S1" ["i1"] [new_row "i1" "S2" 1; new_row "i2" "cam1" 2; new_row "i3" "S2" 3].

Definition scene_S2 : IScene :=
  a_scene "S2" [] [new_row "j1" "cam1" 1].

Definition studio : Store :=
  {| sources := <["cam1" := a_source "cam1" "ffmpeg_source"]>
                  (<["S1" := a_source "S1" "scene"]> (<["S2" := a_source "S2" "scene"]> ∅));
     scenes := <["S1" := scene_S1]> (<["S2" := scene_S2]> ∅) |}.

Definition no_options : ISceneItemAddOptions := {| opt_sceneItemId := None |}.

Definition with_id (id : string) : ISceneItemAddOptions := {| opt_sceneItemId := Some id |}.

Definition fresh_obs (id : Z) : ObsSceneItem :=
  {| obs_id := id; obs_x := 0; obs_y := 0; obs_scaleX := 1; obs_scaleY := 1;
     obs_visible := true; obs_crop := zero_crop; obs_rotation := 0 |}.

(** The scene record [removeItem] leaves behind. *)
Definition removed (id : string) (this : IScene) : IScene :=
  {| scene_id := scene_id this;
     scene_name := scene_name this;
     activeItemIds := filter (λ i, i ≠ id) (activeItemIds this);
     items := Some <$> filter (λ m, sceneItemId m ≠ id) (rows_of (items this)) |}.

(** The scene record [setSourceOrder] leaves behind when no slot of [items]
    is undefined: one slot for each id of [order], holding what [find]
    answers for it. *)
Definition reordered (order : list string) (this : IScene) : IScene :=
  set_items ((λ id, find_row id (rows_of (items this))) <$> order) this.

(** ** The scene-reference graph *)

(** A row bound to a source of type "scene". *)
Definition is_scene_row (st : Store) (m : ISceneItem) : bool :=
  bool_decide (src_type <$> getSource st (sourceId m) = Some "scene").

(** The ids of the child scenes of a scene, one for each such row, in the
    order of [items]. *)
Definition child_ids (st : Store) (this : IScene) : list string :=
  sourceId <$> filter (λ m, is_scene_row st m = true) (rows_of (items this)).

(** Scene [this] shows scene [c]: [c] is a source of type "scene" used by one
    of the items of [this]. *)
Definition shows (st : Store) (this : IScene) (c : string) : Prop :=
  ∃ m source,
    m ∈ rows_of (items this) ∧ sourceId m = c ∧
    getSource st c = Some source ∧ src_type source = "scene".

(** The edge of the graph, between ids of registered scenes: [b] is a child
    scene of the scene registered as [a]. *)
Definition child (st : Store) (a b : string) : Prop :=
  ∃ this, scenes st !! a = Some this ∧ shows st this b.

(** [b] is nested within [a]: [a] contains [b], directly or through other
    scenes. *)
Definition nested (st : Store) (a b : string) : Prop := tc (child st) a b.

(** [x] is a child scene of [this] or is nested within one. *)
Definition contains (st : Store) (this : IScene) (x : string) : Prop :=
  ∃ c, shows st this c ∧ (c = x ∨ nested st c x).

Definition acyclic (st : Store) : Prop := ∀ a, ¬ nested st a a.

(** The store the data model describes: dictionary keys are the ids of what
    they hold, every source of type "scene" is a registered scene and every
    scene a source of type "scene", [items] has the type [ISceneItem[]], item
    ids are unique within a scene, and no scene contains itself. *)
Record well_formed (st : Store) : Prop := {
  wf_scene_keys : ∀ k s, scenes st !! k = Some s → scene_id s = k;
  wf_source_keys : ∀ k src, sources st !! k = Some src → src_sourceId src = k;
  wf_scene_sources :
    ∀ k src, sources st !! k = Some src → src_type src = "scene" → is_Some (scenes st !! k);
  wf_scenes_registered :
    ∀ k s, scenes st !! k = Some s →
           ∃ src, sources st !! k = Some src ∧ src_type src = "scene";
  wf_items_defined : ∀ k s, scenes st !! k = Some s → items_defined s;
  wf_ids_unique : ∀ k s, scenes st !! k = Some s → NoDup (item_ids s);
  wf_acyclic : acyclic st
}.

(** The scenes on the way down to [this] in a traversal: distinct registered
    scenes, each of which contains every child of [this]. *)
Definition on_path (st : Store) (anc : list string) (this : IScene) : Prop :=
  NoDup anc ∧
  (∀ k, k ∈ anc → is_Some (scenes st !! k)) ∧
  (∀ k c, k ∈ anc → shows st this c → nested st k c).

#[local] Set Warnings "-register-all".

(** The depth-first traversal of the items of a scene: its own items, in
    their stored order, followed by the traversal of each child scene, in the
    order of the items that show them. *)
Inductive traversal (st : Store) : IScene → list SceneItem → Prop :=
  | traversal_scene (this : IScene) (children : list IScene)
        (subs : list (list SceneItem)) :
      Forall2 (λ c childScene, scenes st !! c = Some childScene)
              (child_ids st this) children →
      Forall2 (traversal st) children subs →
      traversal st this
        ((new_SceneItem (scene_id this) <$> rows_of (items this)) ++ concat subs).

(** A malformed store: scene L shows itself. *)
Definition scene_L : IScene := a_scene "L" [] [new_row "l1" "L" 1].

Definition looped : Store :=
  {| sources := <["L" := a_source "L" "scene"]> ∅;
     scenes := <["L" := scene_L]> ∅ |}.

(** ** State invariants *)

(** Invariants 1 and 2 of a scene record: active ids are ids of items, and
    no item id occurs twice. *)
Definition invariants (this : IScene) : Prop :=
  (∀ i, i ∈ activeItemIds this → i ∈ item_ids this) ∧ NoDup (item_ids this).

(** Every scene of the store is well typed and satisfies them. *)
Definition store_invariants (st : Store) : Prop :=
  ∀ k s, scenes st !! k = Some s → items_defined s ∧ invariants s.

(** The scene record one round of the second loop of [addSources] leaves
    behind. *)
Definition restored (item : ISceneItemInfo) (obsId : Z) (a : ArrayItem) (this : IScene)
    : IScene :=
  set_items (Some (attributes_of_info a
                     (new_row (info_id item) (info_sourceId item) obsId))
             :: items this) this.

(** An empty scene S and two sources "a" and "b". *)
Definition stage : Store :=
  {| sources := <["a" := a_source "a" "image_source"]>
                  (<["b" := a_source "b" "image_source"]>
                     (<["S" := a_source "S" "scene"]> ∅));
     scenes := <["S" := a_scene "S" [] []]> ∅ |}.

(** The store after the two calls [addSource("a")], [addSource("b")] on S,
    the id provider answering "id_a" and then "id_b". *)
Definition stage_a_b : Store :=
  (addSource 2 "S" "b" no_options "id_b" (fresh_obs 2)
     (addSource 2 "S" "a" no_options "id_a" (fresh_obs 1) stage).2).2.

(** ** The remaining readers of a scene *)




(** A scene with a hole: its second slot is [undefined]. *)
Definition scene_H : IScene :=
  {| scene_id := "H"; scene_name := "H"; activeItemIds := [];
     items := [Some (new_row "h1" "cam1" 1); None; Some (new_row "h3" "cam1" 3)] |}.

(** ** Stores whose graph may be cyclic *)

(** The part of [well_formed] that says nothing of the graph: dictionary keys
    are scene ids, [items] arrays have no hole and no id twice. *)
Record regular (st : Store) : Prop := {
  reg_scene_keys : ∀ k s, scenes st !! k = Some s → scene_id s = k;
  reg_items_defined : ∀ k s, scenes st !! k = Some s → items_defined s;
  reg_ids_unique : ∀ k s, scenes st !! k = Some s → NoDup (item_ids s)
}.

(** From scene [k] one can walk into a cycle of the graph. *)
Definition reaches_cycle (st : Store) (k : string) : Prop :=
  ∃ c, rtc (child st) k c ∧ nested st c c.

(** [sceneItem => sceneItem.getSource()] on what [getNestedItems] answered.
    Modelled from the spec: [SceneItem.getSource] lives in ./index, another
    module; "getSource() (resolve owning Source via SourceRegistry)". *)
Definition source_of_item (st : Store) (h : option SceneItem) : outcome (option Source) :=
  match h with
  | None => Throw TypeError
  | Some si => Ret (getSource st (si_sourceId si))
  end.

(** The key [_.uniqBy(sources, 'sourceId')] reads. *)
Definition key_sourceId (s : option Source) : option string := src_sourceId <$> s.

Definition getNestedSources (fuel : nat) (st : Store) (this : IScene) (excludeScenes : bool)
    : outcome (list (option Source)) :=
  let* sceneItems := getNestedItems fuel st this excludeScenes in
  let* sources := mapO (source_of_item st) sceneItems in
  Ret (uniqBy key_sourceId sources).

(** An entry of persisted state with nothing set but its ids. *)
Definition an_entry (id sourceId : string) : ISceneItemInfo :=
  {| info_id := id; info_sourceId := sourceId; info_crop := zero_crop;
     info_scaleX := None; info_scaleY := None; info_visible := true;
     info_x := None; info_y := None; info_locked := false; info_rotation := None |}.

(** The entries of [addSources] whose source resolves. *)
Definition resolving (st : Store) (infos : list ISceneItemInfo) : list ISceneItemInfo :=
  filter (λ item, is_Some (getSource st (info_sourceId item))) infos.

(** * The user service

    [class UserService], the first module of src/app/services/user.ts: the
    state mutations, the getters and the URL builders.  The window, the
    network and the error reporter are outside the model. *)

Record IPlatform : Type := {
  plat_type : option string;
  plat_username : string;
  plat_token : string;
  plat_id : string
}.

Record IPlatformAuth : Type := {
  auth_widgetToken : string;
  auth_platform : IPlatform
}.

(** [IUserServiceState]: [auth] is optional. *)
Record IUserServiceState : Type := {
  auth : option IPlatformAuth
}.

(** A string in a condition: the empty string counts as false. *)
Definition truthy (s : string) : bool := bool_decide (s ≠ EmptyString).

(** [Vue.set(this.state, 'auth', auth)] *)
Definition LOGIN (a : IPlatformAuth) (s : IUserServiceState) : IUserServiceState :=
  {| auth := Some a |}.

(** [Vue.delete(this.state, 'auth')] *)
Definition LOGOUT (s : IUserServiceState) : IUserServiceState :=
  {| auth := None |}.

Definition logOut (s : IUserServiceState) : IUserServiceState := LOGOUT s.

(** [!!(this.state.auth && this.state.auth.widgetToken)] *)
Definition isLoggedIn (s : IUserServiceState) : bool :=
  match auth s with
  | Some a => truthy (auth_widgetToken a)
  | None => false
  end.

(** The getters answer [undefined] ([None]) when nobody is logged in. *)
Definition widgetToken (s : IUserServiceState) : option string :=
  if isLoggedIn s then auth_widgetToken <$> auth s else None.

Definition platform (s : IUserServiceState) : option IPlatform :=
  if isLoggedIn s then auth_platform <$> auth s else None.

Definition username (s : IUserServiceState) : option string :=
  if isLoggedIn s then (λ a, plat_username (auth_platform a)) <$> auth s else None.

Definition platformId (s : IUserServiceState) : option string :=
  if isLoggedIn s then (λ a, plat_id (auth_platform a)) <$> auth s else None.

(** [this.customizationService.nightMode ? 'night' : 'day'] *)
Definition mode_of (nightMode : bool) : string := if nightMode then "night" else "day".

(** [widgetUrl(type)]; [host] is [hostsService.streamlabs].  The template
    prints the token the getter answers. *)
Definition widgetUrl (host : string) (nightMode : bool) (type : string)
    (s : IUserServiceState) : option string :=
  if isLoggedIn s then
    let token := default "undefined" (widgetToken s) in
    if decide (type = "recent-events") then
      Some ("https://" +:+ host +:+ "/dashboard/recent-events?token=" +:+ token
            +:+ "&mode=" +:+ mode_of nightMode +:+ "&electron")
    else if decide (type = "dashboard") then
      Some ("https://" +:+ host +:+ "/slobs/dashboard/" +:+ token
            +:+ "?mode=" +:+ mode_of nightMode +:+ "&show_recent_events=0")
    else None
  else None.

(** [overlaysUrl()]; [host] is [hostsService.beta2]. *)
Definition overlaysUrl (host : string) (nightMode : bool) (s : IUserServiceState) : string :=
  let url := "https://" +:+ host +:+ "/marketplace?mode=" +:+ mode_of nightMode +:+ "&slobs" in
  if isLoggedIn s
  then url +:+ "&token=" +:+ default "undefined" (widgetToken s)
  else url.

(** A value of the object [URI.parseQuery] answers for the query part of a
    URL: a string for a parameter given once, [null] for one given without a
    value, and an array of such for a parameter given several times.  A
    parameter the URL does not have is not a property of the object. *)
Inductive QueryValue : Type :=
  | QString (s : string)
  | QNull
  | QArray (l : list (option string)).

(** A property of the query in a condition: [undefined], [null] and the
    empty string count as false; any other string and any array count as
    true. *)
Definition present (v : option QueryValue) : bool :=
  match v with
  | Some (QString s) => truthy s
  | Some QNull => false
  | Some (QArray _) => true
  | None => false
  end.

(** The object literal [parseAuthFromUrl] returns, before the cast: each
    field holds what the query holds under the name read, a value or
    [undefined] ([None]). *)
Record ParsedPlatform : Type := {
  parsed_type : option QueryValue;
  parsed_username : option QueryValue;
  parsed_token : option QueryValue;
  parsed_id : option QueryValue
}.

Record ParsedAuth : Type := {
  parsed_widgetToken : option QueryValue;
  parsed_platform : ParsedPlatform
}.

(** [parseAuthFromUrl], from the parsed query on: [query] is the object
    [URI.parseQuery] answers, read as a lookup of its properties.  [false]
    is [None]. *)
Definition parseAuthFromUrl (query : string → option QueryValue) : option ParsedAuth :=
  if present (query "token") && present (query "platform_username")
     && present (query "platform_token") && present (query "platform_id")
  then Some {| parsed_widgetToken := query "token";
               parsed_platform := {| parsed_type := query "platform";
                                     parsed_username := query "platform_username";
                                     parsed_token := query "platform_token";
                                     parsed_id := query "platform_id" |} |}
  else None.

Definition as_string (v : option QueryValue) : option string :=
  match v with
  | Some (QString s) => Some s
  | _ => None
  end.

(** [as IPlatformAuth]: the cast checks nothing when the program runs.  The
    object is of the declared type, whose fields are strings, when each of
    its values is a string; [type] may be missing. *)
Definition as_IPlatformAuth (p : ParsedAuth) : option IPlatformAuth :=
  match as_string (parsed_widgetToken p),
        as_string (parsed_username (parsed_platform p)),
        as_string (parsed_token (parsed_platform p)),
        as_string (parsed_id (parsed_platform p)) with
  | Some widgetToken, Some username, Some token, Some id =>
      match parsed_type (parsed_platform p) with
      | None =>
          Some {| auth_widgetToken := widgetToken;
                  auth_platform := {| plat_type := None; plat_username := username;
                                      plat_token := token; plat_id := id |} |}
      | Some (QString type) =>
          Some {| auth_widgetToken := widgetToken;
                  auth_platform := {| plat_type := Some type; plat_username := username;
                                      plat_token := token; plat_id := id |} |}
      | Some _ => None
      end
  | _, _, _, _ => None
  end.

(** [getLocalUserId]; [uniqueId] is what the main process would answer to
    ['getUniqueId'], and the storage is [localStorage]. *)
Definition getLocalUserId (uniqueId : string) (localStorage : gmap string string)
    : string * gmap string string :=
  let localStorageKey := "SlobsLocalUserId" in
  match localStorage !! localStorageKey with
  | Some userId =>
      if truthy userId then (userId, localStorage)
      else (uniqueId, <[localStorageKey := uniqueId]> localStorage)
  | None => (uniqueId, <[localStorageKey := uniqueId]> localStorage)
  end.

(** A query with the four parameters the login needs, each given once, and
    no platform. *)
Definition a_query (k : string) : option QueryValue :=
  if decide (k = "token") then Some (QString "tok")
  else if decide (k = "platform_username") then Some (QString "ann")
  else if decide (k = "platform_token") then Some (QString "ptok")
  else if decide (k = "platform_id") then Some (QString "42")
  else None.

(** The query of a URL that gives [token] twice, both times empty. *)
Definition a_query_token_twice (k : string) : option QueryValue :=
  if decide (k = "token") then Some (QArray [Some EmptyString; Some EmptyString])
  else a_query k.

Definition logged_out : IUserServiceState := {| auth := None |}.

Definition a_session : IPlatformAuth :=
  {| auth_widgetToken := "tok";
     auth_platform := {| plat_type := None; plat_username := "ann";
                         plat_token := "ptok"; plat_id := "42" |} |}.

(** ** Two scenes and a camera

    Scene A shows the camera and scene B is empty.  [duo_1], [duo_2] and
    [duo_3] are the stores three calls of [addSource] leave one after the
    other: B adds A under the id "a", B adds the camera under the same id,
    and A adds B. *)
Definition scene_A : IScene := a_scene "A" [] [new_row "z" "cam" 1].

Definition scene_B : IScene := a_scene "B" [] [].

Definition duo : Store :=
  {| sources := <["cam" := a_source "cam" "ffmpeg_source"]>
                  (<["A" := a_source "A" "scene"]> (<["B" := a_source "B" "scene"]> ∅));
     scenes := <["A" := scene_A]> (<["B" := scene_B]> ∅) |}.

Definition duo_1 : Store :=
  (addSource 3 "B" "A" (with_id "a") "u1" (fresh_obs 2) duo).2.

Definition duo_2 : Store :=
  (addSource 3 "B" "cam" (with_id "a") "u2" (fresh_obs 3) duo_1).2.

Definition duo_3 : Store :=
  (addSource 3 "A" "B" (with_id "x") "u3" (fresh_obs 4) duo_2).2.

(** The records of B in [duo_1] and [duo_2], and of A in [duo_3]. *)
Definition scene_B1 : IScene :=
  a_scene "B" ["a"] [new_row "a" "A" 2].

Definition scene_B2 : IScene :=
  a_scene "B" ["a"] [new_row "a" "cam" 3; new_row "a" "A" 2].

Definition scene_A3 : IScene :=
  a_scene "A" ["x"] [new_row "x" "B" 4; new_row "z" "cam" 1].

(** ** The studio with an undefined slot, and with an id twice

    [holed] is the studio after a [setSourceOrder] on S1 whose order names an
    id, "zz", that no item carries; [doubled] is the studio after an
    [addSource] on S1 under the id "i1" that S1 already uses. *)
Definition holed : Store :=
  (setSourceOrder "S1" "i1" 0 ["i1"; "zz"; "i3"] studio).2.

Definition scene_S1_holed : IScene :=
  set_items [Some (new_row "i1" "S2" 1); None; Some (new_row "i3" "S2" 3)] scene_S1.

Definition doubled : Store :=
  (addSource 3 "S1" "cam1" (with_id "i1") "u1" (fresh_obs 9) studio).2.

Definition scene_S1_doubled : IScene :=
  a_scene "S1" ["i1"]
    [new_row "i1" "cam1" 9; new_row "i1" "S2" 1; new_row "i2" "cam1" 2; new_row "i3" "S2" 3].

(** ** The studio with S1 nested within itself

    [studio_self] is the studio after [addSources] has restored, in S1, an
    entry that shows S1. *)
Definition studio_self : Store :=
  (addSources "S1" [an_entry "e1" "S1"] [7%Z] studio).2.

Definition scene_S1_self : IScene :=
  a_scene "S1" ["i1"]
    [new_row "e1" "S1" 7; new_row "i1" "S2" 1; new_row "i2" "cam1" 2; new_row "i3" "S2" 3].

(** ** What an operation of one handle leaves alone *)

(** The store [st'] differs from [st] at most in the record of scene [self],
    which is registered in both or in neither. *)
Definition same_elsewhere (self : string) (st st' : Store) : Prop :=
  sources st' = sources st ∧
  (∀ k, k ≠ self → scenes st' !! k = scenes st !! k) ∧
  (is_Some (scenes st' !! self) ↔ is_Some (scenes st !! self)).

(** * Properties *)

(** ** Outcomes and list helpers *)

Lemma bindO_Ret {A B : Type} (m : outcome A) (k : A → outcome B) (b : B) :
  bindO m k = Ret b → ∃ a, m = Ret a ∧ k a = Ret b.
Proof. destruct m as [a| |]; simpl; [eauto | done | done]. Qed.

Lemma mapO_Ret_all {A B : Type} (f : A → outcome B) (g : A → B) (l : list A) :
  (∀ a, a ∈ l → f a = Ret (g a)) → mapO f l = Ret (g <$> l).
Proof.
  induction l as [|a l IH]; intros Hf; simpl; [done|].
  rewrite Hf by left. simpl. rewrite IH; [done|].
  intros b Hb. apply Hf. by right.
Qed.

(** ** Rows of a scene *)

Lemma rows_of_Some (l : list ISceneItem) : rows_of (Some <$> l) = l.
Proof. unfold rows_of. induction l as [|m l IH]; csimpl; [done|]. by f_equal. Qed.

Lemma defined_rows (l : list slot) : Forall is_Some l → l = Some <$> rows_of l.
Proof.
  unfold rows_of. induction 1 as [|s l [m ->] _ IH]; csimpl; [done|]. by f_equal.
Qed.

Lemma Forall_is_Some_fmap (l : list ISceneItem) : Forall is_Some (Some <$> l).
Proof. induction l; constructor; eauto. Qed.

Lemma find_model_Some (id : string) (l : list ISceneItem) :
  find_model id (Some <$> l) = Ret (find_row id l).
Proof. induction l as [|m l IH]; simpl; [done|]. by case_decide. Qed.

Lemma find_row_None (id : string) (l : list ISceneItem) :
  find_row id l = None ↔ id ∉ sceneItemId <$> l.
Proof.
  induction l as [|m l IH]; simpl.
  - split; [intros _; apply not_elem_of_nil | done].
  - case_decide as Hm.
    + split; [done|]. intros Hn. exfalso. apply Hn. subst. left.
    + rewrite IH, not_elem_of_cons. split; [by intros ?; split; [congruence|] | by intros [_ ?]].
Qed.

Lemma find_row_Some (id : string) (l : list ISceneItem) (m : ISceneItem) :
  find_row id l = Some m → m ∈ l ∧ sceneItemId m = id.
Proof.
  induction l as [|m' l IH]; simpl; [done|].
  case_decide as Hm.
  - intros [= ->]. split; [left | done].
  - intros [? ?]%IH. split; [by right | done].
Qed.

Lemma find_row_elem (id : string) (l : list ISceneItem) :
  id ∈ sceneItemId <$> l → is_Some (find_row id l).
Proof.
  intros Hin. destruct (find_row id l) eqn:E; [eauto|].
  by apply find_row_None in E.
Qed.

Lemma find_row_NoDup (l : list ISceneItem) (m : ISceneItem) :
  NoDup (sceneItemId <$> l) → m ∈ l → find_row (sceneItemId m) l = Some m.
Proof.
  induction l as [|m' l IH]; simpl; intros Hnd Hin.
  - by apply elem_of_nil in Hin.
  - apply NoDup_cons in Hnd as [Hnotin Hnd].
    apply elem_of_cons in Hin as [->|Hin]; [by rewrite decide_True|].
    rewrite decide_False; [by apply IH|].
    intros Heq. apply Hnotin. rewrite Heq. by apply list_elem_of_fmap_2.
Qed.

(** ** addSource *)

Lemma set_scenes_twice (m1 m2 : gmap string IScene) (st : Store) :
  set_scenes m2 (set_scenes m1 st) = set_scenes m2 st.
Proof. done. Qed.

Lemma addSource_unresolved fuel self sourceId options uniqueId obsSceneItem st :
  getSource st sourceId = None →
  addSource fuel self sourceId options uniqueId obsSceneItem st
  = (Throw (not_found "Source" sourceId), st).
Proof. intros H. unfold addSource. by rewrite H. Qed.

Lemma addSource_rejected fuel self this sourceId options uniqueId obsSceneItem st :
  scenes st !! self = Some this →
  is_Some (getSource st sourceId) →
  canAddSource fuel st this sourceId = Ret false →
  addSource fuel self sourceId options uniqueId obsSceneItem st = (Ret None, st).
Proof.
  intros Hself [source Hsrc] Hcan. unfold addSource. rewrite Hsrc.
  unfold bindM, read. by rewrite Hself, Hcan.
Qed.

Lemma addSource_accepted fuel self this sourceId source options uniqueId obsSceneItem st :
  scenes st !! self = Some this →
  getSource st sourceId = Some source →
  canAddSource fuel st this sourceId = Ret true →
  addSource fuel self sourceId options uniqueId obsSceneItem st
  = (Ret (Some {| si_sceneId := scene_id this;
                  si_sceneItemId := chosen_sceneItemId options uniqueId;
                  si_sourceId := src_sourceId source |}),
     set_scenes (<[self := added this source options uniqueId obsSceneItem]> (scenes st)) st).
Proof.
  intros Hself Hsrc Hcan. unfold addSource. rewrite Hsrc.
  unfold bindM at 1. unfold read at 1. rewrite Hself, Hcan. simpl.
  unfold bindM at 1. unfold commit at 1. rewrite Hself. simpl.
  unfold bindM at 1. unfold read at 1. simpl. rewrite lookup_insert_eq.
  unfold getItem. simpl. rewrite decide_True by done. simpl.
  unfold bindM at 1. unfold makeItemsActive, bindM at 1. unfold read at 1. simpl.
  rewrite lookup_insert_eq. unfold obsSceneItemId_of. simpl.
  rewrite decide_True by done. simpl.
  unfold commit at 1. simpl. rewrite lookup_insert_eq. simpl.
  unfold bindM, loadAttributes, commit. simpl. rewrite lookup_insert_eq.
  unfold UPDATE. simpl. rewrite decide_True by done. simpl.
  unfold retM, new_SceneItem. simpl. f_equal.
  rewrite !set_scenes_twice. simpl. by rewrite !insert_insert_eq.
Qed.

(** Whatever [addSource] answers other than a new item, the store is the one
    it started from. *)
Lemma addSource_no_item_unchanged fuel self srcId options uniqueId obsSceneItem st r st' :
  addSource fuel self srcId options uniqueId obsSceneItem st = (r, st') →
  (∀ h, r ≠ Ret (Some h)) → st' = st.
Proof.
  intros Hadd Hr.
  destruct (getSource st srcId) as [source|] eqn:Hsrc.
  2:{ rewrite addSource_unresolved in Hadd by done. by injection Hadd as <- <-. }
  destruct (scenes st !! self) as [this|] eqn:Hself.
  2:{ unfold addSource, bindM, read in Hadd. rewrite Hsrc, Hself in Hadd.
      by simplify_eq/=. }
  destruct (canAddSource fuel st this srcId) as [[|]| |] eqn:Hcan.
  - rewrite (addSource_accepted _ _ this _ source) in Hadd by done.
    injection Hadd as <- <-. by edestruct Hr.
  - rewrite (addSource_rejected _ _ this) in Hadd by done. by injection Hadd as <- <-.
  - unfold addSource, bindM, read in Hadd. rewrite Hsrc, Hself, Hcan in Hadd.
    by simplify_eq/=.
  - unfold addSource, bindM, read in Hadd. rewrite Hsrc, Hself, Hcan in Hadd.
    by simplify_eq/=.
Qed.

(** What [addSource] answered tells which of its three ways it took. *)
Lemma addSource_Some_inv fuel self sourceId options uniqueId obsSceneItem st h st' :
  addSource fuel self sourceId options uniqueId obsSceneItem st = (Ret (Some h), st') →
  ∃ this source,
    scenes st !! self = Some this ∧ getSource st sourceId = Some source ∧
    canAddSource fuel st this sourceId = Ret true.
Proof.
  intros Hadd. unfold addSource in Hadd.
  destruct (getSource st sourceId) as [source|] eqn:Hsrc; [|done].
  unfold bindM at 1 in Hadd. unfold read at 1 in Hadd.
  destruct (scenes st !! self) as [this|] eqn:Hself; [|done].
  destruct (canAddSource fuel st this sourceId) as [[|]| |] eqn:Hcan; try done.
  by exists this, source.
Qed.

(** C10: a source id the registry does not resolve makes [canAddSource]
    answer false, without throwing; [addSource] throws "not found" all the
    same, because it resolves the source itself before it asks
    [canAddSource]. *)
Theorem canAddSource_unresolved_false (st : Store) (sourceId : string)
    (Hnone : getSource st sourceId = None) :
  (∀ fuel this, canAddSource fuel st this sourceId = Ret false) ∧
  (∀ fuel self options uniqueId obsSceneItem,
     addSource fuel self sourceId options uniqueId obsSceneItem st
     = (Throw (Error (String.append "Source " (String.append sourceId " not found"))), st)).
Proof.
  split.
  - intros fuel this. unfold canAddSource. by rewrite Hnone.
  - intros. by apply addSource_unresolved.
Qed.

Lemma canAddSource_unresolved_false_witness :
  canAddSource 0 studio scene_S1 "mic" = Ret false ∧
  addSource 0 "S1" "mic" no_options "u1" (fresh_obs 9) studio
  = (Throw (Error "Source mic not found"), studio).
Proof.
  assert (H : getSource studio "mic" = None) by reflexivity.
  split.
  - exact (proj1 (canAddSource_unresolved_false studio "mic" H) 0 scene_S1).
  - exact (proj2 (canAddSource_unresolved_false studio "mic" H) 0 "S1" no_options "u1" (fresh_obs 9)).
Defined.

(** C2: [addSource] fails in two ways and changes nothing when it does: a
    source id that does not resolve makes it throw, a resolved source that
    [canAddSource] rejects makes it return [null]; either way the store, and
    so the scene's items and active ids, is the one it started from.  More
    generally, a call that does not answer a new item leaves the store as it
    was. *)
Theorem addSource_failure_atomic (fuel : nat) (st : Store) (self sourceId : string)
    (options : ISceneItemAddOptions) (uniqueId : string) (obsSceneItem : ObsSceneItem) :
  (getSource st sourceId = None →
   addSource fuel self sourceId options uniqueId obsSceneItem st
   = (Throw (not_found "Source" sourceId), st)) ∧
  (∀ this,
     scenes st !! self = Some this →
     is_Some (getSource st sourceId) →
     canAddSource fuel st this sourceId = Ret false →
     addSource fuel self sourceId options uniqueId obsSceneItem st = (Ret None, st)) ∧
  (∀ r st',
     addSource fuel self sourceId options uniqueId obsSceneItem st = (r, st') →
     (∀ h, r ≠ Ret (Some h)) → st' = st).
Proof.
  split; [|split].
  - apply addSource_unresolved.
  - intros this. apply addSource_rejected.
  - intros r st'. apply addSource_no_item_unchanged.
Qed.

Lemma addSource_failure_atomic_witness :
  addSource 3 "S2" "mic" no_options "u1" (fresh_obs 9) studio
  = (Throw (Error "Source mic not found"), studio) ∧
  addSource 3 "S2" "S1" no_options "u1" (fresh_obs 9) studio = (Ret None, studio).
Proof.
  split.
  - apply (proj1 (addSource_failure_atomic 3 studio "S2" "mic" no_options "u1" (fresh_obs 9))).
    reflexivity.
  - apply (proj1 (proj2 (addSource_failure_atomic 3 studio "S2" "S1" no_options "u1"
                           (fresh_obs 9))) scene_S2).
    + reflexivity.
    + by eexists.
    + vm_compute. reflexivity.
Defined.

Lemma attributes_of_obs_default (o : ObsSceneItem) (m : ISceneItem) :
  obs_default o → locked m = false → default_state (attributes_of_obs o m).
Proof.
  intros (Hv & Hsx & Hsy & Hx & Hy & Hr & Hc) Hl.
  unfold default_state. simpl. by rewrite Hv, Hsx, Hsy, Hx, Hy, Hr, Hc, Hl.
Qed.

(** Two successful calls in a row: the second row lands before the first. *)
Lemma addSource_twice fuel1 fuel2 self a b optsa optsb ua ub oa ob st ha st1 hb st2 :
  addSource fuel1 self a optsa ua oa st = (Ret (Some ha), st1) →
  addSource fuel2 self b optsb ub ob st1 = (Ret (Some hb), st2) →
  ∃ this this2 sa sb ma mb,
    scenes st !! self = Some this ∧ scenes st2 !! self = Some this2 ∧
    getSource st a = Some sa ∧ getSource st b = Some sb ∧
    items this2 = Some mb :: Some ma :: items this ∧
    sceneItemId ma = si_sceneItemId ha ∧ sourceId ma = src_sourceId sa ∧
    sceneItemId mb = si_sceneItemId hb ∧ sourceId mb = src_sourceId sb.
Proof.
  intros Ha Hb.
  destruct (addSource_Some_inv _ _ _ _ _ _ _ _ _ Ha) as (this & sa & Hself & Hsa & Hca).
  rewrite (addSource_accepted _ _ _ _ _ _ _ _ _ Hself Hsa Hca) in Ha.
  injection Ha as <- <-.
  destruct (addSource_Some_inv _ _ _ _ _ _ _ _ _ Hb) as (this1 & sb & Hself1 & Hsb & Hcb).
  rewrite (addSource_accepted _ _ _ _ _ _ _ _ _ Hself1 Hsb Hcb) in Hb.
  injection Hb as <- <-.
  simpl in Hself1. rewrite lookup_insert_eq in Hself1. injection Hself1 as <-.
  eexists this, _, sa, sb, _, _. split; [done|]. split.
  { simpl. apply lookup_insert_eq. }
  simpl. done.
Qed.

(** C3: a successful [addSource] puts the new row at the front of [items].
    The row [ADD_SOURCE_TO_SCENE] inserts is visible, unlocked, of scale 1,
    at position (0,0), unrotated and uncropped; at the end of [addSource] the
    row carries the id chosen for it, is unlocked and shows the attributes
    read back from the backend item, the same defaults for a backend item
    that holds them.  Two successful calls, for "a" and then for "b", leave
    the rows in the order b, a. *)
Theorem addSource_front_default_row :
  (∀ this id srcId obsId,
     ∃ m, ADD_SOURCE_TO_SCENE id srcId obsId this
          = (Ret (), set_items (Some m :: items this) this) ∧
          sceneItemId m = id ∧ sourceId m = srcId ∧
          obsSceneItemId m = obsId ∧ default_state m) ∧
  (∀ fuel st self this srcId source options uniqueId obsSceneItem,
     scenes st !! self = Some this →
     getSource st srcId = Some source →
     canAddSource fuel st this srcId = Ret true →
     ∃ h st' this' m,
       addSource fuel self srcId options uniqueId obsSceneItem st = (Ret (Some h), st') ∧
       scenes st' !! self = Some this' ∧
       items this' = Some m :: items this ∧
       si_sceneItemId h = chosen_sceneItemId options uniqueId ∧
       sceneItemId m = chosen_sceneItemId options uniqueId ∧
       sourceId m = src_sourceId source ∧
       obsSceneItemId m = obs_id obsSceneItem ∧
       locked m = false ∧
       (obs_default obsSceneItem → default_state m)) ∧
  (∀ fuel1 fuel2 self a b optsa optsb ua ub oa ob st ha st1 hb st2,
     addSource fuel1 self a optsa ua oa st = (Ret (Some ha), st1) →
     addSource fuel2 self b optsb ub ob st1 = (Ret (Some hb), st2) →
     ∃ this this2 sa sb ma mb,
       scenes st !! self = Some this ∧ scenes st2 !! self = Some this2 ∧
       getSource st a = Some sa ∧ getSource st b = Some sb ∧
       items this2 = Some mb :: Some ma :: items this ∧
       sceneItemId ma = si_sceneItemId ha ∧ sourceId ma = src_sourceId sa ∧
       sceneItemId mb = si_sceneItemId hb ∧ sourceId mb = src_sourceId sb).
Proof.
  split; [|split].
  - intros this id srcId obsId. eexists. split; [reflexivity|].
    repeat split.
  - intros fuel st self this srcId source options uniqueId obsSceneItem Hself Hsrc Hcan.
    eexists _, _, _, _. split; [by apply (addSource_accepted _ _ this _ source)|].
    split; [apply lookup_insert_eq|]. simpl.
    repeat (split; [done|]).
    intros Ho. by apply attributes_of_obs_default.
  - apply addSource_twice.
Qed.

Lemma addSource_front_default_row_witness :
  ∃ h st' this' m,
    addSource 3 "S1" "cam1" (with_id "k1") "u1" (fresh_obs 9) studio = (Ret (Some h), st') ∧
    scenes st' !! "S1" = Some this' ∧
    items this' = Some m :: items scene_S1 ∧
    si_sceneItemId h = "k1" ∧
    sceneItemId m = "k1" ∧
    sourceId m = "cam1" ∧
    obsSceneItemId m = 9%Z ∧
    locked m = false ∧
    (obs_default (fresh_obs 9) → default_state m).
Proof.
  exact (proj1 (proj2 addSource_front_default_row) 3 studio "S1" scene_S1 "cam1"
           (a_source "cam1" "ffmpeg_source") (with_id "k1") "u1" (fresh_obs 9)
           eq_refl eq_refl eq_refl).
Defined.

(** ** Active items after addSource *)

(** C4, as stated, fails: in the studio, item i1 of S1 is active; after a
    camera is added to S1, i1 is not active any more. *)
Lemma addSource_drops_active_ids :
  ∃ h st' this',
    addSource 3 "S1" "cam1" no_options "u1" (fresh_obs 9) studio = (Ret (Some h), st') ∧
    scenes st' !! "S1" = Some this' ∧
    "i1" ∈ activeItemIds scene_S1 ∧
    "i1" ∉ activeItemIds this'.
Proof.
  eexists _, _, _. split.
  { by apply (addSource_accepted _ _ scene_S1 _ (a_source "cam1" "ffmpeg_source")). }
  split; [apply lookup_insert_eq|]. simpl. split.
  - apply list_elem_of_singleton. reflexivity.
  - rewrite list_elem_of_singleton. discriminate.
Qed.

(** C4, amended: a successful [addSource] makes the new item the one active
    item: afterwards [activeItemIds] holds the new id and nothing else, so
    an id that was active before the call is active after it only if it is
    the id of the new item. *)
Theorem addSource_new_item_only_active (fuel : nat) (st : Store) (self srcId : string)
    (this : IScene) (source : Source) (options : ISceneItemAddOptions)
    (uniqueId : string) (obsSceneItem : ObsSceneItem)
    (Hself : scenes st !! self = Some this)
    (Hsrc : getSource st srcId = Some source)
    (Hcan : canAddSource fuel st this srcId = Ret true) :
  ∃ h st' this',
    addSource fuel self srcId options uniqueId obsSceneItem st = (Ret (Some h), st') ∧
    scenes st' !! self = Some this' ∧
    activeItemIds this' = [si_sceneItemId h] ∧
    (∀ i, i ∈ activeItemIds this' ↔ i = si_sceneItemId h) ∧
    (∀ i, i ∈ activeItemIds this → i ≠ si_sceneItemId h → i ∉ activeItemIds this').
Proof.
  eexists _, _, _. split; [by apply (addSource_accepted _ _ this _ source)|].
  split; [apply lookup_insert_eq|]. simpl. split; [done|].
  split; [intros i; apply list_elem_of_singleton|].
  intros i _ Hne Hi. by apply list_elem_of_singleton in Hi.
Qed.

Lemma addSource_new_item_only_active_witness :
  ∃ h st' this',
    addSource 3 "S1" "cam1" no_options "u1" (fresh_obs 9) studio = (Ret (Some h), st') ∧
    scenes st' !! "S1" = Some this' ∧
    activeItemIds this' = [si_sceneItemId h] ∧
    (∀ i, i ∈ activeItemIds this' ↔ i = si_sceneItemId h) ∧
    (∀ i, i ∈ activeItemIds scene_S1 → i ≠ si_sceneItemId h → i ∉ activeItemIds this').
Proof.
  exact (addSource_new_item_only_active 3 studio "S1" "cam1" scene_S1
           (a_source "cam1" "ffmpeg_source") no_options "u1" (fresh_obs 9)
           eq_refl eq_refl eq_refl).
Defined.

(** ** removeItem *)

Lemma getItem_defined (this : IScene) (id : string) :
  items_defined this →
  getItem this id = Ret (new_SceneItem (scene_id this) <$> find_row id (rows_of (items this))).
Proof.
  intros Hd. unfold getItem. rewrite (defined_rows _ Hd) at 1.
  by rewrite find_model_Some.
Qed.

Lemma filterO_other_id (id : string) (rows : list ISceneItem) :
  filterO (other_id id) (Some <$> rows)
  = Ret (Some <$> filter (λ m, sceneItemId m ≠ id) rows).
Proof.
  induction rows as [|m rows IH]; csimpl; [done|].
  rewrite IH. simpl. rewrite filter_cons.
  destruct (decide (sceneItemId m ≠ id)) as [Hne|Heq].
  - by rewrite bool_decide_eq_true_2.
  - by rewrite bool_decide_eq_false_2.
Qed.

Lemma filter_absent (id : string) (l : list string) :
  id ∉ l → filter (λ i, i ≠ id) l = l.
Proof.
  induction l as [|i l IH]; [done|].
  rewrite not_elem_of_cons. intros [Hne Hl]. rewrite filter_cons.
  rewrite decide_True by congruence. by rewrite IH.
Qed.

Lemma REMOVE_SOURCE_FROM_SCENE_defined (id : string) (this : IScene) :
  items_defined this → REMOVE_SOURCE_FROM_SCENE id this = (Ret (), removed id this).
Proof.
  intros Hd. unfold REMOVE_SOURCE_FROM_SCENE, removed.
  case_decide as Hin; simpl.
  - rewrite (defined_rows _ Hd) at 1. by rewrite filterO_other_id.
  - rewrite (defined_rows _ Hd) at 1. rewrite filterO_other_id. simpl.
    unfold set_items. simpl. by rewrite filter_absent.
Qed.

Lemma filter_rows_absent (id : string) (rows : list ISceneItem) :
  id ∉ sceneItemId <$> rows → filter (λ m, sceneItemId m ≠ id) rows = rows.
Proof.
  induction rows as [|m rows IH]; csimpl; [done|].
  rewrite not_elem_of_cons. intros [Hne Hl]. rewrite filter_cons.
  rewrite decide_True by congruence. by rewrite IH.
Qed.

Lemma filter_unique_row (id : string) (rows : list ISceneItem) :
  NoDup (sceneItemId <$> rows) → id ∈ sceneItemId <$> rows →
  ∃ l1 m l2, rows = l1 ++ m :: l2 ∧ sceneItemId m = id ∧
             filter (λ m, sceneItemId m ≠ id) rows = l1 ++ l2.
Proof.
  induction rows as [|m rows IH]; csimpl; intros Hnd Hin.
  - by apply elem_of_nil in Hin.
  - apply NoDup_cons in Hnd as [Hm Hnd]. rewrite filter_cons.
    destruct (decide (sceneItemId m = id)) as [Heq|Hne].
    + exists [], m, rows. split; [done|]. split; [done|].
      rewrite decide_False by (intros Hc; by apply Hc).
      simpl. apply filter_rows_absent. by rewrite <- Heq.
    + apply elem_of_cons in Hin as [Heq|Hin]; [congruence|].
      destruct (IH Hnd Hin) as (l1 & m' & l2 & -> & Hid & Hf).
      exists (m :: l1), m', l2. split; [done|]. split; [done|].
      rewrite decide_True by done. by rewrite Hf.
Qed.

Lemma removeItem_missing (st : Store) (self id : string) (this : IScene) :
  scenes st !! self = Some this → items_defined this → id ∉ item_ids this →
  removeItem self id st = (Throw (not_found "SceneItem" id), st).
Proof.
  intros Hself Hd Hid. unfold removeItem, bindM, read. rewrite Hself.
  rewrite getItem_defined by done.
  apply find_row_None in Hid. by rewrite Hid.
Qed.

Lemma removeItem_present (st : Store) (self id : string) (this : IScene) :
  scenes st !! self = Some this → items_defined this → id ∈ item_ids this →
  removeItem self id st = (Ret (), set_scenes (<[self := removed id this]> (scenes st)) st).
Proof.
  intros Hself Hd Hid. unfold removeItem, bindM, read. rewrite Hself.
  rewrite getItem_defined by done.
  destruct (find_row_elem _ _ Hid) as [m Hm]. rewrite Hm. simpl.
  unfold commit. rewrite Hself. by rewrite REMOVE_SOURCE_FROM_SCENE_defined.
Qed.

(** C5, as stated, fails on an [items] array with an undefined slot and on
    one with an id twice.  In [holed], the studio after a [setSourceOrder]
    whose order names the unknown id "zz", scene S1 holds i1, an undefined
    slot and i3: [removeItem] of an id that no item carries throws a
    TypeError, not "SceneItem ... not found"; and [removeItem] of the item
    i1 takes i1 out of [activeItemIds] and then throws a TypeError, the row
    staying where it was.  In [doubled], the studio after an [addSource]
    under the id i1 that S1 uses already, [removeItem] of i1 deletes two
    records. *)
Lemma removeItem_undefined_slot_and_twin_rows :
  setSourceOrder "S1" "i1" 0 ["i1"; "zz"; "i3"] studio = (Ret (), holed) ∧
  scenes holed !! "S1" = Some scene_S1_holed ∧
  ("zz" ∉ item_ids scene_S1_holed) ∧
  removeItem "S1" "zz" holed = (Throw TypeError, holed) ∧
  (∃ st' this',
     removeItem "S1" "i1" holed = (Throw TypeError, st') ∧
     scenes st' !! "S1" = Some this' ∧
     activeItemIds scene_S1_holed = ["i1"] ∧ activeItemIds this' = [] ∧
     items this' = items scene_S1_holed) ∧
  (∃ h, addSource 3 "S1" "cam1" (with_id "i1") "u1" (fresh_obs 9) studio
        = (Ret (Some h), doubled)) ∧
  scenes doubled !! "S1" = Some scene_S1_doubled ∧
  item_ids scene_S1_doubled = ["i1"; "i1"; "i2"; "i3"] ∧
  (∃ st' this',
     removeItem "S1" "i1" doubled = (Ret (), st') ∧
     scenes st' !! "S1" = Some this' ∧
     item_ids this' = ["i2"; "i3"]).
Proof.
  split; [by vm_compute|].
  split; [by vm_compute|].
  split; [apply (bool_decide_unpack _); by vm_compute|].
  split; [by vm_compute|].
  split; [eexists _, _; by vm_compute|].
  split; [eexists; by vm_compute|].
  split; [by vm_compute|].
  split; [by vm_compute|].
  eexists _, _. by vm_compute.
Qed.

(** C5, amended: on a scene whose [items] array has no undefined slot and
    holds no item of that id, [removeItem] throws "SceneItem ... not found"
    and leaves the store as it was; on a scene whose [items] array has no
    undefined slot and holds an item of that id, it returns, the rows of
    other ids stay, in their order, every row of that id goes, and the id
    leaves [activeItemIds]; where ids are unique the row that goes is
    exactly one. *)
Theorem removeItem_spec (st : Store) (self id : string) (this : IScene)
    (Hself : scenes st !! self = Some this) (Hdef : items_defined this) :
  (id ∉ item_ids this →
   removeItem self id st
   = (Throw (Error (String.append "SceneItem " (String.append id " not found"))), st)) ∧
  (id ∈ item_ids this →
   ∃ this',
     removeItem self id st = (Ret (), set_scenes (<[self := this']> (scenes st)) st) ∧
     items_defined this' ∧
     rows_of (items this') = filter (λ m, sceneItemId m ≠ id) (rows_of (items this)) ∧
     (id ∉ item_ids this') ∧
     activeItemIds this' = filter (λ i, i ≠ id) (activeItemIds this) ∧
     (id ∉ activeItemIds this') ∧
     (id ∉ activeItemIds this → activeItemIds this' = activeItemIds this) ∧
     scene_id this' = scene_id this ∧ scene_name this' = scene_name this ∧
     (NoDup (item_ids this) →
      ∃ l1 m l2, rows_of (items this) = l1 ++ m :: l2 ∧ sceneItemId m = id ∧
                 rows_of (items this') = l1 ++ l2)).
Proof.
  split.
  - intros Hid. by apply (removeItem_missing st self id this).
  - intros Hid. exists (removed id this).
    split; [by apply removeItem_present|].
    split; [apply Forall_is_Some_fmap|].
    assert (Hrows : rows_of (items (removed id this))
                    = filter (λ m, sceneItemId m ≠ id) (rows_of (items this)))
      by apply rows_of_Some.
    split; [done|].
    split.
    { unfold item_ids. rewrite Hrows. rewrite list_elem_of_fmap.
      intros (m & -> & Hm). apply list_elem_of_filter in Hm as [Hm _]. by apply Hm. }
    split; [done|].
    split.
    { simpl. rewrite list_elem_of_filter. intros [Hne _]. by apply Hne. }
    split; [intros Hn; simpl; by apply filter_absent|].
    split; [done|]. split; [done|].
    intros Hnd. rewrite Hrows. by apply filter_unique_row.
Qed.

Lemma removeItem_spec_witness :
  removeItem "S1" "zz" studio = (Throw (Error "SceneItem zz not found"), studio) ∧
  ∃ this',
    removeItem "S1" "i1" studio
    = (Ret (), set_scenes (<["S1" := this']> (scenes studio)) studio) ∧
    item_ids this' = ["i2"; "i3"] ∧ activeItemIds this' = [].
Proof.
  assert (Hd : items_defined scene_S1) by (apply Forall_is_Some_fmap).
  split.
  - apply (proj1 (removeItem_spec studio "S1" "zz" scene_S1 eq_refl Hd)).
    vm_compute. intros H. repeat (inversion H as [|? ? ? H']; clear H; rename H' into H).
  - destruct (proj2 (removeItem_spec studio "S1" "i1" scene_S1 eq_refl Hd))
      as (this' & Hrm & _ & Hrows & _ & Hact & _).
    { vm_compute. left. }
    exists this'. split; [exact Hrm|]. split.
    + unfold item_ids. rewrite Hrows. reflexivity.
    + rewrite Hact. reflexivity.
Defined.

(** ** setSourceOrder *)

Lemma getItemIndex_from_defined (id : string) (rows : list ISceneItem) (i : nat) :
  ∃ z, getItemIndex_from id (Some <$> rows) i = Ret z.
Proof.
  revert i. induction rows as [|m rows IH]; intros i; csimpl; [eauto|].
  case_decide; eauto.
Qed.

Lemma SET_SOURCE_ORDER_defined (order : list string) (this : IScene) :
  items_defined this → SET_SOURCE_ORDER order this = (Ret (), reordered order this).
Proof.
  intros Hd. unfold SET_SOURCE_ORDER, reordered.
  rewrite (mapO_Ret_all _ (λ id, find_row id (rows_of (items this)))); [done|].
  intros id _. rewrite (defined_rows _ Hd) at 1. apply find_model_Some.
Qed.

Lemma setSourceOrder_defined (st : Store) (self id : string) (delta : Z)
    (order : list string) (this : IScene) :
  scenes st !! self = Some this → items_defined this →
  setSourceOrder self id delta order st
  = (Ret (), set_scenes (<[self := reordered order this]> (scenes st)) st).
Proof.
  intros Hself Hd. unfold setSourceOrder, bindM, read. rewrite Hself.
  unfold getItemIndex. rewrite (defined_rows _ Hd).
  destruct (getItemIndex_from_defined id (rows_of (items this)) 0) as [z ->].
  unfold commit. rewrite Hself.
  by rewrite SET_SOURCE_ORDER_defined.
Qed.

(** The slots [find] fills for ids that are all present. *)
Lemma find_rows_present (rows : list ISceneItem) (order : list string) :
  (∀ id, id ∈ order → id ∈ sceneItemId <$> rows) →
  ∃ rows', (λ id, find_row id rows) <$> order = Some <$> rows' ∧
           sceneItemId <$> rows' = order ∧
           ∀ m, m ∈ rows' → m ∈ rows.
Proof.
  induction order as [|id order IH]; intros Hin.
  - exists []. split; [done|]. split; [done|]. intros m Hm. by apply elem_of_nil in Hm.
  - destruct IH as (rows' & Hmap & Hids & Hsub).
    { intros i Hi. apply Hin. by right. }
    destruct (find_row_elem id rows) as [m Hm]; [apply Hin; left|].
    destruct (find_row_Some _ _ _ Hm) as [Hmin Hmid].
    exists (m :: rows'). csimpl. rewrite Hm, Hmap, Hids, Hmid.
    split; [done|]. split; [done|].
    intros m' [->|Hm']%elem_of_cons; auto.
Qed.

(** C6, as stated, fails on an [items] array with an undefined slot.  In
    [holed], the studio after a [setSourceOrder] whose order names the
    unknown id "zz", the ids in the items of S1 are i1 and i3; with the
    permutation i3, i1 of them [setSourceOrder] throws a TypeError, and the
    ids of [items] are i1 and i3 as before. *)
Lemma setSourceOrder_undefined_slot_throws :
  setSourceOrder "S1" "i1" 0 ["i1"; "zz"; "i3"] studio = (Ret (), holed) ∧
  scenes holed !! "S1" = Some scene_S1_holed ∧
  item_ids scene_S1_holed = ["i1"; "i3"] ∧
  ["i3"; "i1"] ≡ₚ item_ids scene_S1_holed ∧
  ∃ st' this',
    setSourceOrder "S1" "i1" 0 ["i3"; "i1"] holed = (Throw TypeError, st') ∧
    scenes st' !! "S1" = Some this' ∧
    item_ids this' = ["i1"; "i3"] ∧
    item_ids this' ≠ ["i3"; "i1"].
Proof.
  split; [by vm_compute|].
  split; [by vm_compute|].
  split; [by vm_compute|].
  split; [apply (perm_swap "i1" "i3" [])|].
  eexists _, _. by vm_compute.
Qed.

(** C6, amended: on a scene whose [items] array has no undefined slot, for
    [newOrder] a permutation of the ids in [items], [setSourceOrder] returns
    and the ids of [items], read in order, are [newOrder]; the rows are rows
    the scene held before. *)
Theorem setSourceOrder_round_trip (st : Store) (self sceneItemId : string)
    (positionDelta : Z) (newOrder : list string) (this : IScene)
    (Hself : scenes st !! self = Some this)
    (Hdef : items_defined this)
    (Hperm : newOrder ≡ₚ item_ids this) :
  ∃ this',
    setSourceOrder self sceneItemId positionDelta newOrder st
    = (Ret (), set_scenes (<[self := this']> (scenes st)) st) ∧
    items_defined this' ∧
    item_ids this' = newOrder ∧
    (∀ m, m ∈ rows_of (items this') → m ∈ rows_of (items this)) ∧
    activeItemIds this' = activeItemIds this.
Proof.
  exists (reordered newOrder this).
  split; [by apply setSourceOrder_defined|].
  destruct (find_rows_present (rows_of (items this)) newOrder) as (rows' & Hmap & Hids & Hsub).
  { intros id Hid. fold (item_ids this). by rewrite <- Hperm. }
  unfold item_ids, items_defined, reordered. simpl. rewrite Hmap.
  split; [apply Forall_is_Some_fmap|].
  rewrite rows_of_Some. done.
Qed.

Lemma setSourceOrder_round_trip_witness :
  ∃ this',
    setSourceOrder "S1" "i2" (-1) ["i2"; "i1"; "i3"] studio
    = (Ret (), set_scenes (<["S1" := this']> (scenes studio)) studio) ∧
    items_defined this' ∧
    item_ids this' = ["i2"; "i1"; "i3"] ∧
    (∀ m, m ∈ rows_of (items this') → m ∈ rows_of (items scene_S1)) ∧
    activeItemIds this' = activeItemIds scene_S1.
Proof.
  apply (setSourceOrder_round_trip studio "S1" "i2" (-1) ["i2"; "i1"; "i3"] scene_S1).
  - reflexivity.
  - apply Forall_is_Some_fmap.
  - exact (perm_swap "i1" "i2" ["i3"]).
Defined.

(** ** Reading the graph *)

Lemma shows_child_ids (st : Store) (this : IScene) (c : string) :
  shows st this c ↔ c ∈ child_ids st this.
Proof.
  unfold shows, child_ids. rewrite list_elem_of_fmap. split.
  - intros (m & source & Hm & <- & Hsrc & Hty). exists m. split; [done|].
    apply list_elem_of_filter. split; [|done].
    unfold is_scene_row. apply bool_decide_eq_true_2. rewrite Hsrc. simpl. by rewrite Hty.
  - intros (m & -> & Hm). apply list_elem_of_filter in Hm as [Hsc Hm].
    unfold is_scene_row in Hsc. apply bool_decide_eq_true_1 in Hsc.
    destruct (getSource st (sourceId m)) as [source|] eqn:Hsrc; [|done].
    exists m, source. injection Hsc as Hsc. done.
Qed.

Lemma getItems_defined (this : IScene) :
  items_defined this → NoDup (item_ids this) →
  getItems this
  = Ret ((λ m, Some (new_SceneItem (scene_id this) m)) <$> rows_of (items this)).
Proof.
  intros Hd Hnd. unfold getItems.
  rewrite (mapO_Ret_all _ (fmap (new_SceneItem (scene_id this)))).
  - rewrite (defined_rows _ Hd) at 1. by rewrite <- list_fmap_compose.
  - intros s Hs. rewrite (defined_rows _ Hd) in Hs.
    apply list_elem_of_fmap in Hs as (m & -> & Hm).
    rewrite getItem_defined by done. by rewrite find_row_NoDup.
Qed.

Lemma filterO_scene_rows (st : Store) (sceneId : string) (rows : list ISceneItem) :
  filterO (type_is_scene st) ((λ m, Some (new_SceneItem sceneId m)) <$> rows)
  = Ret ((λ m, Some (new_SceneItem sceneId m))
           <$> filter (λ m, is_scene_row st m = true) rows).
Proof.
  induction rows as [|m rows IH]; csimpl; [done|].
  rewrite IH. simpl. rewrite filter_cons.
  change (is_scene_item st (new_SceneItem sceneId m)) with (is_scene_row st m).
  destruct (is_scene_row st m); by case_decide.
Qed.

Lemma mapO_scene_of_item (st : Store) (sceneId : string) (rows : list ISceneItem) :
  mapO (scene_of_item st) ((λ m, Some (new_SceneItem sceneId m)) <$> rows)
  = Ret (getScene st <$> (sourceId <$> rows)).
Proof. induction rows as [|m rows IH]; csimpl; [done|]. by rewrite IH. Qed.

Lemma childScenes_defined (st : Store) (this : IScene) :
  items_defined this → NoDup (item_ids this) →
  childScenes st this = Ret (getScene st <$> child_ids st this).
Proof.
  intros Hd Hnd. unfold childScenes. rewrite getItems_defined by done. simpl.
  rewrite filterO_scene_rows. simpl. apply mapO_scene_of_item.
Qed.

(** The loop of [hasNestedScene] over children that are all registered and on
    which the recursive call returns. *)
Lemma any_child_spec (st : Store) (rec : IScene → outcome bool) (x : string)
    (P : string → Prop) (cs : list string) :
  (∀ c, c ∈ cs →
        ∃ sc b, scenes st !! c = Some sc ∧ scene_id sc = c ∧
                rec sc = Ret b ∧ (b = true ↔ P c)) →
  ∃ r, any_child rec x (getScene st <$> cs) = Ret r ∧
       (r = true ↔ ∃ c, c ∈ cs ∧ (c = x ∨ P c)).
Proof.
  induction cs as [|c cs IH]; intros Hcs; csimpl.
  - exists false. split; [done|]. split; [done|].
    intros (c & Hc & _). by apply elem_of_nil in Hc.
  - destruct (Hcs c) as (sc & b & Hsc & Hid & Hrec & Hb); [left|].
    unfold getScene at 1. rewrite Hsc, Hid.
    destruct (decide (c = x)) as [->|Hne].
    { exists true. split; [done|]. split; [|done]. intros _. exists x. split; [left|by left]. }
    rewrite Hrec. simpl. destruct b.
    { exists true. split; [done|]. split; [|done]. intros _. exists c.
      split; [left|]. right. by apply Hb. }
    destruct IH as (r & Hr & Hiff); [intros c' Hc'; apply Hcs; by right|].
    exists r. split; [done|]. rewrite Hiff. split.
    + intros (c' & Hc' & HP). exists c'. split; [by right|done].
    + intros (c' & [->|Hc']%elem_of_cons & HP); [|by exists c'].
      destruct HP as [?|HP]; [done|]. apply Hb in HP. done.
Qed.

(** ** Bounded depth of an acyclic graph *)

Lemma on_path_nil (st : Store) (this : IScene) : on_path st [] this.
Proof.
  split; [constructor|]. split; intros k; [|intros c]; intros Hk; by apply elem_of_nil in Hk.
Qed.

Lemma on_path_length (st : Store) (anc : list string) (this : IScene) :
  on_path st anc this → (length anc ≤ size (scenes st))%nat.
Proof.
  intros (Hnd & Hdom & _).
  rewrite <- size_dom. unfold size, set_size. simpl.
  apply submseteq_length, NoDup_submseteq; [done|].
  intros k Hk. apply elem_of_elements, elem_of_dom. by apply Hdom.
Qed.

Lemma on_path_step (st : Store) (anc : list string) (this : IScene) (c : string) :
  well_formed st → on_path st anc this → c ∈ child_ids st this →
  ∃ sc, scenes st !! c = Some sc ∧ scene_id sc = c ∧ on_path st (c :: anc) sc.
Proof.
  intros Hwf (Hnd & Hdom & Hreach) Hc. apply shows_child_ids in Hc.
  destruct Hc as (m & source & Hm & Hmc & Hsrc & Hty).
  destruct (wf_scene_sources st Hwf c source Hsrc Hty) as [sc Hsc].
  exists sc. split; [done|]. split; [by apply (wf_scene_keys st Hwf)|].
  assert (Hshow : shows st this c) by (by exists m, source).
  split; [|split].
  - apply NoDup_cons. split; [|done].
    intros Hin. by apply (wf_acyclic st Hwf c), Hreach.
  - intros k [->|Hk]%elem_of_cons; [by eexists | by apply Hdom].
  - intros k d [->|Hk]%elem_of_cons Hd.
    + apply tc_once. by exists sc.
    + eapply tc_r; [by apply Hreach|]. by exists sc.
Qed.

Lemma contains_nested (st : Store) (c x : string) (sc : IScene) :
  scenes st !! c = Some sc → contains st sc x ↔ nested st c x.
Proof.
  intros Hsc. unfold contains, nested. split.
  - intros (d & Hd & [->|Hdx]).
    + apply tc_once. by exists sc.
    + eapply tc_l; [|done]. by exists sc.
  - intros Htc. inversion Htc as [? ? Hch|? d ? Hch Hdx]; subst.
    + destruct Hch as (sc' & Hsc' & Hshow). rewrite Hsc in Hsc'. injection Hsc' as <-.
      exists x. split; [done|by left].
    + destruct Hch as (sc' & Hsc' & Hshow). rewrite Hsc in Hsc'. injection Hsc' as <-.
      exists d. split; [done|by right].
Qed.

(** ** hasNestedScene *)

Lemma hasNestedScene_on_path (st : Store) (Hwf : well_formed st) (x : string) :
  ∀ fuel anc k this,
    scenes st !! k = Some this → on_path st anc this →
    (size (scenes st) < fuel + length anc)%nat →
    ∃ b, hasNestedScene fuel st this x = Ret b ∧ (b = true ↔ contains st this x).
Proof.
  induction fuel as [|fuel IH]; intros anc k this Hk Hpath Hfuel.
  - apply on_path_length in Hpath. simpl in Hfuel. lia.
  - simpl. rewrite childScenes_defined
      by (by eapply wf_items_defined || by eapply wf_ids_unique).
    simpl.
    destruct (any_child_spec st (λ c, hasNestedScene fuel st c x) x
                (λ c, nested st c x) (child_ids st this)) as (r & Hr & Hiff).
    { intros c Hc.
      destruct (on_path_step st anc this c Hwf Hpath Hc) as (sc & Hsc & Hid & Hpath').
      destruct (IH (c :: anc) c sc Hsc Hpath') as (b & Hb & Hbiff); [simpl; lia|].
      exists sc, b. split; [done|]. split; [done|]. split; [done|].
      rewrite Hbiff. by apply contains_nested. }
    exists r. split; [done|]. rewrite Hiff. unfold contains.
    split; intros (c & Hc & Hx); exists c; (split; [by apply shows_child_ids|done]).
Qed.

Lemma hasNestedScene_acyclic (st : Store) (self : string) (this : IScene)
    (sceneId : string) (fuel : nat) :
  well_formed st → scenes st !! self = Some this → (size (scenes st) < fuel)%nat →
  ∃ b, hasNestedScene fuel st this sceneId = Ret b ∧ (b = true ↔ contains st this sceneId).
Proof.
  intros Hwf Hself Hfuel.
  apply (hasNestedScene_on_path st Hwf sceneId fuel [] self this Hself (on_path_nil st this)).
  simpl. lia.
Qed.

(** The self-referencing store: the loop exists and the search for a scene
    that is not there never comes back from it. *)
Lemma looped_is_cyclic : nested looped "L" "L".
Proof.
  apply tc_once. exists scene_L. split; [reflexivity|].
  exists (new_row "l1" "L" 1), (a_source "L" "scene").
  split; [left|]. by repeat split.
Qed.

Lemma hasNestedScene_looped (fuel : nat) :
  hasNestedScene fuel looped scene_L "X" = OutOfFuel.
Proof.
  induction fuel as [|fuel IH]; [done|].
  change (hasNestedScene (S fuel) looped scene_L "X")
    with (let* cs := childScenes looped scene_L in
          any_child (λ c, hasNestedScene fuel looped c "X") "X" cs).
  replace (childScenes looped scene_L) with (Ret [Some scene_L]) by (by vm_compute).
  simpl. by rewrite IH.
Qed.

(** C8, as stated, fails: on a store whose graph has a cycle the search for a
    scene that is not nested in it exhausts every recursion budget. *)
Lemma hasNestedScene_diverges_on_cycle :
  nested looped "L" "L" ∧
  ¬ ∃ fuel b, hasNestedScene fuel looped scene_L "X" = Ret b.
Proof.
  split; [apply looped_is_cyclic|].
  intros (fuel & b & H). by rewrite hasNestedScene_looped in H.
Qed.

(** C8, amended: on a well-formed store, whose graph is acyclic,
    [hasNestedScene] returns, with every recursion budget above the number
    of registered scenes, and it returns true exactly when [sceneId] is a
    child scene of this scene or is nested within one. *)
Theorem hasNestedScene_terminates_acyclic (st : Store) (self : string) (this : IScene)
    (sceneId : string)
    (Hwf : well_formed st) (Hself : scenes st !! self = Some this) :
  ∃ b,
    (∀ fuel, (size (scenes st) < fuel)%nat → hasNestedScene fuel st this sceneId = Ret b) ∧
    (b = true ↔ contains st this sceneId).
Proof.
  destruct (hasNestedScene_acyclic st self this sceneId (S (size (scenes st))) Hwf Hself)
    as (b & _ & Hb); [lia|].
  exists b. split; [|done].
  intros fuel Hfuel.
  destruct (hasNestedScene_acyclic st self this sceneId fuel Hwf Hself Hfuel)
    as (b' & -> & Hb').
  f_equal. destruct b, b'; try done.
  - by apply Hb', Hb.
  - symmetry. by apply Hb, Hb'.
Qed.

(** ** The studio is well formed *)

Lemma ranked_acyclic (st : Store) (rank : string → nat) :
  (∀ a b, child st a b → (rank b < rank a)%nat) → acyclic st.
Proof.
  intros Hrank.
  assert (Htc : ∀ a b, nested st a b → (rank b < rank a)%nat).
  { intros a b Hab. induction Hab as [a b Hab|a b c Hab _ IH].
    - by apply Hrank.
    - apply Hrank in Hab. lia. }
  intros a Ha. apply Htc in Ha. lia.
Qed.

Lemma studio_scenes (k : string) (s : IScene) :
  scenes studio !! k = Some s →
  (k = "S1" ∧ s = scene_S1) ∨ (k = "S2" ∧ s = scene_S2).
Proof.
  unfold studio. simpl. intros H.
  apply lookup_insert_Some in H as [[<- <-]|[_ H]]; [by left|].
  apply lookup_insert_Some in H as [[<- <-]|[_ H]]; [by right|].
  by rewrite lookup_empty in H.
Qed.

Lemma studio_sources (k : string) (src : Source) :
  sources studio !! k = Some src →
  (k = "cam1" ∧ src = a_source "cam1" "ffmpeg_source") ∨
  (k = "S1" ∧ src = a_source "S1" "scene") ∨
  (k = "S2" ∧ src = a_source "S2" "scene").
Proof.
  unfold studio. simpl. intros H.
  apply lookup_insert_Some in H as [[<- <-]|[_ H]]; [by left|].
  apply lookup_insert_Some in H as [[<- <-]|[_ H]]; [by right; left|].
  apply lookup_insert_Some in H as [[<- <-]|[_ H]]; [by right; right|].
  by rewrite lookup_empty in H.
Qed.

Lemma studio_child (a b : string) : child studio a b → a = "S1" ∧ b = "S2".
Proof.
  intros (this & Hthis & Hshow). apply shows_child_ids in Hshow.
  apply studio_scenes in Hthis as [[-> ->]|[-> ->]].
  - replace (child_ids studio scene_S1) with ["S2"; "S2"] in Hshow by (by vm_compute).
    apply elem_of_cons in Hshow as [->|Hshow]; [done|].
    apply list_elem_of_singleton in Hshow as ->. done.
  - replace (child_ids studio scene_S2) with (@nil string) in Hshow by (by vm_compute).
    by apply elem_of_nil in Hshow.
Qed.

Lemma studio_well_formed : well_formed studio.
Proof.
  split.
  - by intros k s [[-> ->]|[-> ->]]%studio_scenes.
  - by intros k src [[-> ->]|[[-> ->]|[-> ->]]]%studio_sources.
  - intros k src [[-> ->]|[[-> ->]|[-> ->]]]%studio_sources Hty; [done| |]; by eexists.
  - intros k s [[-> ->]|[-> ->]]%studio_scenes; by eexists.
  - intros k s [[-> ->]|[-> ->]]%studio_scenes; apply Forall_is_Some_fmap.
  - intros k s [[-> ->]|[-> ->]]%studio_scenes;
      apply (bool_decide_unpack _); by vm_compute.
  - apply (ranked_acyclic studio (λ k, if decide (k = "S1") then 1 else 0)).
    intros a b [-> ->]%studio_child. simpl. lia.
Qed.

Lemma hasNestedScene_terminates_acyclic_witness :
  ∃ b,
    (∀ fuel, (size (scenes studio) < fuel)%nat →
             hasNestedScene fuel studio scene_S1 "S2" = Ret b) ∧
    (b = true ↔ contains studio scene_S1 "S2").
Proof.
  exact (hasNestedScene_terminates_acyclic studio "S1" scene_S1 "S2"
           studio_well_formed eq_refl).
Defined.

(** ** canAddSource *)

Lemma canAddSource_non_scene (fuel : nat) (st : Store) (this : IScene)
    (srcId : string) (source : Source) :
  getSource st srcId = Some source → src_type source ≠ "scene" →
  canAddSource fuel st this srcId = Ret true.
Proof.
  intros Hsrc Hty. unfold canAddSource. rewrite Hsrc. by rewrite decide_True.
Qed.

Lemma canAddSource_scene (fuel : nat) (st : Store) (self : string) (this : IScene)
    (srcId : string) (source : Source) :
  well_formed st → scenes st !! self = Some this →
  getSource st srcId = Some source → src_type source = "scene" →
  (size (scenes st) < fuel)%nat →
  ∃ b, canAddSource fuel st this srcId = Ret b ∧
       (b = false ↔ srcId = self ∨ nested st srcId self).
Proof.
  intros Hwf Hself Hsrc Hty Hfuel. unfold canAddSource. rewrite Hsrc.
  rewrite decide_False by (intros Hne; by apply Hne).
  rewrite (wf_scene_keys st Hwf self this Hself).
  rewrite (wf_source_keys st Hwf srcId source Hsrc).
  destruct (decide (self = srcId)) as [<-|Hne].
  { exists false. split; [done|]. split; [by left|done]. }
  destruct (wf_scene_sources st Hwf srcId source Hsrc Hty) as [sceneToAdd Hadd].
  unfold getScene. rewrite Hadd.
  destruct (hasNestedScene_acyclic st srcId sceneToAdd self fuel Hwf Hadd Hfuel)
    as (n & -> & Hn).
  simpl. exists (negb n). split; [done|].
  rewrite <- (contains_nested st srcId self sceneToAdd Hadd), <- Hn.
  destruct n; simpl; split; try done.
  - by right.
  - intros [?|?]; [congruence|done].
Qed.

Lemma canAddSource_self (fuel : nat) (st : Store) (self : string) (this : IScene) :
  well_formed st → scenes st !! self = Some this →
  canAddSource fuel st this (scene_id this) = Ret false.
Proof.
  intros Hwf Hself.
  rewrite (wf_scene_keys st Hwf self this Hself).
  destruct (wf_scenes_registered st Hwf self this Hself) as (src & Hsrc & Hty).
  unfold canAddSource, getSource. rewrite Hsrc.
  rewrite decide_False by (intros Hne; by apply Hne).
  rewrite (wf_scene_keys st Hwf self this Hself).
  rewrite (wf_source_keys st Hwf self src Hsrc).
  by rewrite decide_True.
Qed.

(** ** A second row under an id in use

    [getItems] looks every row up again by its id, and [find] answers the
    first row of that id: a row under an id that an earlier row carries is
    never seen by [hasNestedScene] and [getNestedItems]. *)

Lemma duo_scenes (k : string) (s : IScene) :
  scenes duo !! k = Some s →
  (k = "A" ∧ s = scene_A) ∨ (k = "B" ∧ s = scene_B).
Proof.
  unfold duo. simpl. intros H.
  apply lookup_insert_Some in H as [[<- <-]|[_ H]]; [by left|].
  apply lookup_insert_Some in H as [[<- <-]|[_ H]]; [by right|].
  by rewrite lookup_empty in H.
Qed.

Lemma duo_sources (k : string) (src : Source) :
  sources duo !! k = Some src →
  (k = "cam" ∧ src = a_source "cam" "ffmpeg_source") ∨
  (k = "A" ∧ src = a_source "A" "scene") ∨
  (k = "B" ∧ src = a_source "B" "scene").
Proof.
  unfold duo. simpl. intros H.
  apply lookup_insert_Some in H as [[<- <-]|[_ H]]; [by left|].
  apply lookup_insert_Some in H as [[<- <-]|[_ H]]; [by right; left|].
  apply lookup_insert_Some in H as [[<- <-]|[_ H]]; [by right; right|].
  by rewrite lookup_empty in H.
Qed.

Lemma duo_child (a b : string) : ¬ child duo a b.
Proof.
  intros (this & Hthis & Hshow). apply shows_child_ids in Hshow.
  apply duo_scenes in Hthis as [[-> ->]|[-> ->]].
  - replace (child_ids duo scene_A) with (@nil string) in Hshow by (by vm_compute).
    by apply elem_of_nil in Hshow.
  - replace (child_ids duo scene_B) with (@nil string) in Hshow by (by vm_compute).
    by apply elem_of_nil in Hshow.
Qed.

Lemma duo_well_formed : well_formed duo.
Proof.
  split.
  - by intros k s [[-> ->]|[-> ->]]%duo_scenes.
  - by intros k src [[-> ->]|[[-> ->]|[-> ->]]]%duo_sources.
  - intros k src [[-> ->]|[[-> ->]|[-> ->]]]%duo_sources Hty; [done| |]; by eexists.
  - intros k s [[-> ->]|[-> ->]]%duo_scenes; by eexists.
  - intros k s [[-> ->]|[-> ->]]%duo_scenes; apply Forall_is_Some_fmap.
  - intros k s [[-> ->]|[-> ->]]%duo_scenes;
      apply (bool_decide_unpack _); by vm_compute.
  - apply (ranked_acyclic duo (λ _, 0%nat)).
    intros a b Hab. by apply duo_child in Hab.
Qed.

(** The three calls, each of which answers an item. *)
Lemma duo_1_run :
  addSource 3 "B" "A" (with_id "a") "u1" (fresh_obs 2) duo
  = (Ret (Some {| si_sceneId := "B"; si_sceneItemId := "a"; si_sourceId := "A" |}), duo_1).
Proof. by vm_compute. Qed.

Lemma duo_2_run :
  addSource 3 "B" "cam" (with_id "a") "u2" (fresh_obs 3) duo_1
  = (Ret (Some {| si_sceneId := "B"; si_sceneItemId := "a"; si_sourceId := "cam" |}), duo_2).
Proof. by vm_compute. Qed.

Lemma duo_3_run :
  addSource 3 "A" "B" (with_id "x") "u3" (fresh_obs 4) duo_2
  = (Ret (Some {| si_sceneId := "A"; si_sceneItemId := "x"; si_sourceId := "B" |}), duo_3).
Proof. by vm_compute. Qed.

Lemma duo_2_store : duo_2 = set_scenes (<["B" := scene_B2]> (scenes duo)) duo.
Proof. by vm_compute. Qed.

Lemma duo_2_scenes (k : string) (s : IScene) :
  scenes duo_2 !! k = Some s →
  (k = "A" ∧ s = scene_A) ∨ (k = "B" ∧ s = scene_B2).
Proof.
  rewrite duo_2_store. simpl. intros H.
  apply lookup_insert_Some in H as [[<- <-]|[Hne H]]; [by right|].
  apply duo_scenes in H as [[-> ->]|[-> ->]]; [by left|done].
Qed.

Lemma duo_2_child (a b : string) : child duo_2 a b → a = "B" ∧ b = "A".
Proof.
  intros (this & Hthis & Hshow). apply shows_child_ids in Hshow.
  apply duo_2_scenes in Hthis as [[-> ->]|[-> ->]].
  - replace (child_ids duo_2 scene_A) with (@nil string) in Hshow by (by vm_compute).
    by apply elem_of_nil in Hshow.
  - replace (child_ids duo_2 scene_B2) with ["A"] in Hshow by (by vm_compute).
    by apply list_elem_of_singleton in Hshow as ->.
Qed.

Lemma duo_2_acyclic : acyclic duo_2.
Proof.
  apply (ranked_acyclic duo_2 (λ k, if decide (k = "B") then 1 else 0)%nat).
  intros a b [-> ->]%duo_2_child. simpl. lia.
Qed.

Lemma duo_2_nested : nested duo_2 "B" "A".
Proof.
  apply tc_once. exists scene_B2. split; [by vm_compute|].
  apply shows_child_ids. replace (child_ids duo_2 scene_B2) with ["A"] by (by vm_compute).
  left.
Qed.

Lemma duo_3_cycle : nested duo_3 "A" "A".
Proof.
  apply (tc_l _ "A" "B" "A"); [|apply tc_once].
  - exists scene_A3. split; [by vm_compute|].
    apply shows_child_ids. replace (child_ids duo_3 scene_A3) with ["B"] by (by vm_compute).
    left.
  - exists scene_B2. split; [by vm_compute|].
    apply shows_child_ids. replace (child_ids duo_3 scene_B2) with ["A"] by (by vm_compute).
    left.
Qed.

(** C1, as stated, fails: two scenes A and B and a camera make a well-formed
    store.  B adds A under the id "a", then the camera under the same id;
    both calls answer an item, and B holds the rows a→cam and a→A.  B contains
    A, and yet [canAddSource] on A accepts B: the children of B are read
    through [getItems], which answers the camera for both rows.  The call of
    [addSource] that follows nests A within itself. *)
Lemma canAddSource_accepts_a_containing_scene :
  well_formed duo ∧
  (∃ h, addSource 3 "B" "A" (with_id "a") "u1" (fresh_obs 2) duo = (Ret (Some h), duo_1)) ∧
  (∃ h, addSource 3 "B" "cam" (with_id "a") "u2" (fresh_obs 3) duo_1
        = (Ret (Some h), duo_2)) ∧
  scenes duo_2 !! "A" = Some scene_A ∧
  (∃ source, getSource duo_2 "B" = Some source ∧ src_type source = "scene") ∧
  "B" ≠ "A" ∧ nested duo_2 "B" "A" ∧
  (∀ fuel, canAddSource (S fuel) duo_2 scene_A "B" = Ret true) ∧
  (∃ h, addSource 3 "A" "B" (with_id "x") "u3" (fresh_obs 4) duo_2 = (Ret (Some h), duo_3)) ∧
  nested duo_3 "A" "A".
Proof.
  split; [apply duo_well_formed|].
  split; [eexists; apply duo_1_run|].
  split; [eexists; apply duo_2_run|].
  split; [by vm_compute|].
  split; [by exists (a_source "B" "scene")|].
  split; [done|].
  split; [apply duo_2_nested|].
  split; [intros fuel; by vm_compute|].
  split; [eexists; apply duo_3_run|].
  apply duo_3_cycle.
Qed.

(** C1, amended: a source that resolves and is not of type "scene" can
    always be added, in any store.  In a well-formed store (records under
    their own ids, the scenes and the sources of type "scene" being the
    same, no undefined slot in an [items] array, no id twice within one,
    and an acyclic graph) a source of type "scene" is refused exactly when
    it is this scene or a scene that contains this scene, directly or
    through other scenes, and accepted otherwise; a scene never accepts
    itself. *)
Theorem canAddSource_enforces_acyclicity (st : Store) :
  (∀ fuel this srcId source,
     getSource st srcId = Some source → src_type source ≠ "scene" →
     canAddSource fuel st this srcId = Ret true) ∧
  (well_formed st →
   (∀ self this srcId source,
      scenes st !! self = Some this →
      getSource st srcId = Some source → src_type source = "scene" →
      ∃ b, (∀ fuel, (size (scenes st) < fuel)%nat →
                    canAddSource fuel st this srcId = Ret b) ∧
           (b = false ↔ srcId = self ∨ nested st srcId self)) ∧
   (∀ fuel self this,
      scenes st !! self = Some this →
      canAddSource fuel st this (scene_id this) = Ret false)).
Proof.
  split; [intros; by eapply canAddSource_non_scene|].
  intros Hwf. split.
  - intros self this srcId source Hself Hsrc Hty.
    destruct (canAddSource_scene (S (size (scenes st))) st self this srcId source)
      as (b & _ & Hb); [done..|lia|].
    exists b. split; [|done]. intros fuel Hfuel.
    destruct (canAddSource_scene fuel st self this srcId source)
      as (b' & -> & Hb'); [done..|].
    f_equal. destruct b, b'; try done.
    + symmetry. by apply Hb, Hb'.
    + by apply Hb', Hb.
  - intros fuel self this Hself. by eapply canAddSource_self.
Qed.

Lemma canAddSource_enforces_acyclicity_witness :
  canAddSource 3 studio scene_S1 "cam1" = Ret true ∧
  (∃ b, (∀ fuel, (size (scenes studio) < fuel)%nat →
                 canAddSource fuel studio scene_S2 "S1" = Ret b) ∧
        (b = false ↔ "S1" = "S2" ∨ nested studio "S1" "S2")) ∧
  canAddSource 3 studio scene_S1 (scene_id scene_S1) = Ret false.
Proof.
  destruct (canAddSource_enforces_acyclicity studio) as [Hnon Hscene].
  destruct (Hscene studio_well_formed) as [Hiff Hselfless].
  split; [|split].
  - apply (Hnon 3 scene_S1 "cam1" (a_source "cam1" "ffmpeg_source")); [reflexivity|discriminate].
  - apply (Hiff "S2" scene_S2 "S1" (a_source "S1" "scene")); reflexivity.
  - apply (Hselfless 3 "S1" scene_S1). reflexivity.
Defined.

(** ** The check on a store that has a cycle *)

Lemma hasNestedScene_studio_self (fuel : nat) :
  hasNestedScene fuel studio_self scene_S1_self "S2" = OutOfFuel.
Proof.
  induction fuel as [|fuel IH]; [done|].
  change (hasNestedScene (S fuel) studio_self scene_S1_self "S2")
    with (let* cs := childScenes studio_self scene_S1_self in
          any_child (λ c, hasNestedScene fuel studio_self c "S2") "S2" cs).
  replace (childScenes studio_self scene_S1_self)
    with (Ret [Some scene_S1_self; Some scene_S2; Some scene_S2]) by (by vm_compute).
  simpl. by rewrite IH.
Qed.

(** After one call of [addSources] that restores in S1 an entry showing S1,
    S1 contains S2 and itself, and [canAddSource] on S2 gives no answer for
    S1: the search for S2 below S1 enters S1 again before it looks at S2,
    whatever the budget. *)
Example canAddSource_no_answer_on_cycle :
  addSources "S1" [an_entry "e1" "S1"] [7%Z] studio = (Ret (), studio_self) ∧
  scenes studio_self !! "S1" = Some scene_S1_self ∧
  scenes studio_self !! "S2" = Some scene_S2 ∧
  nested studio_self "S1" "S1" ∧
  ∀ fuel, canAddSource fuel studio_self scene_S2 "S1" = OutOfFuel.
Proof.
  split; [by vm_compute|]. split; [by vm_compute|]. split; [by vm_compute|].
  split.
  { apply tc_once. exists scene_S1_self. split; [by vm_compute|].
    apply shows_child_ids.
    replace (child_ids studio_self scene_S1_self) with ["S1"; "S2"; "S2"] by (by vm_compute).
    left. }
  intros fuel.
  change (canAddSource fuel studio_self scene_S2 "S1")
    with (let* n := hasNestedScene fuel studio_self scene_S1_self "S2" in Ret (negb n)).
  by rewrite hasNestedScene_studio_self.
Qed.

(** ** uniqBy *)

Section uniqBy.
Context {A K : Type} `{EqDecision K} (key : A → K).

Lemma uniqBy_from_ext (s1 s2 : list K) (l : list A) :
  (∀ k, k ∈ s1 ↔ k ∈ s2) → uniqBy_from key s1 l = uniqBy_from key s2 l.
Proof.
  revert s1 s2. induction l as [|a l IH]; intros s1 s2 Hs; simpl; [done|].
  destruct (decide (key a ∈ s1)) as [H1|H1]; destruct (decide (key a ∈ s2)) as [H2|H2].
  - by apply IH.
  - by apply Hs in H1.
  - by apply Hs in H2.
  - f_equal. apply IH. intros k. rewrite !elem_of_cons. by rewrite Hs.
Qed.

Lemma uniqBy_from_app (s : list K) (l1 l2 : list A) :
  uniqBy_from key s (l1 ++ l2)
  = uniqBy_from key s l1 ++ uniqBy_from key ((key <$> l1) ++ s) l2.
Proof.
  revert s. induction l1 as [|a l1 IH]; intros s; csimpl; [done|].
  case_decide as Ha.
  - rewrite IH. f_equal. apply uniqBy_from_ext. intros k.
    rewrite elem_of_cons. split; [by right|]. by intros [->|?]; [apply elem_of_app; right|].
  - rewrite IH. simpl. f_equal. f_equal. apply uniqBy_from_ext. intros k.
    rewrite !elem_of_app, !elem_of_cons, elem_of_app. tauto.
Qed.

Lemma uniqBy_from_keys (s : list K) (l : list A) (k : K) :
  k ∈ key <$> uniqBy_from key s l ↔ k ∈ key <$> l ∧ k ∉ s.
Proof.
  revert s. induction l as [|a l IH]; intros s; csimpl.
  - split; [by intros ?%elem_of_nil|by intros [?%elem_of_nil _]].
  - case_decide as Ha; csimpl.
    + rewrite IH, elem_of_cons. split; [tauto|].
      intros [[->|?] ?]; [done|tauto].
    + rewrite !elem_of_cons, IH, not_elem_of_cons. split.
      * intros [->|(? & ? & ?)]; (split; [|done]); [by left|by right].
      * intros [[->|?] ?]; [by left|].
        destruct (decide (k = key a)) as [->|]; [by left|by right].
Qed.

Lemma uniqBy_from_elem (s : list K) (l : list A) (a : A) :
  a ∈ uniqBy_from key s l → a ∈ l.
Proof.
  revert s. induction l as [|a' l IH]; intros s; simpl; [done|].
  case_decide.
  - intros ?%IH. by right.
  - intros [->|?%IH]%elem_of_cons; [left|by right].
Qed.

Lemma uniqBy_from_NoDup (s : list K) (l : list A) :
  NoDup (key <$> uniqBy_from key s l).
Proof.
  revert s. induction l as [|a l IH]; intros s; csimpl; [constructor|].
  case_decide as Ha; [apply IH|]. csimpl. apply NoDup_cons. split; [|apply IH].
  rewrite uniqBy_from_keys, not_elem_of_cons. tauto.
Qed.

Lemma uniqBy_from_idem (s s' : list K) (l : list A) :
  (∀ k, k ∈ s' → k ∈ s) →
  uniqBy_from key s (uniqBy_from key s' l) = uniqBy_from key s l.
Proof.
  revert s s'. induction l as [|a l IH]; intros s s' Hs; simpl; [done|].
  destruct (decide (key a ∈ s')) as [H'|H'].
  - rewrite decide_True by auto. by apply IH.
  - simpl. case_decide as Ha.
    + apply IH. intros k [->|?]%elem_of_cons; auto.
    + f_equal. apply IH. intros k. rewrite !elem_of_cons. intros [?|?]; auto.
Qed.

Lemma uniqBy_from_concat (s : list K) (ls : list (list A)) :
  uniqBy_from key s (concat (uniqBy key <$> ls)) = uniqBy_from key s (concat ls).
Proof.
  revert s. induction ls as [|l ls IH]; intros s; csimpl; [done|].
  rewrite !uniqBy_from_app. unfold uniqBy at 1.
  rewrite uniqBy_from_idem by (by intros k ?%elem_of_nil).
  f_equal. rewrite IH. apply uniqBy_from_ext. intros k.
  rewrite !elem_of_app. unfold uniqBy. rewrite uniqBy_from_keys.
  split; [tauto|]. intros [?|?]; [|tauto]. left. split; [done|]. apply not_elem_of_nil.
Qed.

Lemma uniqBy_app_concat (a : list A) (ls : list (list A)) :
  uniqBy key (a ++ concat (uniqBy key <$> ls)) = uniqBy key (a ++ concat ls).
Proof. unfold uniqBy at 1 3. rewrite !uniqBy_from_app. f_equal. apply uniqBy_from_concat. Qed.

Lemma uniqBy_NoDup (l : list A) : NoDup (key <$> uniqBy key l).
Proof. apply uniqBy_from_NoDup. Qed.
End uniqBy.

Lemma uniqBy_from_Some (seen : list string) (l : list SceneItem) :
  uniqBy_from key_sceneItemId (Some <$> seen) (Some <$> l)
  = Some <$> uniqBy_from si_sceneItemId seen l.
Proof.
  revert seen. induction l as [|h l IH]; intros seen; csimpl; [done|].
  assert (Hiff : Some (si_sceneItemId h) ∈ Some <$> seen ↔ si_sceneItemId h ∈ seen).
  { split; [|apply (list_elem_of_fmap_2 Some)].
    intros (k & [= ->] & Hk)%list_elem_of_fmap. done. }
  destruct (decide (Some (si_sceneItemId h) ∈ Some <$> seen)) as [Hin|Hin];
    destruct (decide (si_sceneItemId h ∈ seen)) as [Hin'|Hin']; try tauto.
  - apply IH.
  - csimpl. f_equal. apply (IH (si_sceneItemId h :: seen)).
Qed.

Lemma uniqBy_Some (l : list SceneItem) :
  uniqBy key_sceneItemId (Some <$> l) = Some <$> uniqBy si_sceneItemId l.
Proof. apply (uniqBy_from_Some [] l). Qed.

(** ** getNestedItems *)

Lemma foldl_app_concat {A : Type} (a : list A) (ls : list (list A)) :
  foldl (λ acc sceneItems, acc ++ sceneItems) a ls = a ++ concat ls.
Proof.
  revert a. induction ls as [|l ls IH]; intros a; simpl.
  - by rewrite app_nil_r.
  - by rewrite IH, app_assoc.
Qed.

Lemma concat_Some {A : Type} (f : list A → list A) (ls : list (list A)) :
  concat ((λ sub, Some <$> f sub) <$> ls) = Some <$> concat (f <$> ls).
Proof.
  induction ls as [|l ls IH]; csimpl; [done|]. by rewrite IH, fmap_app.
Qed.

Lemma elem_of_concat_uniqBy (h : SceneItem) (subs : list (list SceneItem)) :
  h ∈ concat (uniqBy si_sceneItemId <$> subs) → h ∈ concat subs.
Proof.
  induction subs as [|sub subs IH]; csimpl; [done|].
  rewrite !elem_of_app. intros [Hh|Hh]; [left|right; by apply IH].
  by apply uniqBy_from_elem in Hh.
Qed.

Lemma Forall2_chain {A B C : Type} (R1 : A → B → Prop) (R2 Q : B → C → Prop)
    (la : list A) (lb : list B) (lc : list C) :
  Forall2 R1 la lb → Forall2 R2 lb lc →
  (∀ a b c, a ∈ la → R1 a b → R2 b c → Q b c) →
  Forall2 Q lb lc.
Proof.
  intros H1. revert lc. induction H1 as [|a b la lb Hab _ IH]; intros lc H2 HQ.
  - inversion H2. constructor.
  - inversion H2 as [|? c ? lc' Hbc H2']; subst. constructor.
    + apply (HQ a); [left|done..].
    + apply IH; [done|]. intros a' b' c' Ha'. apply HQ. by right.
Qed.

Lemma children_exist (st : Store) (cs : list string) :
  (∀ c, c ∈ cs → ∃ sc sub, scenes st !! c = Some sc ∧ traversal st sc sub) →
  ∃ children subs,
    Forall2 (λ c sc, scenes st !! c = Some sc) cs children ∧
    Forall2 (traversal st) children subs.
Proof.
  induction cs as [|c cs IH]; intros Hcs.
  - exists [], []. split; constructor.
  - destruct (Hcs c) as (sc & sub & Hsc & Hsub); [left|].
    destruct IH as (children & subs & Hch & Hsubs).
    { intros c' Hc'. apply Hcs. by right. }
    exists (sc :: children), (sub :: subs). split; by constructor.
Qed.

(** On an acyclic graph every scene has a traversal. *)
Lemma traversal_exists_on_path (st : Store) (Hwf : well_formed st) :
  ∀ n anc k this,
    scenes st !! k = Some this → on_path st anc this →
    (size (scenes st) < n + length anc)%nat →
    ∃ l, traversal st this l.
Proof.
  induction n as [|n IH]; intros anc k this Hk Hpath Hn.
  - apply on_path_length in Hpath. simpl in Hn. lia.
  - destruct (children_exist st (child_ids st this)) as (children & subs & Hch & Hsubs).
    { intros c Hc.
      destruct (on_path_step st anc this c Hwf Hpath Hc) as (sc & Hsc & _ & Hpath').
      destruct (IH (c :: anc) c sc Hsc Hpath') as [sub Hsub]; [simpl; lia|].
      by exists sc, sub. }
    eexists. by apply (traversal_scene st this children subs).
Qed.

Lemma mapO_nested_of_item (st : Store) (rec : IScene → outcome (list (option SceneItem)))
    (sceneId : string) (crows : list ISceneItem) (children : list IScene)
    (subs : list (list SceneItem)) :
  Forall2 (λ c sc, scenes st !! c = Some sc) (sourceId <$> crows) children →
  Forall2 (λ sc sub, rec sc = Ret (Some <$> uniqBy si_sceneItemId sub)) children subs →
  mapO (nested_of_item st rec) ((λ m, Some (new_SceneItem sceneId m)) <$> crows)
  = Ret ((λ sub, Some <$> uniqBy si_sceneItemId sub) <$> subs).
Proof.
  revert children subs. induction crows as [|m crows IH]; intros children subs Hch Hrec.
  - inversion Hch; subst. inversion Hrec; subst. done.
  - inversion Hch as [|? sc ? children' Hsc Hch']; subst.
    inversion Hrec as [|? sub ? subs' Hsub Hrec']; subst.
    csimpl. unfold nested_of_item, scene_of_item, getScene. simpl. rewrite Hsc. simpl.
    rewrite Hsub. simpl.
    pose proof (IH children' subs' Hch' Hrec') as E.
    unfold nested_of_item, scene_of_item, getScene in E. by rewrite E.
Qed.

Lemma filterO_not_scene (st : Store) (l : list SceneItem) :
  filterO (type_is_not_scene st) (Some <$> l)
  = Ret (Some <$> filter (λ h, is_scene_item st h = false) l).
Proof.
  induction l as [|h l IH]; csimpl; [done|].
  pose proof IH as E. unfold type_is_not_scene, type_is_scene in E |- *.
  rewrite E. simpl. rewrite filter_cons.
  destruct (is_scene_item st h); simpl; done.
Qed.

Lemma getNestedItems_on_path (st : Store) (Hwf : well_formed st) :
  ∀ fuel anc k this l,
    scenes st !! k = Some this → on_path st anc this →
    (size (scenes st) < fuel + length anc)%nat →
    traversal st this l →
    getNestedItems fuel st this false = Ret (Some <$> uniqBy si_sceneItemId l) ∧
    ∃ l', getNestedItems fuel st this true = Ret (Some <$> l') ∧
          NoDup (si_sceneItemId <$> l') ∧
          ∀ h, h ∈ l' → h ∈ l ∧ is_scene_item st h = false.
Proof.
  induction fuel as [|fuel IH]; intros anc k this l Hk Hpath Hfuel Htrav.
  - apply on_path_length in Hpath. simpl in Hfuel. lia.
  - inversion Htrav as [this' children subs Hch Hsubs]; subst.
    assert (Hrec : Forall2 (λ sc sub, getNestedItems fuel st sc false
                                      = Ret (Some <$> uniqBy si_sceneItemId sub))
                     children subs).
    { apply (Forall2_chain _ _ _ _ _ _ Hch Hsubs). intros c sc sub Hc Hsc Hsub.
      destruct (on_path_step st anc this c Hwf Hpath Hc) as (sc' & Hsc' & _ & Hpath').
      rewrite Hsc in Hsc'. injection Hsc' as <-.
      apply (IH (c :: anc) c sc sub Hsc Hpath'); [simpl; lia|done]. }
    assert (Hbody : ∀ excludeScenes,
      getNestedItems (S fuel) st this excludeScenes
      = let* result :=
          (if excludeScenes
           then filterO (type_is_not_scene st)
                  (Some <$> ((new_SceneItem (scene_id this) <$> rows_of (items this))
                             ++ concat (uniqBy si_sceneItemId <$> subs)))
           else Ret (Some <$> ((new_SceneItem (scene_id this) <$> rows_of (items this))
                               ++ concat (uniqBy si_sceneItemId <$> subs)))) in
        Ret (uniqBy key_sceneItemId result)).
    { intros excludeScenes. simpl.
      rewrite getItems_defined
        by (by eapply wf_items_defined || by eapply wf_ids_unique).
      simpl. rewrite filterO_scene_rows. simpl.
      rewrite (mapO_nested_of_item st _ (scene_id this) _ children subs Hch Hrec).
      simpl. rewrite foldl_app_concat, concat_Some.
      replace ((λ m, Some (new_SceneItem (scene_id this) m)) <$> rows_of (items this))
        with (Some <$> (new_SceneItem (scene_id this) <$> rows_of (items this)))
        by (by rewrite <- list_fmap_compose).
      by rewrite <- fmap_app. }
    split.
    + rewrite Hbody. simpl. by rewrite uniqBy_Some, uniqBy_app_concat.
    + rewrite Hbody. rewrite filterO_not_scene. simpl. rewrite uniqBy_Some.
      eexists. split; [done|]. split; [apply uniqBy_NoDup|].
      intros h Hh. apply uniqBy_from_elem, list_elem_of_filter in Hh as [Hns Hh].
      split; [|done]. apply elem_of_app in Hh as [Hh|Hh]; apply elem_of_app; [by left|].
      right. by apply elem_of_concat_uniqBy.
Qed.

(** What [getNestedItems] returns went through [uniqBy]. *)
Lemma getNestedItems_no_id_twice (st : Store) (this : IScene) (fuel : nat)
    (excludeScenes : bool) (r : list (option SceneItem)) :
  getNestedItems fuel st this excludeScenes = Ret r → NoDup (key_sceneItemId <$> r).
Proof.
  destruct fuel as [|n]; [done|]. simpl. intros H.
  apply bindO_Ret in H as (its & _ & H).
  apply bindO_Ret in H as (sc & _ & H).
  apply bindO_Ret in H as (nestedItems & _ & H).
  apply bindO_Ret in H as (res & _ & H).
  injection H as <-. apply uniqBy_NoDup.
Qed.

(** C9, as stated, fails: in the store [duo_2], whose graph is acyclic, scene
    B holds the rows a→cam and a→A, and A holds the item z.  The traversal
    of B passes through A and holds z; [getNestedItems] on B answers the one
    item a→cam, because [getItems] answers the camera for both rows of B and
    A is never entered. *)
Lemma getNestedItems_skips_a_nested_scene :
  scenes duo_2 !! "B" = Some scene_B2 ∧
  acyclic duo_2 ∧
  (∀ fuel, getNestedItems (S fuel) duo_2 scene_B2 false
           = Ret [Some {| si_sceneId := "B"; si_sceneItemId := "a"; si_sourceId := "cam" |}]) ∧
  (∃ l, traversal duo_2 scene_B2 l) ∧
  ∀ l, traversal duo_2 scene_B2 l →
       "z" ∈ si_sceneItemId <$> uniqBy si_sceneItemId l ∧
       ∀ fuel, getNestedItems fuel duo_2 scene_B2 false
               ≠ Ret (Some <$> uniqBy si_sceneItemId l).
Proof.
  split; [by vm_compute|].
  split; [apply duo_2_acyclic|].
  split; [intros fuel; by vm_compute|].
  assert (HA : traversal duo_2 scene_A
                 (new_SceneItem (scene_id scene_A) <$> rows_of (items scene_A))).
  { rewrite <- (app_nil_r (_ <$> _)). apply (traversal_scene duo_2 scene_A [] []).
    - replace (child_ids duo_2 scene_A) with (@nil string) by (by vm_compute). constructor.
    - constructor. }
  split.
  { eexists.
    apply (traversal_scene duo_2 scene_B2 [scene_A]
             [new_SceneItem (scene_id scene_A) <$> rows_of (items scene_A)]).
    - replace (child_ids duo_2 scene_B2) with ["A"] by (by vm_compute).
      constructor; [by vm_compute|constructor].
    - constructor; [exact HA|constructor]. }
  intros l Hl.
  inversion Hl as [this children subs Hch Hsubs Hthis Hlist]. subst this. clear Hl.
  replace (child_ids duo_2 scene_B2) with ["A"] in Hch by (by vm_compute).
  inversion Hch as [|c sc cs scs Hsc Hcs]. subst. clear Hch.
  inversion Hcs. subst. clear Hcs.
  assert (sc = scene_A) as -> by (vm_compute in Hsc; by injection Hsc).
  inversion Hsubs as [|? sub ? subs' Hsub Hsubs']. subst. clear Hsubs.
  inversion Hsubs'. subst. clear Hsubs'.
  inversion Hsub as [this children subs Hch Hsubs Hthis Hlist]. subst. clear Hsub.
  replace (child_ids duo_2 scene_A) with (@nil string) in Hch by (by vm_compute).
  inversion Hch. subst. inversion Hsubs. subst.
  split.
  - apply (bool_decide_unpack _). by vm_compute.
  - intros [|fuel]; [done|]. by vm_compute.
Qed.

(** C9, amended: in any store, whenever [getNestedItems] returns, no
    [sceneItemId] occurs twice in what it returns.  In a well-formed store
    (records under their own ids, the scenes and the sources of type "scene"
    being the same, no undefined slot in an [items] array, no id twice
    within one, and an acyclic graph) [getNestedItems] returns, with every
    recursion budget above the number of registered scenes, the depth-first
    traversal of this scene (its own items, then the items of each nested
    scene) with, for every [sceneItemId], the first item of that id kept
    and the later ones dropped.  No id occurs twice in the result and every
    id of the traversal occurs in it, also when a child scene is reached more
    than once.  With [excludeScenes] the result still has no id twice and
    holds items of the traversal that are not scenes. *)
Theorem getNestedItems_dedups_traversal (st : Store) (self : string) (this : IScene) :
  (∀ fuel excludeScenes r,
     getNestedItems fuel st this excludeScenes = Ret r →
     NoDup (key_sceneItemId <$> r)) ∧
  (well_formed st → scenes st !! self = Some this →
   ∃ l,
     traversal st this l ∧
     (∀ fuel, (size (scenes st) < fuel)%nat →
              getNestedItems fuel st this false = Ret (Some <$> uniqBy si_sceneItemId l)) ∧
     NoDup (si_sceneItemId <$> uniqBy si_sceneItemId l) ∧
     (∀ id, id ∈ si_sceneItemId <$> uniqBy si_sceneItemId l ↔ id ∈ si_sceneItemId <$> l) ∧
     (∀ fuel, (size (scenes st) < fuel)%nat →
              ∃ l', getNestedItems fuel st this true = Ret (Some <$> l') ∧
                    NoDup (si_sceneItemId <$> l') ∧
                    ∀ h, h ∈ l' → h ∈ l ∧ is_scene_item st h = false)).
Proof.
  split; [intros fuel e r; apply getNestedItems_no_id_twice|].
  intros Hwf Hself.
  destruct (traversal_exists_on_path st Hwf (S (size (scenes st))) [] self this Hself
              (on_path_nil st this)) as [l Hl]; [simpl; lia|].
  exists l. split; [done|].
  assert (Hrun : ∀ fuel, (size (scenes st) < fuel)%nat →
            getNestedItems fuel st this false = Ret (Some <$> uniqBy si_sceneItemId l) ∧
            ∃ l', getNestedItems fuel st this true = Ret (Some <$> l') ∧
                  NoDup (si_sceneItemId <$> l') ∧
                  ∀ h, h ∈ l' → h ∈ l ∧ is_scene_item st h = false).
  { intros fuel Hfuel.
    apply (getNestedItems_on_path st Hwf fuel [] self this l Hself (on_path_nil st this));
      [simpl; lia|done]. }
  split; [intros fuel Hfuel; by apply Hrun|].
  split; [apply uniqBy_NoDup|].
  split.
  - intros id. unfold uniqBy. rewrite uniqBy_from_keys. split; [tauto|].
    intros Hid. split; [done|]. apply not_elem_of_nil.
  - intros fuel Hfuel. by apply Hrun.
Qed.

Lemma getNestedItems_dedups_traversal_witness :
  ∃ l,
    traversal studio scene_S1 l ∧
    (∀ fuel, (size (scenes studio) < fuel)%nat →
             getNestedItems fuel studio scene_S1 false
             = Ret (Some <$> uniqBy si_sceneItemId l)) ∧
    NoDup (si_sceneItemId <$> uniqBy si_sceneItemId l) ∧
    (∀ id, id ∈ si_sceneItemId <$> uniqBy si_sceneItemId l ↔ id ∈ si_sceneItemId <$> l) ∧
    (∀ fuel, (size (scenes studio) < fuel)%nat →
             ∃ l', getNestedItems fuel studio scene_S1 true = Ret (Some <$> l') ∧
                   NoDup (si_sceneItemId <$> l') ∧
                   ∀ h, h ∈ l' → h ∈ l ∧ is_scene_item studio h = false).
Proof.
  exact (proj2 (getNestedItems_dedups_traversal studio "S1" scene_S1)
           studio_well_formed eq_refl).
Defined.

(** In the studio S2 is shown twice by S1; its item j1 is returned once. *)
Example getNestedItems_studio :
  getNestedItems 3 studio scene_S1 false
  = Ret [Some {| si_sceneId := "S1"; si_sceneItemId := "i1"; si_sourceId := "S2" |};
         Some {| si_sceneId := "S1"; si_sceneItemId := "i2"; si_sourceId := "cam1" |};
         Some {| si_sceneId := "S1"; si_sceneItemId := "i3"; si_sourceId := "S2" |};
         Some {| si_sceneId := "S2"; si_sceneItemId := "j1"; si_sourceId := "cam1" |}].
Proof. by vm_compute. Qed.

(** ** State invariants *)

Lemma store_invariants_insert (st : Store) (self : string) (this' : IScene)
    (so : gmap string Source) :
  store_invariants st → items_defined this' → invariants this' →
  store_invariants {| sources := so; scenes := <[self := this']> (scenes st) |}.
Proof.
  intros Hst Hd Hinv k s. simpl. intros Hk.
  apply lookup_insert_Some in Hk as [[<- <-]|[_ Hk]]; [done|by apply (Hst k)].
Qed.

Lemma NoDup_ids_filter (P : ISceneItem → Prop) `{∀ m, Decision (P m)}
    (rows : list ISceneItem) :
  NoDup (sceneItemId <$> rows) → NoDup (sceneItemId <$> filter P rows).
Proof.
  induction rows as [|m rows IH]; csimpl; [done|].
  rewrite NoDup_cons. intros [Hm Hnd]. rewrite filter_cons.
  case_decide; [|by apply IH]. csimpl. apply NoDup_cons. split; [|by apply IH].
  intros (m' & Heq & Hm')%list_elem_of_fmap. apply Hm. rewrite Heq.
  apply list_elem_of_fmap_2. by apply list_elem_of_filter in Hm' as [_ ?].
Qed.

Lemma setName_invariants (st : Store) (self newName : string) r st' :
  store_invariants st → setName self newName st = (r, st') → store_invariants st'.
Proof.
  intros Hst. unfold setName, bindM, read, rename_source, commit.
  destruct (scenes st !! self) as [this|] eqn:Hself; [|by intros [= <- <-]].
  destruct (sources st !! scene_id this) as [src|]; [|by intros [= <- <-]].
  simpl. rewrite Hself. simpl. intros [= <- <-].
  destruct (Hst self this Hself) as [Hd Hinv].
  by apply store_invariants_insert.
Qed.

Lemma obsSceneItemId_of_present (this : IScene) (ids : list string) (zs : list Z) :
  items_defined this → mapO (obsSceneItemId_of this) ids = Ret zs →
  ∀ i, i ∈ ids → i ∈ item_ids this.
Proof.
  intros Hd. revert zs. induction ids as [|id ids IH]; intros zs Hmap i Hi.
  - by apply elem_of_nil in Hi.
  - simpl in Hmap. apply bindO_Ret in Hmap as (z & Hz & Hmap).
    apply bindO_Ret in Hmap as (zs' & Hzs & _).
    apply elem_of_cons in Hi as [->|Hi]; [|by apply (IH zs')].
    unfold obsSceneItemId_of in Hz. rewrite (defined_rows _ Hd), find_model_Some in Hz.
    simpl in Hz. destruct (find_row id (rows_of (items this))) as [m|] eqn:Hm; [|done].
    apply find_row_Some in Hm as [Hm <-]. by apply list_elem_of_fmap_2.
Qed.

Lemma makeItemsActive_invariants (st : Store) (self : string) (ids : list string) r st' :
  store_invariants st → makeItemsActive self ids st = (r, st') → store_invariants st'.
Proof.
  intros Hst. unfold makeItemsActive, bindM, read, commit.
  destruct (scenes st !! self) as [this|] eqn:Hself; [|by intros [= <- <-]].
  destruct (Hst self this Hself) as [Hd [Hact Hnd]].
  destruct (mapO (obsSceneItemId_of this) ids) as [zs| |] eqn:Hmap;
    [|by intros [= <- <-]..].
  simpl. rewrite Hself. intros [= <- <-].
  apply store_invariants_insert; [done..|]. split; [|done]. simpl.
  by apply (obsSceneItemId_of_present this ids zs).
Qed.

Lemma removeItem_invariants (st : Store) (self id : string) r st' :
  store_invariants st → removeItem self id st = (r, st') → store_invariants st'.
Proof.
  intros Hst Hrm.
  destruct (scenes st !! self) as [this|] eqn:Hself.
  2:{ unfold removeItem, bindM, read in Hrm. rewrite Hself in Hrm. by simplify_eq/=. }
  destruct (Hst self this Hself) as [Hd [Hact Hnd]].
  destruct (decide (id ∈ item_ids this)) as [Hin|Hout].
  - rewrite (removeItem_present st self id this Hself Hd Hin) in Hrm.
    injection Hrm as <- <-.
    apply store_invariants_insert; [done|apply Forall_is_Some_fmap|].
    unfold invariants, item_ids. simpl. rewrite rows_of_Some. split.
    + intros i [Hne Hi]%list_elem_of_filter. apply Hact in Hi.
      apply list_elem_of_fmap in Hi as (m & -> & Hm).
      apply list_elem_of_fmap_2. by apply list_elem_of_filter.
    + by apply NoDup_ids_filter.
  - rewrite (removeItem_missing st self id this Hself Hd Hout) in Hrm.
    by injection Hrm as <- <-.
Qed.

Lemma addSource_invariants (fuel : nat) (st : Store) (self srcId : string)
    (options : ISceneItemAddOptions) (uniqueId : string) (obsSceneItem : ObsSceneItem) r st' :
  store_invariants st →
  (∀ this, scenes st !! self = Some this →
           chosen_sceneItemId options uniqueId ∉ item_ids this) →
  addSource fuel self srcId options uniqueId obsSceneItem st = (r, st') →
  store_invariants st'.
Proof.
  intros Hst Hfresh Hadd.
  destruct (getSource st srcId) as [source|] eqn:Hsrc.
  2:{ rewrite addSource_unresolved in Hadd by done. by injection Hadd as <- <-. }
  destruct (scenes st !! self) as [this|] eqn:Hself.
  2:{ unfold addSource, bindM, read in Hadd. rewrite Hsrc, Hself in Hadd.
      by simplify_eq/=. }
  destruct (canAddSource fuel st this srcId) as [[|]| |] eqn:Hcan.
  - rewrite (addSource_accepted _ _ this _ source) in Hadd by done.
    injection Hadd as <- <-.
    destruct (Hst self this Hself) as [Hd [Hact Hnd]].
    apply store_invariants_insert; [done|by constructor|].
    unfold invariants, item_ids. simpl. split.
    + intros i ->%list_elem_of_singleton. left.
    + apply NoDup_cons. split; [by apply Hfresh|done].
  - rewrite (addSource_rejected _ _ this) in Hadd by done. by injection Hadd as <- <-.
  - unfold addSource, bindM, read in Hadd. rewrite Hsrc, Hself, Hcan in Hadd.
    by simplify_eq/=.
  - unfold addSource, bindM, read in Hadd. rewrite Hsrc, Hself, Hcan in Hadd.
    by simplify_eq/=.
Qed.

Lemma setSourceOrder_invariants (st : Store) (self id : string) (delta : Z)
    (order : list string) r st' :
  store_invariants st →
  (∀ this, scenes st !! self = Some this → order ≡ₚ item_ids this) →
  setSourceOrder self id delta order st = (r, st') → store_invariants st'.
Proof.
  intros Hst Hperm Hset.
  destruct (scenes st !! self) as [this|] eqn:Hself.
  2:{ unfold setSourceOrder, bindM, read in Hset. rewrite Hself in Hset.
      by simplify_eq/=. }
  destruct (Hst self this Hself) as [Hd [Hact Hnd]].
  specialize (Hperm this eq_refl).
  rewrite (setSourceOrder_defined st self id delta order this Hself Hd) in Hset.
  injection Hset as <- <-.
  destruct (find_rows_present (rows_of (items this)) order) as (rows' & Hmap & Hids & _).
  { intros i Hi. fold (item_ids this). by rewrite <- Hperm. }
  apply store_invariants_insert; [done|..]; unfold invariants, items_defined, item_ids;
    simpl; rewrite Hmap.
  - apply Forall_is_Some_fmap.
  - rewrite rows_of_Some, Hids. split.
    + intros i Hi. rewrite Hperm. by apply Hact.
    + by rewrite Hperm.
Qed.

Lemma addSources_from_step (st : Store) (self : string) (this : IScene)
    (infos : list ISceneItemInfo) (obsIds : list Z) (a : ArrayItem)
    (rest : list ArrayItem) (index : nat) (item : ISceneItemInfo) (obsId : Z) :
  scenes st !! self = Some this → infos !! index = Some item → obsIds !! index = Some obsId →
  addSources_from self infos obsIds (a :: rest) index st
  = addSources_from self infos obsIds rest (S index)
      (set_scenes (<[self := restored item obsId a this]> (scenes st)) st).
Proof.
  intros Hself Hitem Hobs. simpl. rewrite Hitem, Hobs.
  unfold bindM at 1. unfold commit at 1. rewrite Hself. simpl.
  unfold bindM at 1. unfold read at 1. simpl. rewrite lookup_insert_eq.
  unfold getItem. simpl. rewrite decide_True by done. simpl.
  unfold bindM at 1. unfold loadItemAttributes, commit. simpl. rewrite lookup_insert_eq.
  unfold UPDATE. simpl. rewrite decide_True by done. simpl.
  rewrite set_scenes_twice, insert_insert_eq. done.
Qed.

Lemma addSources_from_invariants (self : string) (infos : list ISceneItemInfo)
    (obsIds : list Z) (arrayItems : list ArrayItem) :
  ∀ index st this r st',
    store_invariants st → scenes st !! self = Some this →
    NoDup ((info_id <$> drop index infos) ++ item_ids this) →
    addSources_from self infos obsIds arrayItems index st = (r, st') →
    store_invariants st'.
Proof.
  induction arrayItems as [|a rest IH]; intros index st this r st' Hst Hself Hnd Hrun.
  - by injection Hrun as <- <-.
  - destruct (infos !! index) as [item|] eqn:Hitem.
    2:{ simpl in Hrun. rewrite Hitem in Hrun. by injection Hrun as <- <-. }
    destruct (obsIds !! index) as [obsId|] eqn:Hobs.
    2:{ simpl in Hrun. rewrite Hitem, Hobs in Hrun. by injection Hrun as <- <-. }
    rewrite (addSources_from_step st self this infos obsIds a rest index item obsId)
      in Hrun by done.
    rewrite (drop_S _ _ _ Hitem) in Hnd. csimpl in Hnd.
    apply NoDup_cons in Hnd as [Hfresh Hnd].
    destruct (Hst self this Hself) as [Hd [Hact Hids]].
    apply (IH (S index) (set_scenes (<[self := restored item obsId a this]> (scenes st)) st)
             (restored item obsId a this) r st'); [| | |exact Hrun].
    + apply store_invariants_insert; [done|by constructor|].
      unfold invariants, item_ids. simpl. split.
      * intros i Hi. right. by apply Hact.
      * apply NoDup_cons. split; [|done]. intros Hin. apply Hfresh.
        apply elem_of_app. by right.
    + simpl. apply lookup_insert_eq.
    + unfold item_ids. simpl.
      apply (NoDup_Permutation_proper _ _ (Permutation_middle _ _ _)).
      apply NoDup_cons. done.
Qed.

Lemma addSources_invariants (st : Store) (self : string) (infos : list ISceneItemInfo)
    (obsIds : list Z) r st' :
  store_invariants st →
  (∀ this, scenes st !! self = Some this → NoDup ((info_id <$> infos) ++ item_ids this)) →
  addSources self infos obsIds st = (r, st') → store_invariants st'.
Proof.
  intros Hst Hnd Hrun. unfold addSources in Hrun.
  destruct (scenes st !! self) as [this|] eqn:Hself.
  - apply (addSources_from_invariants self infos obsIds (arrayItems_of st infos)
             0 st this r st'); try done.
    rewrite drop_0. by apply Hnd.
  - destruct (arrayItems_of st infos) as [|a rest]; simpl in Hrun.
    + by injection Hrun as <- <-.
    + destruct (infos !! 0), (obsIds !! 0); try by injection Hrun as <- <-.
      unfold bindM, commit in Hrun. rewrite Hself in Hrun. by injection Hrun as <- <-.
Qed.

Lemma studio_invariants : store_invariants studio.
Proof.
  intros k s Hk. split; [by apply (wf_items_defined _ studio_well_formed k)|].
  split; [|by apply (wf_ids_unique _ studio_well_formed k)].
  apply studio_scenes in Hk as [[-> ->]|[-> ->]]; intros i Hi.
  - apply list_elem_of_singleton in Hi as ->. left.
  - by apply elem_of_nil in Hi.
Qed.

(** C7, as stated, fails: a caller-supplied [sceneItemId] that a row of the
    scene already carries is neither rejected nor made to replace that row;
    the id then occurs twice in [items]. *)
Lemma addSource_duplicates_supplied_id :
  store_invariants studio ∧
  ∃ h st' this',
    addSource 3 "S1" "cam1" (with_id "i1") "u1" (fresh_obs 9) studio = (Ret (Some h), st') ∧
    scenes st' !! "S1" = Some this' ∧
    item_ids this' = ["i1"; "i1"; "i2"; "i3"] ∧
    ¬ NoDup (item_ids this').
Proof.
  split; [apply studio_invariants|].
  eexists _, _, _. split.
  { by apply (addSource_accepted _ _ scene_S1 _ (a_source "cam1" "ffmpeg_source")). }
  split; [apply lookup_insert_eq|]. split; [reflexivity|].
  intros Hnd. change (NoDup ("i1" :: "i1" :: ["i2"; "i3"])) in Hnd.
  apply NoDup_cons in Hnd as [Hnotin _]. apply Hnotin. left.
Qed.

(** C7, amended: in a store whose scenes satisfy the two invariants, they
    still hold after [setName], [removeItem] and [makeItemsActive], whatever
    the arguments and the outcome; after [addSource] when the id chosen for
    the new item (the caller's, or else the generated one) is not an id of
    the scene's items; after [addSources] when the ids of the entries are
    distinct from each other and from the ids of the scene's items; and
    after [setSourceOrder] when the new order is a permutation of the ids of
    the scene's items. *)
Theorem operations_preserve_invariants (st : Store) (Hinv : store_invariants st) :
  (∀ self newName r st',
     setName self newName st = (r, st') → store_invariants st') ∧
  (∀ self sceneItemId r st',
     removeItem self sceneItemId st = (r, st') → store_invariants st') ∧
  (∀ self sceneItemIds r st',
     makeItemsActive self sceneItemIds st = (r, st') → store_invariants st') ∧
  (∀ fuel self srcId options uniqueId obsSceneItem r st',
     (∀ this, scenes st !! self = Some this →
              chosen_sceneItemId options uniqueId ∉ item_ids this) →
     addSource fuel self srcId options uniqueId obsSceneItem st = (r, st') →
     store_invariants st') ∧
  (∀ self infos obsIds r st',
     (∀ this, scenes st !! self = Some this →
              NoDup ((info_id <$> infos) ++ item_ids this)) →
     addSources self infos obsIds st = (r, st') → store_invariants st') ∧
  (∀ self sceneItemId positionDelta newOrder r st',
     (∀ this, scenes st !! self = Some this → newOrder ≡ₚ item_ids this) →
     setSourceOrder self sceneItemId positionDelta newOrder st = (r, st') →
     store_invariants st').
Proof.
  split; [|split; [|split; [|split; [|split]]]].
  - intros. by eapply setName_invariants.
  - intros. by eapply removeItem_invariants.
  - intros. by eapply makeItemsActive_invariants.
  - intros. by eapply addSource_invariants.
  - intros. by eapply addSources_invariants.
  - intros. by eapply setSourceOrder_invariants.
Qed.

Lemma operations_preserve_invariants_witness :
  store_invariants (addSource 3 "S1" "cam1" (with_id "k1") "u1" (fresh_obs 9) studio).2 ∧
  store_invariants (setSourceOrder "S1" "i2" (-1) ["i2"; "i1"; "i3"] studio).2.
Proof.
  destruct (operations_preserve_invariants studio studio_invariants)
    as (_ & _ & _ & Hadd & _ & Hord).
  split.
  - apply (Hadd 3 "S1" "cam1" (with_id "k1") "u1" (fresh_obs 9)
             (addSource 3 "S1" "cam1" (with_id "k1") "u1" (fresh_obs 9) studio).1).
    + intros this [= <-]. apply (bool_decide_unpack _). by vm_compute.
    + apply surjective_pairing.
  - apply (Hord "S1" "i2" (-1)%Z ["i2"; "i1"; "i3"]
             (setSourceOrder "S1" "i2" (-1) ["i2"; "i1"; "i3"] studio).1).
    + intros this [= <-]. exact (perm_swap "i1" "i2" ["i3"]).
    + apply surjective_pairing.
Defined.

(** ** The scenarios, run *)

Example addSource_on_empty_scene :
  ∃ this',
    (addSource 2 "S" "a" no_options "id_a" (fresh_obs 1) stage).1
    = Ret (Some {| si_sceneId := "S"; si_sceneItemId := "id_a"; si_sourceId := "a" |}) ∧
    scenes (addSource 2 "S" "a" no_options "id_a" (fresh_obs 1) stage).2 !! "S" = Some this' ∧
    items this' = [Some (new_row "id_a" "a" 1)] ∧
    activeItemIds this' = ["id_a"].
Proof. eexists. by vm_compute. Qed.

Example addSource_a_then_b :
  ∃ this',
    scenes stage_a_b !! "S" = Some this' ∧
    sourceId <$> rows_of (items this') = ["b"; "a"] ∧
    item_ids this' = ["id_b"; "id_a"].
Proof. eexists. by vm_compute. Qed.

Example setSourceOrder_a_before_b :
  ∃ this',
    scenes (setSourceOrder "S" "id_a" (-1) ["id_a"; "id_b"] stage_a_b).2 !! "S" = Some this' ∧
    sourceId <$> rows_of (items this') = ["a"; "b"].
Proof. eexists. by vm_compute. Qed.

Example canAddSource_two_cycle :
  canAddSource 3 studio scene_S2 "S1" = Ret false ∧
  canAddSource 3 studio scene_S1 "S1" = Ret false.
Proof. by vm_compute. Qed.

(** * Further properties of the scene helper *)

(** ** getItem, getItems, getItemIndex *)

Lemma find_model_app_found (id : string) (l1 : list ISceneItem) (rest : list slot) :
  id ∈ sceneItemId <$> l1 →
  find_model id ((Some <$> l1) ++ rest) = Ret (find_row id l1).
Proof.
  induction l1 as [|m l1 IH]; csimpl; intros Hin.
  - by apply elem_of_nil in Hin.
  - case_decide as Hm; [done|].
    apply elem_of_cons in Hin as [Heq|Hin]; [congruence|]. by apply IH.
Qed.

Lemma find_model_app_skip (id : string) (l1 : list ISceneItem) (rest : list slot) :
  id ∉ sceneItemId <$> l1 →
  find_model id ((Some <$> l1) ++ rest) = find_model id rest.
Proof.
  induction l1 as [|m l1 IH]; csimpl; intros Hout; [done|].
  apply not_elem_of_cons in Hout as [Hne Hout].
  rewrite decide_False by congruence. by apply IH.
Qed.

(** X1: what [getItem] answers is decided by the first slot that is a hole or
    carries the id: a row with the id gives a handle on it, with this scene's
    id, whatever follows; a hole makes the call throw; and when no slot is
    either, the answer is [null]. *)
Theorem getItem_first_match (this : IScene) (id : string) (before : list ISceneItem)
    (Hbefore : id ∉ sceneItemId <$> before) :
  (∀ m rest,
     items this = (Some <$> before) ++ Some m :: rest → sceneItemId m = id →
     getItem this id = Ret (Some {| si_sceneId := scene_id this;
                                    si_sceneItemId := id;
                                    si_sourceId := sourceId m |})) ∧
  (∀ rest,
     items this = (Some <$> before) ++ None :: rest →
     getItem this id = Throw TypeError) ∧
  (items this = Some <$> before → getItem this id = Ret None).
Proof.
  unfold getItem. split; [|split].
  - intros m rest -> <-. rewrite find_model_app_skip by done. simpl.
    by rewrite decide_True.
  - intros rest ->. by rewrite find_model_app_skip.
  - intros ->. rewrite find_model_Some.
    by rewrite (proj2 (find_row_None id before) Hbefore).
Qed.

Lemma getItem_first_match_witness :
  getItem scene_H "h1" = Ret (Some {| si_sceneId := "H"; si_sceneItemId := "h1";
                                      si_sourceId := "cam1" |}) ∧
  getItem scene_H "h3" = Throw TypeError ∧
  getItem scene_S2 "zz" = Ret None.
Proof.
  split; [|split].
  - apply (proj1 (getItem_first_match scene_H "h1" [] (not_elem_of_nil _))
             (new_row "h1" "cam1" 1) [None; Some (new_row "h3" "cam1" 3)]); reflexivity.
  - assert (H : "h3" ∉ sceneItemId <$> [new_row "h1" "cam1" 1]).
    { apply (bool_decide_unpack _). by vm_compute. }
    apply (proj1 (proj2 (getItem_first_match scene_H "h3" [new_row "h1" "cam1" 1] H))
             [Some (new_row "h3" "cam1" 3)]). reflexivity.
  - assert (H : "zz" ∉ sceneItemId <$> [new_row "j1" "cam1" 1]).
    { apply (bool_decide_unpack _). by vm_compute. }
    apply (proj2 (proj2 (getItem_first_match scene_S2 "zz" [new_row "j1" "cam1" 1] H))).
    reflexivity.
Defined.

Lemma first_hole (l : list slot) :
  ¬ Forall is_Some l → ∃ before rest, l = (Some <$> before) ++ None :: rest.
Proof.
  induction l as [|[m|] l IH]; intros Hn.
  - destruct Hn. constructor.
  - destruct IH as (before & rest & ->).
    { intros Hl. apply Hn. constructor; [by eexists|done]. }
    by exists (m :: before), rest.
  - by exists [], l.
Qed.

Lemma mapO_app_Throw {A B : Type} (f : A → outcome B) (l : list A) (a : A)
    (rest : list A) (e : JsError) :
  (∀ a', a' ∈ l → ∃ b, f a' = Ret b) → f a = Throw e →
  mapO f (l ++ a :: rest) = Throw e.
Proof.
  intros Hl Ha. induction l as [|a' l IH]; simpl.
  - by rewrite Ha.
  - destruct (Hl a') as [b ->]; [left|]. simpl.
    rewrite IH; [done|]. intros a'' Ha''. apply Hl. by right.
Qed.

(** The handle [getItems] builds for a row: a handle on the first row of the
    same id. *)
Lemma find_row_same_id (rows : list ISceneItem) (m : ISceneItem) :
  m ∈ rows →
  ∃ m', find_row (sceneItemId m) rows = Some m' ∧ m' ∈ rows ∧
        sceneItemId m' = sceneItemId m.
Proof.
  intros Hm. destruct (find_row_elem (sceneItemId m) rows) as [m' Hm'].
  { by apply list_elem_of_fmap_2. }
  exists m'. split; [done|]. by apply find_row_Some.
Qed.

Lemma getItems_hole (this : IScene) :
  ¬ items_defined this → getItems this = Throw TypeError.
Proof.
  intros Hn. destruct (first_hole _ Hn) as (before & rest & Hitems).
  unfold getItems. rewrite Hitems at 1.
  apply mapO_app_Throw; [|done].
  intros s (m & -> & Hm)%list_elem_of_fmap. unfold getItem. rewrite Hitems.
  rewrite find_model_app_found by (by apply list_elem_of_fmap_2). simpl. eauto.
Qed.

(** X2: on an [items] array without holes [getItems] answers one handle for
    each row, in the order of the rows and with their ids, also when an id
    occurs twice; each handle is bound to this scene and carries the source
    of a row of that id.  On an array with a hole [getItems] throws. *)
Theorem getItems_one_handle_per_row (this : IScene) :
  (items_defined this →
   ∃ hs, getItems this = Ret (Some <$> hs) ∧
         si_sceneItemId <$> hs = item_ids this ∧
         ∀ h, h ∈ hs →
              si_sceneId h = scene_id this ∧
              ∃ m, m ∈ rows_of (items this) ∧ sceneItemId m = si_sceneItemId h ∧
                   sourceId m = si_sourceId h) ∧
  (¬ items_defined this → getItems this = Throw TypeError).
Proof.
  split.
  - intros Hd. pose proof (defined_rows _ Hd) as E. unfold item_ids.
    remember (rows_of (items this)) as rows eqn:Hrows.
    set (pick := λ m, new_SceneItem (scene_id this)
                        (default m (find_row (sceneItemId m) rows))).
    assert (Hpick : ∀ m, m ∈ rows →
              ∃ m', find_row (sceneItemId m) rows = Some m' ∧ pick m = new_SceneItem (scene_id this) m' ∧
                    m' ∈ rows ∧ sceneItemId m' = sceneItemId m).
    { intros m Hm. destruct (find_row_same_id rows m Hm) as (m' & Hm' & Hin & Hid).
      exists m'. unfold pick. by rewrite Hm'. }
    clearbody pick.
    exists (pick <$> rows). split; [|split].
    + unfold getItems. rewrite (mapO_Ret_all _ (fmap pick)).
      * rewrite E. by rewrite <- !list_fmap_compose.
      * intros s Hs. rewrite E in Hs.
        apply list_elem_of_fmap in Hs as (m & -> & Hm).
        rewrite getItem_defined by done. rewrite <- Hrows.
        destruct (Hpick m Hm) as (m' & Hfind & Hpk & _).
        rewrite Hfind. simpl. by rewrite Hpk.
    + rewrite <- list_fmap_compose.
      apply list_fmap_ext. intros k m Hk. simpl.
      destruct (Hpick m) as (m' & _ & Hpk & _ & Hid); [by eapply list_elem_of_lookup_2|].
      by rewrite Hpk.
    + intros h (m & -> & Hm)%list_elem_of_fmap.
      destruct (Hpick m Hm) as (m' & _ & Hpk & Hin & Hid). rewrite Hpk.
      split; [done|]. by exists m'.
  - apply getItems_hole.
Qed.

Lemma getItems_one_handle_per_row_witness :
  (∃ hs, getItems scene_S1 = Ret (Some <$> hs) ∧
         si_sceneItemId <$> hs = item_ids scene_S1 ∧
         ∀ h, h ∈ hs →
              si_sceneId h = scene_id scene_S1 ∧
              ∃ m, m ∈ rows_of (items scene_S1) ∧ sceneItemId m = si_sceneItemId h ∧
                   sourceId m = si_sourceId h) ∧
  getItems scene_H = Throw TypeError.
Proof.
  split.
  - apply (proj1 (getItems_one_handle_per_row scene_S1)). apply Forall_is_Some_fmap.
  - apply (proj2 (getItems_one_handle_per_row scene_H)).
    intros Hd. apply Forall_cons in Hd as [_ Hd]. apply Forall_cons in Hd as [[m Hm] _].
    discriminate Hm.
Defined.

Lemma getItemIndex_from_first (id : string) (rows : list ISceneItem) (i : nat) :
  (id ∉ sceneItemId <$> rows → getItemIndex_from id (Some <$> rows) i = Ret (-1)%Z) ∧
  (id ∈ sceneItemId <$> rows →
   ∃ k m, getItemIndex_from id (Some <$> rows) i = Ret (Z.of_nat (i + k)) ∧
          rows !! k = Some m ∧ sceneItemId m = id ∧
          ∀ j m', rows !! j = Some m' → (j < k)%nat → sceneItemId m' ≠ id).
Proof.
  revert i. induction rows as [|m rows IH]; intros i; csimpl.
  - split; [done|]. by intros ?%elem_of_nil.
  - case_decide as Hm.
    + split; [intros Hout; exfalso; apply Hout; subst; left|].
      intros _. exists 0%nat, m. rewrite Nat.add_0_r. split; [done|]. split; [done|].
      split; [done|]. intros j m' _ Hj. lia.
    + destruct (IH (S i)) as [Hout Hin]. split.
      * intros [_ Hnot]%not_elem_of_cons. by apply Hout.
      * intros [Heq|Hin']%elem_of_cons; [congruence|].
        destruct (Hin Hin') as (k & m0 & Hrun & Hk & Hid & Hfirst).
        exists (S k), m0. rewrite Hrun. split; [f_equal; lia|]. split; [done|].
        split; [done|]. intros [|j] m' Hj Hlt; simpl in Hj.
        -- by injection Hj as <-.
        -- apply (Hfirst j m' Hj). lia.
Qed.

(** X3: on an [items] array without holes [getItemIndex] answers -1 for an
    id no row carries, and otherwise the position of the first row that
    carries it, a position within the array. *)
Theorem getItemIndex_first_position (this : IScene) (id : string)
    (Hdef : items_defined this) :
  (id ∉ item_ids this → getItemIndex this id = Ret (-1)%Z) ∧
  (id ∈ item_ids this →
   ∃ k m, getItemIndex this id = Ret (Z.of_nat k) ∧
          (k < length (items this))%nat ∧
          items this !! k = Some (Some m) ∧ sceneItemId m = id ∧
          ∀ j m', items this !! j = Some (Some m') → (j < k)%nat → sceneItemId m' ≠ id).
Proof.
  unfold getItemIndex, item_ids. rewrite (defined_rows _ Hdef).
  rewrite rows_of_Some.
  destruct (getItemIndex_from_first id (rows_of (items this)) 0) as [Hout Hin].
  split; [done|]. intros Hid.
  destruct (Hin Hid) as (k & m & Hrun & Hk & Hm & Hfirst).
  exists k, m. split; [done|]. split.
  { rewrite length_fmap. by eapply lookup_lt_Some. }
  split; [by rewrite list_lookup_fmap, Hk|]. split; [done|].
  intros j m' Hj Hlt. apply (Hfirst j m'); [|done].
  rewrite list_lookup_fmap in Hj. destruct (rows_of (items this) !! j); by simplify_eq/=.
Qed.

Lemma getItemIndex_first_position_witness :
  getItemIndex scene_S1 "zz" = Ret (-1)%Z ∧
  ∃ k m, getItemIndex scene_S1 "i3" = Ret (Z.of_nat k) ∧
         (k < length (items scene_S1))%nat ∧
         items scene_S1 !! k = Some (Some m) ∧ sceneItemId m = "i3" ∧
         ∀ j m', items scene_S1 !! j = Some (Some m') → (j < k)%nat →
                 sceneItemId m' ≠ "i3".
Proof.
  assert (Hd : items_defined scene_S1) by apply Forall_is_Some_fmap.
  split.
  - apply (proj1 (getItemIndex_first_position scene_S1 "zz" Hd)).
    apply (bool_decide_unpack _). by vm_compute.
  - apply (proj2 (getItemIndex_first_position scene_S1 "i3" Hd)).
    apply (bool_decide_unpack _). by vm_compute.
Defined.

(** ** activeItems, inactiveSources, makeItemsActive *)







Lemma mapO_obsSceneItemId_of (this : IScene) (ids : list string) :
  items_defined this →
  if decide (Forall (λ i, i ∈ item_ids this) ids)
  then ∃ zs, mapO (obsSceneItemId_of this) ids = Ret zs
  else mapO (obsSceneItemId_of this) ids = Throw TypeError.
Proof.
  intros Hd.
  assert (Hone : ∀ i, obsSceneItemId_of this i
                      = match find_row i (rows_of (items this)) with
                        | Some m => Ret (obsSceneItemId m)
                        | None => Throw TypeError
                        end).
  { intros i. unfold obsSceneItemId_of. rewrite (defined_rows _ Hd) at 1.
    by rewrite find_model_Some. }
  induction ids as [|i ids IH].
  - rewrite decide_True by constructor. by eexists.
  - simpl. rewrite Hone.
    destruct (find_row i (rows_of (items this))) as [m|] eqn:Hi.
    + simpl. apply find_row_Some in Hi as [Hm <-].
      destruct (decide (Forall (λ i, i ∈ item_ids this) ids)) as [Hall|Hnot].
      * destruct IH as [zs ->]. rewrite decide_True; [by eexists|].
        constructor; [by apply list_elem_of_fmap_2|done].
      * rewrite IH. rewrite decide_False; [done|].
        by intros [_ Hall]%Forall_cons.
    + simpl. rewrite decide_False; [done|].
      intros [Hin _]%Forall_cons. apply find_row_None in Hi. by apply Hi.
Qed.

(** X5: on a scene whose [items] array has no undefined slot,
    [makeItemsActive] looks every id up before it changes anything: when all
    the ids are ids of items the call returns and [activeItemIds] is the
    list given, items and name untouched; when one of them is not, the call
    throws a TypeError and the store is as it was. *)
Theorem makeItemsActive_all_or_nothing (st : Store) (self : string) (this : IScene)
    (sceneItemIds : list string)
    (Hself : scenes st !! self = Some this) (Hdef : items_defined this) :
  ((∀ i, i ∈ sceneItemIds → i ∈ item_ids this) →
   makeItemsActive self sceneItemIds st
   = (Ret (), set_scenes (<[self := set_activeItemIds sceneItemIds this]> (scenes st)) st)) ∧
  ((∃ i, i ∈ sceneItemIds ∧ i ∉ item_ids this) →
   makeItemsActive self sceneItemIds st = (Throw TypeError, st)).
Proof.
  pose proof (mapO_obsSceneItemId_of this sceneItemIds Hdef) as Hmap.
  unfold makeItemsActive, bindM, read, commit. rewrite Hself. split.
  - intros Hall. rewrite decide_True in Hmap by (by apply Forall_forall).
    destruct Hmap as [zs ->]. simpl. by rewrite Hself.
  - intros (i & Hi & Hout). rewrite decide_False in Hmap; [by rewrite Hmap|].
    intros Hall. rewrite Forall_forall in Hall. by apply Hout, Hall.
Qed.

Lemma makeItemsActive_all_or_nothing_witness :
  makeItemsActive "S1" ["i3"; "i2"] studio
  = (Ret (), set_scenes (<["S1" := set_activeItemIds ["i3"; "i2"] scene_S1]> (scenes studio))
               studio) ∧
  makeItemsActive "S1" ["i3"; "zz"] studio = (Throw TypeError, studio).
Proof.
  assert (Hd : items_defined scene_S1) by apply Forall_is_Some_fmap.
  split.
  - apply (proj1 (makeItemsActive_all_or_nothing studio "S1" scene_S1 ["i3"; "i2"]
                    eq_refl Hd)).
    intros i Hi. apply (bool_decide_unpack _).
    apply elem_of_cons in Hi as [->|Hi]; [by vm_compute|].
    apply list_elem_of_singleton in Hi as ->. by vm_compute.
  - apply (proj2 (makeItemsActive_all_or_nothing studio "S1" scene_S1 ["i3"; "zz"]
                    eq_refl Hd)).
    exists "zz". split; [right; left|]. apply (bool_decide_unpack _). by vm_compute.
Defined.

(** ** setSourceOrder beyond permutations *)

Lemma reordered_slot (order : list string) (this : IScene) (k : nat) (i : string) :
  order !! k = Some i →
  (i ∈ item_ids this →
   ∃ m, items (reordered order this) !! k = Some (Some m) ∧ sceneItemId m = i ∧
        m ∈ rows_of (items this)) ∧
  (i ∉ item_ids this → items (reordered order this) !! k = Some None).
Proof.
  intros Hk. unfold reordered. simpl. rewrite list_lookup_fmap, Hk. simpl. split.
  - intros Hi. destruct (find_row_elem _ _ Hi) as [m Hm]. rewrite Hm.
    apply find_row_Some in Hm as [Hin Hid]. by exists m.
  - intros Hi. apply find_row_None in Hi. by rewrite Hi.
Qed.

(** X6: on an [items] array without holes [setSourceOrder] always returns,
    and what it stores depends on [order] alone, not on the item and the
    delta handed to the backend: one slot for each id of [order], holding a
    row of that id when the scene had one and [undefined] when it had none.
    Name and active ids stay. *)
Theorem setSourceOrder_stores_order (st : Store) (self : string) (this : IScene)
    (order : list string)
    (Hself : scenes st !! self = Some this) (Hdef : items_defined this) :
  ∃ this',
    (∀ sceneItemId positionDelta,
       setSourceOrder self sceneItemId positionDelta order st
       = (Ret (), set_scenes (<[self := this']> (scenes st)) st)) ∧
    length (items this') = length order ∧
    activeItemIds this' = activeItemIds this ∧
    scene_name this' = scene_name this ∧ scene_id this' = scene_id this ∧
    ∀ k i, order !! k = Some i →
      (i ∈ item_ids this →
       ∃ m, items this' !! k = Some (Some m) ∧ sceneItemId m = i ∧
            m ∈ rows_of (items this)) ∧
      (i ∉ item_ids this → items this' !! k = Some None).
Proof.
  exists (reordered order this). split; [|split; [|split; [|split; [|split]]]]; try done.
  - intros id delta. by apply setSourceOrder_defined.
  - unfold reordered. simpl. by rewrite length_fmap.
  - apply reordered_slot.
Qed.

Lemma setSourceOrder_stores_order_witness :
  ∃ this',
    (∀ sceneItemId positionDelta,
       setSourceOrder "S1" sceneItemId positionDelta ["i3"; "zz"] studio
       = (Ret (), set_scenes (<["S1" := this']> (scenes studio)) studio)) ∧
    length (items this') = length ["i3"; "zz"] ∧
    activeItemIds this' = activeItemIds scene_S1 ∧
    scene_name this' = scene_name scene_S1 ∧ scene_id this' = scene_id scene_S1 ∧
    ∀ k i, ["i3"; "zz"] !! k = Some i →
      (i ∈ item_ids scene_S1 →
       ∃ m, items this' !! k = Some (Some m) ∧ sceneItemId m = i ∧
            m ∈ rows_of (items scene_S1)) ∧
      (i ∉ item_ids scene_S1 → items this' !! k = Some None).
Proof.
  exact (setSourceOrder_stores_order studio "S1" scene_S1 ["i3"; "zz"] eq_refl
           (Forall_is_Some_fmap _)).
Defined.

Lemma reordered_hole (order : list string) (this : IScene) (i : string) :
  i ∈ order → i ∉ item_ids this → ¬ items_defined (reordered order this).
Proof.
  intros Hin Hout Hd. apply list_elem_of_lookup in Hin as [k Hk].
  destruct (reordered_slot order this k i Hk) as [_ Hnone].
  unfold items_defined in Hd. rewrite Forall_lookup in Hd.
  destruct (Hd k None (Hnone Hout)) as [m Hm]. discriminate Hm.
Qed.

(** X7: on a scene whose [items] array has no undefined slot, an id in
    [order] that no item carries is not refused: the call returns and leaves
    a hole in [items]; from then on [getItems], [hasNestedScene] and
    [getNestedItems] on that scene throw a TypeError. *)
Theorem setSourceOrder_unknown_id_breaks_scene (st : Store) (self : string)
    (this : IScene) (sceneItemId : string) (positionDelta : Z) (order : list string)
    (i : string)
    (Hself : scenes st !! self = Some this) (Hdef : items_defined this)
    (Hin : i ∈ order) (Hout : i ∉ item_ids this) :
  ∃ st' this',
    setSourceOrder self sceneItemId positionDelta order st = (Ret (), st') ∧
    scenes st' !! self = Some this' ∧
    ¬ items_defined this' ∧
    getItems this' = Throw TypeError ∧
    (∀ fuel x, hasNestedScene (S fuel) st' this' x = Throw TypeError) ∧
    (∀ fuel excludeScenes,
       getNestedItems (S fuel) st' this' excludeScenes = Throw TypeError).
Proof.
  eexists _, (reordered order this).
  split; [by apply setSourceOrder_defined|].
  split; [apply lookup_insert_eq|].
  pose proof (reordered_hole order this i Hin Hout) as Hhole.
  pose proof (getItems_hole _ Hhole) as Hget.
  split; [done|]. split; [done|]. split.
  - intros fuel x. simpl. unfold childScenes. by rewrite Hget.
  - intros fuel excludeScenes. simpl. by rewrite Hget.
Qed.

Lemma setSourceOrder_unknown_id_breaks_scene_witness :
  ∃ st' this',
    setSourceOrder "S1" "i3" 0 ["i3"; "zz"] studio = (Ret (), st') ∧
    scenes st' !! "S1" = Some this' ∧
    ¬ items_defined this' ∧
    getItems this' = Throw TypeError ∧
    (∀ fuel x, hasNestedScene (S fuel) st' this' x = Throw TypeError) ∧
    (∀ fuel excludeScenes,
       getNestedItems (S fuel) st' this' excludeScenes = Throw TypeError).
Proof.
  apply (setSourceOrder_unknown_id_breaks_scene studio "S1" scene_S1 "i3" 0
           ["i3"; "zz"] "zz" eq_refl (Forall_is_Some_fmap _)).
  - right. left.
  - apply (bool_decide_unpack _). by vm_compute.
Defined.

(** ** removeItem, composed *)

Lemma removed_absent (id : string) (this : IScene) : id ∉ item_ids (removed id this).
Proof.
  unfold item_ids, removed. simpl. rewrite rows_of_Some.
  intros (m & -> & Hm)%list_elem_of_fmap.
  apply list_elem_of_filter in Hm as [Hne _]. by apply Hne.
Qed.

(** X8: an item can be removed once: after a [removeItem] that returned, a
    second [removeItem] of the same id throws "SceneItem ... not found" and
    changes nothing. *)
Theorem removeItem_twice (st : Store) (self id : string) (this : IScene)
    (Hself : scenes st !! self = Some this) (Hdef : items_defined this)
    (Hin : id ∈ item_ids this) :
  ∃ st1,
    removeItem self id st = (Ret (), st1) ∧
    removeItem self id st1 = (Throw (not_found "SceneItem" id), st1).
Proof.
  eexists. split; [by apply removeItem_present|].
  apply (removeItem_missing _ self id (removed id this)).
  - apply lookup_insert_eq.
  - apply Forall_is_Some_fmap.
  - apply removed_absent.
Qed.

Lemma removeItem_twice_witness :
  ∃ st1,
    removeItem "S1" "i2" studio = (Ret (), st1) ∧
    removeItem "S1" "i2" st1 = (Throw (not_found "SceneItem" "i2"), st1).
Proof.
  apply (removeItem_twice studio "S1" "i2" scene_S1 eq_refl (Forall_is_Some_fmap _)).
  apply (bool_decide_unpack _). by vm_compute.
Defined.

Lemma removed_added (this : IScene) (source : Source) (options : ISceneItemAddOptions)
    (uniqueId : string) (obsSceneItem : ObsSceneItem) :
  items_defined this → chosen_sceneItemId options uniqueId ∉ item_ids this →
  removed (chosen_sceneItemId options uniqueId)
          (added this source options uniqueId obsSceneItem)
  = set_activeItemIds [] this.
Proof.
  intros Hd Hfresh. unfold removed, added, set_activeItemIds. simpl. f_equal.
  - rewrite filter_cons, decide_False by (intros Hne; by apply Hne). done.
  - unfold rows_of. csimpl. fold (rows_of (items this)).
    rewrite filter_cons, decide_False by (intros Hne; by apply Hne).
    rewrite filter_rows_absent by done. symmetry. by apply defined_rows.
Qed.

(** X9: on a scene whose [items] array has no undefined slot, adding a
    source under an id the scene does not use and removing the item again
    gives back the [items] array the scene had; of the active ids none is
    left. *)
Theorem addSource_then_removeItem (fuel : nat) (st : Store) (self srcId : string)
    (this : IScene) (source : Source) (options : ISceneItemAddOptions)
    (uniqueId : string) (obsSceneItem : ObsSceneItem)
    (Hself : scenes st !! self = Some this) (Hdef : items_defined this)
    (Hsrc : getSource st srcId = Some source)
    (Hcan : canAddSource fuel st this srcId = Ret true)
    (Hfresh : chosen_sceneItemId options uniqueId ∉ item_ids this) :
  ∃ h st1,
    addSource fuel self srcId options uniqueId obsSceneItem st = (Ret (Some h), st1) ∧
    removeItem self (si_sceneItemId h) st1
    = (Ret (), set_scenes (<[self := set_activeItemIds [] this]> (scenes st)) st).
Proof.
  eexists _, _. split; [by apply (addSource_accepted _ _ this _ source)|]. simpl.
  rewrite (removeItem_present _ self _ (added this source options uniqueId obsSceneItem)).
  - rewrite removed_added by done. rewrite set_scenes_twice. simpl.
    by rewrite insert_insert_eq.
  - apply lookup_insert_eq.
  - constructor; [by eexists|done].
  - left.
Qed.

Lemma addSource_then_removeItem_witness :
  ∃ h st1,
    addSource 3 "S1" "cam1" (with_id "k1") "u1" (fresh_obs 9) studio = (Ret (Some h), st1) ∧
    removeItem "S1" (si_sceneItemId h) st1
    = (Ret (), set_scenes (<["S1" := set_activeItemIds [] scene_S1]> (scenes studio)) studio).
Proof.
  apply (addSource_then_removeItem 3 studio "S1" "cam1" scene_S1
           (a_source "cam1" "ffmpeg_source") (with_id "k1") "u1" (fresh_obs 9)
           eq_refl (Forall_is_Some_fmap _) eq_refl eq_refl).
  apply (bool_decide_unpack _). by vm_compute.
Defined.

(** ** hasNestedScene and getNestedItems on any graph *)

Lemma well_formed_regular (st : Store) : well_formed st → regular st.
Proof. intros [Hk _ _ _ Hd Hu _]. by split. Qed.

Lemma childScenes_regular (st : Store) (k : string) (this : IScene) :
  regular st → scenes st !! k = Some this →
  childScenes st this = Ret (getScene st <$> child_ids st this).
Proof.
  intros Hreg Hk. apply childScenes_defined.
  - by apply (reg_items_defined st Hreg k).
  - by apply (reg_ids_unique st Hreg k).
Qed.

(** What an answer of the loop of [hasNestedScene] tells about the children. *)
Lemma any_child_inv (st : Store) (rec : IScene → outcome bool) (x : string)
    (cs : list string) (b : bool) :
  any_child rec x (getScene st <$> cs) = Ret b →
  if b
  then ∃ c sc, c ∈ cs ∧ scenes st !! c = Some sc ∧ (scene_id sc = x ∨ rec sc = Ret true)
  else ∀ c, c ∈ cs → ∃ sc, scenes st !! c = Some sc ∧ scene_id sc ≠ x ∧ rec sc = Ret false.
Proof.
  induction cs as [|c cs IH]; csimpl.
  - intros [= <-]. by intros c ?%elem_of_nil.
  - unfold getScene at 1. destruct (scenes st !! c) as [sc|] eqn:Hsc; [|done].
    destruct (decide (scene_id sc = x)) as [Hx|Hx].
    { intros [= <-]. exists c, sc. split; [left|]. split; [done|by left]. }
    destruct (rec sc) as [[|]| |] eqn:Hrec; simpl; try done.
    { intros [= <-]. exists c, sc. split; [left|]. split; [done|by right]. }
    intros Hrest. specialize (IH Hrest). destruct b.
    + destruct IH as (c' & sc' & Hc' & Hsc' & Hor). exists c', sc'.
      split; [by right|done].
    + intros c' [->|Hc']%elem_of_cons; [by exists sc|by apply IH].
Qed.

Lemma hasNestedScene_sound (st : Store) (Hreg : regular st) (x : string) :
  ∀ fuel k this b,
    scenes st !! k = Some this → hasNestedScene fuel st this x = Ret b →
    (b = true ↔ contains st this x).
Proof.
  induction fuel as [|fuel IH]; intros k this b Hk Hrun; [done|].
  simpl in Hrun. rewrite (childScenes_regular st k this Hreg Hk) in Hrun. simpl in Hrun.
  apply any_child_inv in Hrun. destruct b.
  - split; [intros _|done].
    destruct Hrun as (c & sc & Hc & Hsc & Hor).
    pose proof (reg_scene_keys st Hreg c sc Hsc) as Hid.
    exists c. split; [by apply shows_child_ids|].
    destruct Hor as [Hx|Hrec]; [left; congruence|right].
    apply (contains_nested st c x sc Hsc). by apply (IH c sc true Hsc).
  - split; [done|]. intros (c & Hc & Hor). apply shows_child_ids in Hc.
    destruct (Hrun c Hc) as (sc & Hsc & Hne & Hrec).
    pose proof (reg_scene_keys st Hreg c sc Hsc) as Hid.
    destruct Hor as [Hx|Hnest]; [congruence|].
    apply (contains_nested st c x sc Hsc) in Hnest.
    by apply (IH c sc false Hsc Hrec) in Hnest.
Qed.

(** X10: whatever the graph, cyclic or not, an answer of [hasNestedScene] is
    right: in a store whose [items] arrays have no hole and no id twice, a
    call that returns, returns true exactly when [sceneId] is a child scene
    of this scene or nested within one. *)
Theorem hasNestedScene_answer_is_right (st : Store) (self : string) (this : IScene)
    (sceneId : string) (fuel : nat) (b : bool)
    (Hreg : regular st) (Hself : scenes st !! self = Some this)
    (Hrun : hasNestedScene fuel st this sceneId = Ret b) :
  b = true ↔ contains st this sceneId.
Proof. by apply (hasNestedScene_sound st Hreg sceneId fuel self this b). Qed.

Lemma looped_regular : regular looped.
Proof.
  assert (H : ∀ k s, scenes looped !! k = Some s → k = "L" ∧ s = scene_L).
  { intros k s Hk. unfold looped in Hk. simpl in Hk.
    apply lookup_insert_Some in Hk as [[<- <-]|[_ Hk]]; [done|].
    by rewrite lookup_empty in Hk. }
  split; intros k s [-> ->]%H.
  - done.
  - apply Forall_is_Some_fmap.
  - apply (bool_decide_unpack _). by vm_compute.
Qed.

Lemma hasNestedScene_answer_is_right_witness :
  true = true ↔ contains looped scene_L "L".
Proof.
  exact (hasNestedScene_answer_is_right looped "L" scene_L "L" 1 true
           looped_regular eq_refl eq_refl).
Defined.

Lemma reaches_cycle_step (st : Store) (k : string) :
  reaches_cycle st k → ∃ d, child st k d ∧ reaches_cycle st d.
Proof.
  intros (c & Hkc & Hcc). destruct Hkc as [k|k d c Hkd Hdc].
  - inversion Hcc as [? ? Hch|? d ? Hch Hdk]; subst.
    + exists k. split; [done|]. exists k. split; [done|by apply tc_once].
    + exists d. split; [done|]. exists k. split; [by apply tc_rtc|done].
  - exists d. split; [done|]. by exists c.
Qed.

Lemma mapO_Ret_elem {A B : Type} (f : A → outcome B) (l : list A) (bs : list B) :
  mapO f l = Ret bs → ∀ a, a ∈ l → ∃ b, f a = Ret b.
Proof.
  revert bs. induction l as [|a l IH]; intros bs Hmap a' Ha'.
  - by apply elem_of_nil in Ha'.
  - simpl in Hmap. apply bindO_Ret in Hmap as (b & Hb & Hmap).
    apply bindO_Ret in Hmap as (bs' & Hbs & _).
    apply elem_of_cons in Ha' as [->|Ha']; [by exists b|by apply (IH bs')].
Qed.

Lemma hasNestedScene_cycle_not_false (st : Store) (Hreg : regular st) (x : string) :
  ∀ fuel k this,
    scenes st !! k = Some this → reaches_cycle st k →
    hasNestedScene fuel st this x ≠ Ret false.
Proof.
  induction fuel as [|fuel IH]; intros k this Hk Hcyc Hrun; [done|].
  simpl in Hrun. rewrite (childScenes_regular st k this Hreg Hk) in Hrun. simpl in Hrun.
  apply any_child_inv in Hrun.
  destruct (reaches_cycle_step st k Hcyc) as (d & (this' & Hk' & Hshow) & Hd).
  rewrite Hk in Hk'. injection Hk' as <-. apply shows_child_ids in Hshow.
  destruct (Hrun d Hshow) as (sc & Hsc & _ & Hrec).
  by apply (IH d sc Hsc Hd).
Qed.

Lemma getNestedItems_cycle_no_return (st : Store) (Hreg : regular st) :
  ∀ fuel k this excludeScenes r,
    scenes st !! k = Some this → reaches_cycle st k →
    getNestedItems fuel st this excludeScenes ≠ Ret r.
Proof.
  induction fuel as [|fuel IH]; intros k this excludeScenes r Hk Hcyc Hrun; [done|].
  simpl in Hrun.
  rewrite getItems_defined in Hrun
    by (by eapply reg_items_defined || by eapply reg_ids_unique).
  simpl in Hrun. rewrite filterO_scene_rows in Hrun. simpl in Hrun.
  apply bindO_Ret in Hrun as (nestedItems & Hmap & _).
  destruct (reaches_cycle_step st k Hcyc) as (d & (this' & Hk' & Hshow) & Hd).
  rewrite Hk in Hk'. injection Hk' as <-. apply shows_child_ids in Hshow.
  unfold child_ids in Hshow. apply list_elem_of_fmap in Hshow as (m & -> & Hm).
  destruct (mapO_Ret_elem _ _ _ Hmap (Some (new_SceneItem (scene_id this) m)))
    as [sub Hsub].
  { by apply (list_elem_of_fmap_2 (λ m, Some (new_SceneItem (scene_id this) m))). }
  unfold nested_of_item in Hsub. simpl in Hsub. unfold getScene in Hsub.
  destruct (scenes st !! sourceId m) as [sc|] eqn:Hsc; [|done].
  by apply (IH (sourceId m) sc false sub Hsc Hd).
Qed.

(** X11: in a store whose [items] arrays have no hole and no id twice, on a
    scene from which a cycle of the graph can be reached [hasNestedScene]
    never answers false and [getNestedItems] never returns: every run ends
    in an answer true, a throw, or an exhausted budget. *)
Theorem cycle_never_false_never_items (st : Store) (self : string) (this : IScene)
    (Hreg : regular st) (Hself : scenes st !! self = Some this)
    (Hcyc : reaches_cycle st self) :
  (∀ fuel sceneId, hasNestedScene fuel st this sceneId ≠ Ret false) ∧
  (∀ fuel excludeScenes r, getNestedItems fuel st this excludeScenes ≠ Ret r).
Proof.
  split.
  - intros fuel x. by apply (hasNestedScene_cycle_not_false st Hreg x fuel self).
  - intros fuel e r. by apply (getNestedItems_cycle_no_return st Hreg fuel self).
Qed.

Lemma cycle_never_false_never_items_witness :
  (∀ fuel sceneId, hasNestedScene fuel looped scene_L sceneId ≠ Ret false) ∧
  (∀ fuel excludeScenes r, getNestedItems fuel looped scene_L excludeScenes ≠ Ret r).
Proof.
  apply (cycle_never_false_never_items looped "L" scene_L looped_regular eq_refl).
  exists "L". split; [done|apply looped_is_cyclic].
Defined.

(** ** The graph after addSource, removeItem and addSources *)

Lemma tc_add_edge {A : Type} (R R' : relation A) (u v : A) :
  (∀ a b, R' a b → R a b ∨ (a = u ∧ b = v)) →
  ∀ x y, tc R' x y → tc R x y ∨ (rtc R x u ∧ rtc R v y).
Proof.
  intros Hedge x y Hxy. induction Hxy as [x y Hxy|x z y Hxz _ IH].
  - apply Hedge in Hxy as [Hxy|[-> ->]]; [left; by apply tc_once|by right].
  - apply Hedge in Hxz as [Hxz|[-> ->]].
    + destruct IH as [IH|[Hzu Hvy]]; [left; by eapply tc_l|right].
      split; [by eapply rtc_l|done].
    + right. split; [done|]. destruct IH as [IH|[_ Hvy]]; [by apply tc_rtc|done].
Qed.

Lemma tc_sub {A : Type} (R R' : relation A) :
  (∀ a b, R' a b → R a b) → ∀ x y, tc R' x y → tc R x y.
Proof.
  intros Hsub x y Hxy. induction Hxy as [x y Hxy|x z y Hxz _ IH].
  - apply tc_once. by apply Hsub.
  - eapply tc_l; [by apply Hsub|done].
Qed.

(** The edges of the graph after a successful [addSource]. *)
Lemma child_added (st : Store) (self srcId : string) (this : IScene) (source : Source)
    (options : ISceneItemAddOptions) (uniqueId : string) (obsSceneItem : ObsSceneItem)
    (a b : string) :
  scenes st !! self = Some this → getSource st srcId = Some source →
  src_sourceId source = srcId →
  child (set_scenes (<[self := added this source options uniqueId obsSceneItem]> (scenes st))
           st) a b →
  child st a b ∨ (a = self ∧ b = srcId ∧ src_type source = "scene").
Proof.
  intros Hself Hsrc Hkey (this' & Hthis' & m & source' & Hm & Hb & Hsrc' & Hty).
  simpl in Hthis'. unfold getSource in Hsrc'. simpl in Hsrc'.
  apply lookup_insert_Some in Hthis' as [[<- <-]|[Hne Hthis']].
  - unfold added, rows_of in Hm. csimpl in Hm. fold (rows_of (items this)) in Hm.
    apply elem_of_cons in Hm as [->|Hm].
    + simpl in Hb. right. rewrite Hkey in Hb. subst b.
      unfold getSource in Hsrc. rewrite Hsrc in Hsrc'. by simplify_eq.
    + left. exists this. split; [done|]. by exists m, source'.
  - left. exists this'. split; [done|]. by exists m, source'.
Qed.

Lemma canAddSource_true_scene (fuel : nat) (st : Store) (self srcId : string)
    (this : IScene) (source : Source) :
  well_formed st → scenes st !! self = Some this →
  getSource st srcId = Some source → src_type source = "scene" →
  canAddSource fuel st this srcId = Ret true →
  srcId ≠ self ∧ ¬ nested st srcId self.
Proof.
  intros Hwf Hself Hsrc Hty Hcan. unfold canAddSource in Hcan. rewrite Hsrc in Hcan.
  rewrite decide_False in Hcan by (intros Hne; by apply Hne).
  rewrite (wf_scene_keys st Hwf self this Hself) in Hcan.
  rewrite (wf_source_keys st Hwf srcId source Hsrc) in Hcan.
  destruct (decide (self = srcId)) as [Heq|Hne]; [done|].
  split; [congruence|].
  unfold getScene in Hcan.
  destruct (scenes st !! srcId) as [sceneToAdd|] eqn:Hadd; [|done].
  apply bindO_Ret in Hcan as (b & Hrun & Hb). destruct b; [done|].
  intros Hnest. apply (contains_nested st srcId self sceneToAdd Hadd) in Hnest.
  by apply (hasNestedScene_sound st (well_formed_regular st Hwf) self fuel srcId
              sceneToAdd false Hadd Hrun) in Hnest.
Qed.

Lemma added_acyclic (fuel : nat) (st : Store) (self srcId : string) (this : IScene)
    (source : Source) (options : ISceneItemAddOptions) (uniqueId : string)
    (obsSceneItem : ObsSceneItem) :
  well_formed st → scenes st !! self = Some this →
  getSource st srcId = Some source →
  canAddSource fuel st this srcId = Ret true →
  acyclic (set_scenes (<[self := added this source options uniqueId obsSceneItem]>
                         (scenes st)) st).
Proof.
  intros Hwf Hself Hsrc Hcan a Ha.
  pose proof (wf_source_keys st Hwf srcId source Hsrc) as Hkey.
  destruct (decide (src_type source = "scene")) as [Hty|Hty].
  - destruct (canAddSource_true_scene fuel st self srcId this source) as [Hne Hnot];
      [done..|].
    apply (tc_add_edge (child st) _ self srcId) in Ha as [Ha|[Hau Hva]].
    + by apply (wf_acyclic st Hwf a).
    + assert (Hvu : rtc (child st) srcId self) by (by etrans).
      apply rtc_tc in Hvu as [Heq|Hvu]; [done|by apply Hnot].
    + intros x y Hxy.
      destruct (child_added st self srcId this source options uniqueId obsSceneItem
                  x y Hself Hsrc Hkey Hxy) as [?|(? & ? & _)]; [by left|by right].
  - apply (wf_acyclic st Hwf a). revert Ha. apply tc_sub. intros x y Hxy.
    destruct (child_added st self srcId this source options uniqueId obsSceneItem
                x y Hself Hsrc Hkey Hxy) as [?|(_ & _ & ?)]; done.
Qed.

(** X12: one call of [addSource] on a well-formed store, whatever it
    answers, leaves an acyclic graph; and it leaves a well-formed store when
    the id chosen for the new item is not an id of the scene's items. *)
Theorem addSource_keeps_acyclic (fuel : nat) (st : Store) (self srcId : string)
    (options : ISceneItemAddOptions) (uniqueId : string) (obsSceneItem : ObsSceneItem)
    (r : outcome (option SceneItem)) (st' : Store)
    (Hwf : well_formed st)
    (Hadd : addSource fuel self srcId options uniqueId obsSceneItem st = (r, st')) :
  acyclic st' ∧
  ((∀ this, scenes st !! self = Some this →
            chosen_sceneItemId options uniqueId ∉ item_ids this) →
   well_formed st').
Proof.
  destruct r as [[h|]| |];
    try (rewrite (addSource_no_item_unchanged _ _ _ _ _ _ _ _ _ Hadd) by done;
         split; [by apply wf_acyclic|done]).
  destruct (addSource_Some_inv _ _ _ _ _ _ _ _ _ Hadd) as (this & source & Hself & Hsrc & Hcan).
  rewrite (addSource_accepted _ _ this _ source) in Hadd by done.
  injection Hadd as _ <-.
  pose proof (added_acyclic fuel st self srcId this source options uniqueId obsSceneItem
                Hwf Hself Hsrc Hcan) as Hacyc.
  split; [done|]. intros Hfresh. split; simpl.
  - intros k s [[<- <-]|[_ Hk]]%lookup_insert_Some; simpl.
    + by apply (wf_scene_keys st Hwf).
    + by apply (wf_scene_keys st Hwf).
  - apply (wf_source_keys st Hwf).
  - intros k src Hk Hty. destruct (decide (self = k)) as [<-|Hne].
    + rewrite lookup_insert_eq. by eexists.
    + rewrite lookup_insert_ne by done. by apply (wf_scene_sources st Hwf k src).
  - intros k s [[<- <-]|[_ Hk]]%lookup_insert_Some.
    + by apply (wf_scenes_registered st Hwf self this).
    + by apply (wf_scenes_registered st Hwf k s).
  - intros k s [[<- <-]|[_ Hk]]%lookup_insert_Some.
    + constructor; [by eexists|by apply (wf_items_defined st Hwf self)].
    + by apply (wf_items_defined st Hwf k).
  - intros k s [[<- <-]|[_ Hk]]%lookup_insert_Some.
    + unfold item_ids. simpl. apply NoDup_cons. split; [by apply Hfresh|].
      by apply (wf_ids_unique st Hwf self).
    + by apply (wf_ids_unique st Hwf k).
  - done.
Qed.

Lemma addSource_keeps_acyclic_witness :
  ¬ child duo "B" "A" ∧
  addSource 3 "B" "A" (with_id "a") "u1" (fresh_obs 2) duo
  = (Ret (Some {| si_sceneId := "B"; si_sceneItemId := "a"; si_sourceId := "A" |}), duo_1) ∧
  child duo_1 "B" "A" ∧
  acyclic duo_1 ∧
  well_formed duo_1.
Proof.
  split; [apply duo_child|].
  split; [apply duo_1_run|].
  split.
  { exists scene_B1. split; [by vm_compute|].
    apply shows_child_ids.
    replace (child_ids duo_1 scene_B1) with ["A"] by (by vm_compute). left. }
  destruct (addSource_keeps_acyclic 3 duo "B" "A" (with_id "a") "u1" (fresh_obs 2)
              _ duo_1 duo_well_formed duo_1_run) as [Hacyclic Hwf].
  split; [exact Hacyclic|]. apply Hwf.
  intros this Hthis. apply duo_scenes in Hthis as [[[=] _]|[_ ->]].
  apply (bool_decide_unpack _). by vm_compute.
Defined.

Lemma child_removed (st : Store) (self id : string) (this : IScene) (a b : string) :
  scenes st !! self = Some this →
  child (set_scenes (<[self := removed id this]> (scenes st)) st) a b → child st a b.
Proof.
  intros Hself (this' & Hthis' & m & source & Hm & Hb & Hsrc & Hty).
  simpl in Hthis'. apply lookup_insert_Some in Hthis' as [[<- <-]|[Hne Hthis']].
  - unfold removed in Hm. simpl in Hm. rewrite rows_of_Some in Hm.
    apply list_elem_of_filter in Hm as [_ Hm].
    exists this. split; [done|]. by exists m, source.
  - exists this'. split; [done|]. by exists m, source.
Qed.

(** X13: [removeItem] keeps a well-formed store well formed, whatever it
    answers; in particular it creates no cycle. *)
Theorem removeItem_keeps_well_formed (st : Store) (self id : string)
    (r : outcome unit) (st' : Store)
    (Hwf : well_formed st) (Hrm : removeItem self id st = (r, st')) :
  well_formed st'.
Proof.
  destruct (scenes st !! self) as [this|] eqn:Hself.
  2:{ unfold removeItem, bindM, read in Hrm. rewrite Hself in Hrm. by simplify_eq/=. }
  pose proof (wf_items_defined st Hwf self this Hself) as Hd.
  destruct (decide (id ∈ item_ids this)) as [Hin|Hout].
  2:{ rewrite (removeItem_missing st self id this Hself Hd Hout) in Hrm.
      by injection Hrm as <- <-. }
  rewrite (removeItem_present st self id this Hself Hd Hin) in Hrm.
  injection Hrm as <- <-. split; simpl.
  - intros k s [[<- <-]|[_ Hk]]%lookup_insert_Some; simpl;
      by apply (wf_scene_keys st Hwf).
  - apply (wf_source_keys st Hwf).
  - intros k src Hk Hty. destruct (decide (self = k)) as [<-|Hne].
    + rewrite lookup_insert_eq. by eexists.
    + rewrite lookup_insert_ne by done. by apply (wf_scene_sources st Hwf k src).
  - intros k s [[<- <-]|[_ Hk]]%lookup_insert_Some.
    + by apply (wf_scenes_registered st Hwf self this).
    + by apply (wf_scenes_registered st Hwf k s).
  - intros k s [[<- <-]|[_ Hk]]%lookup_insert_Some.
    + apply Forall_is_Some_fmap.
    + by apply (wf_items_defined st Hwf k).
  - intros k s [[<- <-]|[_ Hk]]%lookup_insert_Some.
    + unfold item_ids, removed. simpl. rewrite rows_of_Some.
      apply NoDup_ids_filter. by apply (wf_ids_unique st Hwf self).
    + by apply (wf_ids_unique st Hwf k).
  - intros a Ha. apply (wf_acyclic st Hwf a). revert Ha. apply tc_sub.
    intros x y. by apply child_removed.
Qed.

Lemma removeItem_keeps_well_formed_witness :
  well_formed (removeItem "S1" "i1" studio).2.
Proof.
  exact (removeItem_keeps_well_formed studio "S1" "i1" (removeItem "S1" "i1" studio).1
           (removeItem "S1" "i1" studio).2 studio_well_formed (surjective_pairing _)).
Defined.

(** ** addSources *)

Lemma arrayItems_of_length (st : Store) (infos : list ISceneItemInfo) :
  length (arrayItems_of st infos) = length (resolving st infos) ∧
  (length (arrayItems_of st infos) ≤ length infos)%nat.
Proof.
  unfold arrayItems_of, resolving. induction infos as [|item infos [IH1 IH2]]; [done|].
  csimpl. rewrite filter_cons.
  destruct (getSource st (info_sourceId item)) as [source|] eqn:Hsrc; simpl.
  - split; lia.
  - split; [done|lia].
Qed.

Lemma store_insert_same (st : Store) (self : string) (this : IScene) :
  scenes st !! self = Some this → set_scenes (<[self := this]> (scenes st)) st = st.
Proof. intros Hself. destruct st as [so sc]. unfold set_scenes. simpl in *. by rewrite insert_id. Qed.

Lemma addSources_from_run (self : string) (infos : list ISceneItemInfo) (obsIds : list Z)
    (arrayItems : list ArrayItem) :
  ∀ index st this,
    scenes st !! self = Some this →
    (index + length arrayItems ≤ length infos)%nat →
    (index + length arrayItems ≤ length obsIds)%nat →
    ∃ this',
      addSources_from self infos obsIds arrayItems index st
      = (Ret (), set_scenes (<[self := this']> (scenes st)) st) ∧
      item_ids this'
      = rev (info_id <$> take (length arrayItems) (drop index infos)) ++ item_ids this ∧
      sourceId <$> rows_of (items this')
      = rev (info_sourceId <$> take (length arrayItems) (drop index infos))
        ++ (sourceId <$> rows_of (items this)) ∧
      activeItemIds this' = activeItemIds this ∧
      scene_name this' = scene_name this ∧ scene_id this' = scene_id this ∧
      (items_defined this → items_defined this').
Proof.
  induction arrayItems as [|a rest IH]; intros index st this Hself Hinfos Hobs.
  - exists this. split; [by rewrite store_insert_same|]. done.
  - simpl in Hinfos, Hobs.
    destruct (lookup_lt_is_Some_2 infos index) as [item Hitem]; [lia|].
    destruct (lookup_lt_is_Some_2 obsIds index) as [obsId Hobs']; [lia|].
    rewrite (addSources_from_step st self this infos obsIds a rest index item obsId)
      by done.
    destruct (IH (S index)
                (set_scenes (<[self := restored item obsId a this]> (scenes st)) st)
                (restored item obsId a this))
      as (this' & Hrun & Hids & Hsrcs & Hact & Hname & Hid & Hdef);
      [apply lookup_insert_eq|lia..|].
    exists this'. rewrite Hrun, set_scenes_twice. simpl. rewrite insert_insert_eq.
    split; [done|].
    rewrite (drop_S _ _ _ Hitem). csimpl. rewrite Hids, Hsrcs.
    unfold item_ids, restored. simpl. rewrite <- !app_assoc. simpl.
    split; [done|]. split; [done|]. split; [done|]. split; [done|]. split; [done|].
    intros Hd. apply Hdef. constructor; [by eexists|done].
Qed.

(** X14: [addSources] restores as many rows as entries resolve, each at the
    front: given that many backend items it returns, and the new rows stand
    before the old ones in the reverse order of the entries.  The rows take
    their ids and source ids from the first entries of the list, as many as
    resolve, which are the resolving ones when all resolve.  Active ids and
    name stay. *)
Theorem addSources_restores_in_reverse (st : Store) (self : string) (this : IScene)
    (infos : list ISceneItemInfo) (obsIds : list Z)
    (Hself : scenes st !! self = Some this)
    (Hobs : (length (resolving st infos) ≤ length obsIds)%nat) :
  ∃ this',
    addSources self infos obsIds st
    = (Ret (), set_scenes (<[self := this']> (scenes st)) st) ∧
    item_ids this'
    = rev (info_id <$> take (length (resolving st infos)) infos) ++ item_ids this ∧
    sourceId <$> rows_of (items this')
    = rev (info_sourceId <$> take (length (resolving st infos)) infos)
      ++ (sourceId <$> rows_of (items this)) ∧
    activeItemIds this' = activeItemIds this ∧
    scene_name this' = scene_name this ∧ scene_id this' = scene_id this ∧
    (items_defined this → items_defined this').
Proof.
  destruct (arrayItems_of_length st infos) as [Hlen Hle].
  destruct (addSources_from_run self infos obsIds (arrayItems_of st infos) 0 st this)
    as (this' & Hrun & Hrest); [done|simpl; lia..|].
  exists this'. unfold addSources. rewrite Hrun. split; [done|].
  by rewrite Hlen, drop_0 in Hrest.
Qed.

Lemma addSources_restores_in_reverse_witness :
  ∃ this',
    addSources "S" [an_entry "e1" "a"; an_entry "e2" "b"] [1%Z; 2%Z] stage
    = (Ret (), set_scenes (<["S" := this']> (scenes stage)) stage) ∧
    item_ids this' = ["e2"; "e1"] ∧
    sourceId <$> rows_of (items this') = ["b"; "a"].
Proof.
  destruct (addSources_restores_in_reverse stage "S" (a_scene "S" [] [])
              [an_entry "e1" "a"; an_entry "e2" "b"] [1%Z; 2%Z] eq_refl)
    as (this' & Hrun & Hids & Hsrcs & _).
  { vm_compute. lia. }
  exists this'. split; [exact Hrun|]. split; [exact Hids|exact Hsrcs].
Defined.

(** X15: [addSources] does not ask [canAddSource]: an entry whose source is
    the scene itself is restored like any other, and the scene then contains
    itself. *)
Theorem addSources_can_nest_a_scene_in_itself (st : Store) (self : string)
    (this : IScene) (source : Source) (item : ISceneItemInfo) (obsId : Z)
    (Hself : scenes st !! self = Some this)
    (Hsrc : getSource st self = Some source)
    (Hty : src_type source = "scene")
    (Hitem : info_sourceId item = self) :
  ∃ st',
    addSources self [item] [obsId] st = (Ret (), st') ∧ nested st' self self.
Proof.
  eexists. split.
  - unfold addSources.
    replace (arrayItems_of st [item]) with [to_arrayItem source item]
      by (unfold arrayItems_of; csimpl; by rewrite Hitem, Hsrc).
    by rewrite (addSources_from_step st self this [item] [obsId] _ [] 0 item obsId).
  - apply tc_once. eexists. split; [apply lookup_insert_eq|].
    eexists _, source. split; [left|]. simpl. by rewrite Hitem.
Qed.

Lemma addSources_can_nest_a_scene_in_itself_witness :
  ∃ st',
    addSources "S1" [an_entry "e1" "S1"] [7%Z] studio = (Ret (), st') ∧
    nested st' "S1" "S1".
Proof.
  exact (addSources_can_nest_a_scene_in_itself studio "S1" scene_S1 (a_source "S1" "scene")
           (an_entry "e1" "S1") 7 eq_refl eq_refl eq_refl eq_refl).
Defined.

(** ** getNestedSources *)

Lemma mapO_source_of_item (st : Store) (l : list SceneItem) :
  mapO (source_of_item st) (Some <$> l)
  = Ret ((λ h, getSource st (si_sourceId h)) <$> l).
Proof. induction l as [|h l IH]; csimpl; [done|]. by rewrite IH. Qed.

(** X16: on a well-formed store [getNestedSources] returns, with every
    recursion budget above the number of registered scenes: the sources of
    the nested items, the first of every [sourceId] kept.  No [sourceId]
    occurs twice in the result, and every entry is what the registry answers
    for the source of an item of the traversal. *)
Theorem getNestedSources_distinct (st : Store) (self : string) (this : IScene)
    (Hwf : well_formed st) (Hself : scenes st !! self = Some this) :
  ∃ l srcs,
    traversal st this l ∧
    (∀ fuel, (size (scenes st) < fuel)%nat →
             getNestedSources fuel st this false = Ret srcs) ∧
    srcs = uniqBy key_sourceId
             ((λ h, getSource st (si_sourceId h)) <$> uniqBy si_sceneItemId l) ∧
    NoDup (key_sourceId <$> srcs) ∧
    ∀ s, s ∈ srcs → ∃ h, h ∈ l ∧ getSource st (si_sourceId h) = s.
Proof.
  destruct (traversal_exists_on_path st Hwf (S (size (scenes st))) [] self this Hself
              (on_path_nil st this)) as [l Hl]; [simpl; lia|].
  exists l. eexists. split; [done|]. split; [|split; [reflexivity|split]].
  - intros fuel Hfuel. unfold getNestedSources.
    destruct (getNestedItems_on_path st Hwf fuel [] self this l Hself (on_path_nil st this))
      as [-> _]; [simpl; lia|done|].
    simpl. by rewrite mapO_source_of_item.
  - apply uniqBy_NoDup.
  - intros s Hs. apply uniqBy_from_elem, list_elem_of_fmap in Hs as (h & -> & Hh).
    exists h. split; [|done]. by apply uniqBy_from_elem in Hh.
Qed.

Lemma getNestedSources_distinct_witness :
  ∃ l srcs,
    traversal studio scene_S1 l ∧
    (∀ fuel, (size (scenes studio) < fuel)%nat →
             getNestedSources fuel studio scene_S1 false = Ret srcs) ∧
    srcs = uniqBy key_sourceId
             ((λ h, getSource studio (si_sourceId h)) <$> uniqBy si_sceneItemId l) ∧
    NoDup (key_sourceId <$> srcs) ∧
    ∀ s, s ∈ srcs → ∃ h, h ∈ l ∧ getSource studio (si_sourceId h) = s.
Proof.
  exact (getNestedSources_distinct studio "S1" scene_S1 studio_well_formed eq_refl).
Defined.

(** In the studio the sources nested in S1 are S2 and the camera, once each. *)
Example getNestedSources_studio :
  getNestedSources 3 studio scene_S1 false
  = Ret [Some (a_source "S2" "scene"); Some (a_source "cam1" "ffmpeg_source")].
Proof. by vm_compute. Qed.

(** ** setName *)

(** X17: [setName] renames the source before the scene: when the scene's id
    is not the id of a registered source the call throws a TypeError and
    neither is renamed; otherwise the call returns, the scene has the new
    name and its id, items and active ids as before, every other scene is
    as before, and so is every source but the scene's own. *)
Theorem setName_source_first (st : Store) (self newName : string) (this : IScene)
    (Hself : scenes st !! self = Some this) :
  (getSource st (scene_id this) = None →
   setName self newName st = (Throw TypeError, st)) ∧
  (∀ source,
     getSource st (scene_id this) = Some source →
     ∃ st',
       setName self newName st = (Ret (), st') ∧
       scenes st' = <[self := set_name newName this]> (scenes st) ∧
       (∀ k, k ≠ scene_id this → sources st' !! k = sources st !! k) ∧
       (src_name <$> sources st' !! scene_id this) = Some newName).
Proof.
  unfold setName, bindM, read, rename_source, commit, getSource. rewrite Hself. simpl.
  split.
  - by intros ->.
  - intros source ->. simpl. rewrite Hself. eexists. split; [done|]. simpl.
    split; [done|]. split.
    + intros k Hk. by rewrite lookup_insert_ne.
    + by rewrite lookup_insert_eq.
Qed.

Lemma setName_source_first_witness :
  setName "L" "Loop" (set_sources ∅ looped) = (Throw TypeError, set_sources ∅ looped) ∧
  ∃ st',
    setName "S1" "Main" studio = (Ret (), st') ∧
    scenes st' = <["S1" := set_name "Main" scene_S1]> (scenes studio) ∧
    (∀ k, k ≠ scene_id scene_S1 → sources st' !! k = sources studio !! k) ∧
    (src_name <$> sources st' !! scene_id scene_S1) = Some "Main".
Proof.
  split.
  - apply (proj1 (setName_source_first (set_sources ∅ looped) "L" "Loop" scene_L eq_refl)).
    reflexivity.
  - apply (proj2 (setName_source_first studio "S1" "Main" scene_S1 eq_refl)
             (a_source "S1" "scene")).
    reflexivity.
Defined.

(** * Properties of the user service *)

Lemma truthy_true (s : string) : truthy s = true ↔ s ≠ EmptyString.
Proof. unfold truthy. apply bool_decide_eq_true. Qed.

Lemma isLoggedIn_true (s : IUserServiceState) :
  isLoggedIn s = true ↔ ∃ a, auth s = Some a ∧ auth_widgetToken a ≠ EmptyString.
Proof.
  unfold isLoggedIn. destruct (auth s) as [a|].
  - rewrite truthy_true. split; [by exists a|]. by intros (a' & [= <-] & ?).
  - split; [done|]. by intros (a' & ? & _).
Qed.

(** X18: the four getters answer exactly when [isLoggedIn] does: each of
    them is defined when somebody is logged in and [undefined] otherwise, the
    token it answers is never empty, and what they answer are the fields of
    the stored session. *)
Theorem getters_follow_isLoggedIn (s : IUserServiceState) :
  (isLoggedIn s = true ↔ is_Some (widgetToken s)) ∧
  (isLoggedIn s = true ↔ is_Some (platform s)) ∧
  (isLoggedIn s = true ↔ is_Some (username s)) ∧
  (isLoggedIn s = true ↔ is_Some (platformId s)) ∧
  (∀ t, widgetToken s = Some t → t ≠ EmptyString) ∧
  (∀ a, auth s = Some a → isLoggedIn s = true →
        widgetToken s = Some (auth_widgetToken a) ∧
        platform s = Some (auth_platform a) ∧
        username s = Some (plat_username (auth_platform a)) ∧
        platformId s = Some (plat_id (auth_platform a))).
Proof.
  unfold widgetToken, platform, username, platformId.
  destruct (isLoggedIn s) eqn:Hin.
  - apply isLoggedIn_true in Hin as (a & Ha & Hne). rewrite Ha. simpl.
    repeat (split; [split; [by eexists|done]|]).
    split; [by intros t [= <-]|]. by intros a' [= <-] _.
  - repeat (split; [split; [done|by intros [? ?]]|]).
    split; [done|]. by intros a _ ?.
Qed.

Lemma getters_follow_isLoggedIn_witness :
  widgetToken (LOGIN a_session logged_out) = Some (auth_widgetToken a_session) ∧
  platform (LOGIN a_session logged_out) = Some (auth_platform a_session) ∧
  username (LOGIN a_session logged_out) = Some (plat_username (auth_platform a_session)) ∧
  platformId (LOGIN a_session logged_out) = Some (plat_id (auth_platform a_session)).
Proof.
  destruct (getters_follow_isLoggedIn (LOGIN a_session logged_out))
    as (_ & _ & _ & _ & _ & Hfields).
  apply (Hfields a_session); reflexivity.
Defined.

(** X19: [LOGIN] logs in exactly when the session it stores has a token that
    is not empty, whatever the state was; [LOGOUT] and [logOut] log out,
    also right after a [LOGIN], and a second [LOGOUT] changes nothing. *)
Theorem LOGIN_LOGOUT_isLoggedIn (a : IPlatformAuth) (s : IUserServiceState) :
  (isLoggedIn (LOGIN a s) = true ↔ auth_widgetToken a ≠ EmptyString) ∧
  (auth_widgetToken a ≠ EmptyString →
   widgetToken (LOGIN a s) = Some (auth_widgetToken a)) ∧
  isLoggedIn (LOGOUT s) = false ∧
  isLoggedIn (logOut (LOGIN a s)) = false ∧
  widgetToken (LOGOUT s) = None ∧
  LOGOUT (LOGOUT s) = LOGOUT s.
Proof.
  split; [apply truthy_true|]. split; [|done].
  intros Hne. unfold widgetToken, isLoggedIn. simpl.
  by rewrite (proj2 (truthy_true _) Hne).
Qed.

Lemma LOGIN_LOGOUT_isLoggedIn_witness :
  widgetToken (LOGIN a_session logged_out) = Some (auth_widgetToken a_session).
Proof.
  apply (proj1 (proj2 (LOGIN_LOGOUT_isLoggedIn a_session logged_out))). discriminate.
Defined.

(** X20: [widgetUrl] answers a URL exactly when somebody is logged in and the
    type asked is "recent-events" or "dashboard"; [overlaysUrl] always
    answers one: the URL of a logged-out user, followed by "&token=" and the
    token when somebody is logged in. *)
Theorem urls_and_login (host : string) (nightMode : bool) (type : string)
    (s : IUserServiceState) :
  (is_Some (widgetUrl host nightMode type s) ↔
   isLoggedIn s = true ∧ (type = "recent-events" ∨ type = "dashboard")) ∧
  (isLoggedIn s = false → overlaysUrl host nightMode s = overlaysUrl host nightMode (LOGOUT s)) ∧
  (∀ t, widgetToken s = Some t →
        overlaysUrl host nightMode s
        = overlaysUrl host nightMode (LOGOUT s) +:+ "&token=" +:+ t).
Proof.
  split; [|split].
  - unfold widgetUrl. destruct (isLoggedIn s).
    + repeat case_decide; subst.
      * split; [by intros _; split; [|left]|by eexists].
      * split; [by intros _; split; [|right]|by eexists].
      * split; [by intros [? ?]|]. by intros [_ [?|?]].
    + split; [by intros [? ?]|by intros [? _]].
  - intros Hout. unfold overlaysUrl. by rewrite Hout.
  - intros t Ht. unfold overlaysUrl. unfold widgetToken in Ht.
    destruct (isLoggedIn s) eqn:Hin; [|done]. simpl.
    unfold widgetToken. by rewrite Hin, Ht.
Qed.

Lemma urls_and_login_witness :
  is_Some (widgetUrl "streamlabs.example" true "dashboard" (LOGIN a_session logged_out)) ∧
  ¬ is_Some (widgetUrl "streamlabs.example" true "alert-box" (LOGIN a_session logged_out)) ∧
  ¬ is_Some (widgetUrl "streamlabs.example" true "dashboard" logged_out) ∧
  overlaysUrl "beta.example" true (LOGIN a_session logged_out)
  = overlaysUrl "beta.example" true (LOGOUT (LOGIN a_session logged_out))
    +:+ "&token=" +:+ "tok".
Proof.
  split; [|split; [|split]].
  - apply (proj1 (urls_and_login "streamlabs.example" true "dashboard"
                    (LOGIN a_session logged_out))).
    split; [reflexivity|by right].
  - intros Hurl.
    apply (proj1 (urls_and_login "streamlabs.example" true "alert-box"
                    (LOGIN a_session logged_out))) in Hurl as [_ [Hty|Hty]];
      discriminate Hty.
  - intros Hurl.
    apply (proj1 (urls_and_login "streamlabs.example" true "dashboard" logged_out))
      in Hurl as [Hin _].
    discriminate Hin.
  - apply (proj2 (proj2 (urls_and_login "beta.example" true "dashboard"
                           (LOGIN a_session logged_out)))).
    reflexivity.
Defined.

(** X21: [parseAuthFromUrl] takes the answer of the login page exactly when
    the query holds a token, a platform user name, a platform token and a
    platform id that each count as true: a string that is not empty, or the
    array of a parameter given several times, whatever its values.  The
    platform itself need not be there.  The object returned holds the values
    of the query as they are.  When the four are strings, none of them
    empty, and the platform is a string or missing, the object is an
    [IPlatformAuth], and [LOGIN] with it logs the user in under the token,
    the user name and the id of the query.  When the token is given several
    times the query is taken all the same, and the object returned, whose
    token is the array, is no [IPlatformAuth]. *)
Theorem parseAuthFromUrl_accepts (query : string → option QueryValue) :
  (is_Some (parseAuthFromUrl query) ↔
   present (query "token") = true ∧ present (query "platform_username") = true ∧
   present (query "platform_token") = true ∧ present (query "platform_id") = true) ∧
  (∀ p, parseAuthFromUrl query = Some p →
        parsed_widgetToken p = query "token" ∧
        parsed_type (parsed_platform p) = query "platform" ∧
        parsed_username (parsed_platform p) = query "platform_username" ∧
        parsed_token (parsed_platform p) = query "platform_token" ∧
        parsed_id (parsed_platform p) = query "platform_id") ∧
  (∀ t u pt i,
     query "token" = Some (QString t) → query "platform_username" = Some (QString u) →
     query "platform_token" = Some (QString pt) → query "platform_id" = Some (QString i) →
     t ≠ EmptyString → u ≠ EmptyString → pt ≠ EmptyString → i ≠ EmptyString →
     (query "platform" = None ∨ ∃ ty, query "platform" = Some (QString ty)) →
     ∃ p a,
       parseAuthFromUrl query = Some p ∧ as_IPlatformAuth p = Some a ∧
       plat_type (auth_platform a) = as_string (query "platform") ∧
       ∀ s, isLoggedIn (LOGIN a s) = true ∧ widgetToken (LOGIN a s) = Some t ∧
            username (LOGIN a s) = Some u ∧ platformId (LOGIN a s) = Some i) ∧
  (∀ l, query "token" = Some (QArray l) →
        present (query "platform_username") = true →
        present (query "platform_token") = true →
        present (query "platform_id") = true →
        ∃ p, parseAuthFromUrl query = Some p ∧
             parsed_widgetToken p = Some (QArray l) ∧
             as_IPlatformAuth p = None).
Proof.
  split; [|split; [|split]].
  - unfold parseAuthFromUrl.
    destruct (present (query "token")), (present (query "platform_username")),
      (present (query "platform_token")), (present (query "platform_id")); simpl;
      split; try (by intros [? ?]); try (by intros (? & ? & ? & ?)); by eexists.
  - intros p Hp. unfold parseAuthFromUrl in Hp.
    destruct (_ && _) in Hp; [|done]. by injection Hp as <-.
  - intros t u pt i Ht Hu Hpt Hi Hnt Hnu Hnpt Hni Hplat.
    assert (Hparse : ∃ p, parseAuthFromUrl query = Some p ∧
                          parsed_widgetToken p = Some (QString t) ∧
                          parsed_username (parsed_platform p) = Some (QString u) ∧
                          parsed_token (parsed_platform p) = Some (QString pt) ∧
                          parsed_id (parsed_platform p) = Some (QString i) ∧
                          parsed_type (parsed_platform p) = query "platform").
    { unfold parseAuthFromUrl. rewrite Ht, Hu, Hpt, Hi. unfold present, truthy.
      rewrite !bool_decide_eq_true_2 by done. by eexists. }
    destruct Hparse as (p & Hp & Hpw & Hpu & Hpp & Hpi & Hpty).
    assert (Hin : truthy t = true) by (by apply bool_decide_eq_true_2).
    destruct Hplat as [Hnone|[ty Hty]].
    + eexists p, _. split; [done|]. unfold as_IPlatformAuth.
      rewrite Hpw, Hpu, Hpp, Hpi, Hpty, Hnone. simpl. split; [done|]. split; [done|].
      intros s. unfold widgetToken, username, platformId, isLoggedIn. simpl.
      by rewrite Hin.
    + eexists p, _. split; [done|]. unfold as_IPlatformAuth.
      rewrite Hpw, Hpu, Hpp, Hpi, Hpty, Hty. simpl. split; [done|]. split; [done|].
      intros s. unfold widgetToken, username, platformId, isLoggedIn. simpl.
      by rewrite Hin.
  - intros l Ht Hu Hpt Hi. unfold parseAuthFromUrl. rewrite Hu, Hpt, Hi, Ht. simpl.
    eexists. split; [done|]. split; [done|]. done.
Qed.

Lemma parseAuthFromUrl_accepts_witness :
  (∃ p a,
     parseAuthFromUrl a_query = Some p ∧ as_IPlatformAuth p = Some a ∧
     plat_type (auth_platform a) = as_string (a_query "platform") ∧
     ∀ s, isLoggedIn (LOGIN a s) = true ∧ widgetToken (LOGIN a s) = Some "tok" ∧
          username (LOGIN a s) = Some "ann" ∧ platformId (LOGIN a s) = Some "42") ∧
  (∃ p, parseAuthFromUrl a_query_token_twice = Some p ∧
        parsed_widgetToken p = Some (QArray [Some EmptyString; Some EmptyString]) ∧
        as_IPlatformAuth p = None).
Proof.
  split.
  - apply (proj1 (proj2 (proj2 (parseAuthFromUrl_accepts a_query))) "tok" "ann" "ptok" "42");
      try reflexivity; try discriminate. by left.
  - apply (proj2 (proj2 (proj2 (parseAuthFromUrl_accepts a_query_token_twice)))
             [Some EmptyString; Some EmptyString]); reflexivity.
Defined.

(** X22: the local user id is stable: once [getLocalUserId] has answered an
    id that is not empty, every later call answers the same id and leaves
    the storage as it is, whatever the main process would answer then.  A
    call touches no other key of the storage, and an id found in the
    storage is answered without asking for a new one. *)
Theorem getLocalUserId_stable (uniqueId : string) (localStorage : gmap string string) :
  (∀ later,
     (getLocalUserId uniqueId localStorage).1 ≠ EmptyString →
     getLocalUserId later (getLocalUserId uniqueId localStorage).2
     = getLocalUserId uniqueId localStorage) ∧
  (∀ k, k ≠ "SlobsLocalUserId" →
        (getLocalUserId uniqueId localStorage).2 !! k = localStorage !! k) ∧
  (∀ stored, localStorage !! "SlobsLocalUserId" = Some stored → stored ≠ EmptyString →
             getLocalUserId uniqueId localStorage = (stored, localStorage)).
Proof.
  unfold getLocalUserId. split; [|split].
  - intros later.
    destruct (localStorage !! "SlobsLocalUserId") as [userId|] eqn:Hget.
    + destruct (truthy userId) eqn:Ht; simpl.
      * intros _. by rewrite Hget, Ht.
      * intros Hne. rewrite lookup_insert_eq.
        by rewrite (proj2 (truthy_true _) Hne).
    + simpl. intros Hne. rewrite lookup_insert_eq.
      by rewrite (proj2 (truthy_true _) Hne).
  - intros k Hk.
    destruct (localStorage !! "SlobsLocalUserId") as [userId|];
      [destruct (truthy userId)|]; simpl; by rewrite ?lookup_insert_ne.
  - intros stored -> Hne. by rewrite (proj2 (truthy_true _) Hne).
Qed.

Lemma getLocalUserId_stable_witness :
  getLocalUserId "other" (getLocalUserId "id-1" ∅).2 = getLocalUserId "id-1" ∅.
Proof.
  apply (proj1 (getLocalUserId_stable "id-1" ∅) "other"). discriminate.
Defined.

(** * Further properties of the scene helper, continued *)

(** ** addSources with too few backend items *)

Lemma addSources_from_short (self : string) (infos : list ISceneItemInfo) (obsIds : list Z)
    (arrayItems : list ArrayItem) :
  ∀ index st this,
    scenes st !! self = Some this →
    (index + length arrayItems ≤ length infos)%nat →
    (index ≤ length obsIds < index + length arrayItems)%nat →
    ∃ this',
      addSources_from self infos obsIds arrayItems index st
      = (Throw TypeError, set_scenes (<[self := this']> (scenes st)) st) ∧
      item_ids this'
      = rev (info_id <$> take (length obsIds - index) (drop index infos)) ++ item_ids this.
Proof.
  induction arrayItems as [|a rest IH]; intros index st this Hself Hinfos Hobs.
  - simpl in Hobs. lia.
  - simpl in Hinfos, Hobs.
    destruct (lookup_lt_is_Some_2 infos index) as [item Hitem]; [lia|].
    destruct (decide (index < length obsIds)%nat) as [Hlt|Hge].
    + destruct (lookup_lt_is_Some_2 obsIds index Hlt) as [obsId Hobs'].
      rewrite (addSources_from_step st self this infos obsIds a rest index item obsId)
        by done.
      destruct (IH (S index)
                  (set_scenes (<[self := restored item obsId a this]> (scenes st)) st)
                  (restored item obsId a this))
        as (this' & Hrun & Hids); [apply lookup_insert_eq|lia..|].
      exists this'. rewrite Hrun, set_scenes_twice. simpl. rewrite insert_insert_eq.
      split; [done|].
      replace (length obsIds - index)%nat with (S (length obsIds - S index)) by lia.
      rewrite (drop_S _ _ _ Hitem). csimpl. rewrite Hids.
      unfold item_ids, restored. simpl. by rewrite <- app_assoc.
    + exists this. simpl. rewrite Hitem.
      rewrite (lookup_ge_None_2 obsIds index) by lia.
      split; [by rewrite store_insert_same|].
      by replace (length obsIds - index)%nat with 0%nat by lia.
Qed.

(** X23: [addSources] is not all or nothing: when the backend answers fewer
    items than entries resolve, the call throws a TypeError after it has
    restored a row for each backend item it got; the rows of the first
    entries stand in [items], in reverse order, before the old ones. *)
Theorem addSources_short_backend (st : Store) (self : string) (this : IScene)
    (infos : list ISceneItemInfo) (obsIds : list Z)
    (Hself : scenes st !! self = Some this)
    (Hobs : (length obsIds < length (resolving st infos))%nat) :
  ∃ this',
    addSources self infos obsIds st
    = (Throw TypeError, set_scenes (<[self := this']> (scenes st)) st) ∧
    item_ids this' = rev (info_id <$> take (length obsIds) infos) ++ item_ids this.
Proof.
  destruct (arrayItems_of_length st infos) as [Hlen Hle].
  destruct (addSources_from_short self infos obsIds (arrayItems_of st infos) 0 st this)
    as (this' & Hrun & Hids); [done|simpl; lia..|].
  exists this'. unfold addSources. rewrite Hrun. split; [done|].
  by rewrite Nat.sub_0_r, drop_0 in Hids.
Qed.

Lemma addSources_short_backend_witness :
  ∃ this',
    addSources "S" [an_entry "e1" "a"; an_entry "e2" "b"] [1%Z] stage
    = (Throw TypeError, set_scenes (<["S" := this']> (scenes stage)) stage) ∧
    item_ids this' = rev (info_id <$> take (length [1%Z]) [an_entry "e1" "a"; an_entry "e2" "b"])
                     ++ item_ids (a_scene "S" [] []).
Proof.
  apply (addSources_short_backend stage "S" (a_scene "S" [] [])
           [an_entry "e1" "a"; an_entry "e2" "b"] [1%Z] eq_refl).
  vm_compute. lia.
Defined.

(** ** What an operation leaves alone *)

Lemma same_elsewhere_refl (self : string) (st : Store) : same_elsewhere self st st.
Proof. by split. Qed.

Lemma same_elsewhere_trans (self : string) (st1 st2 st3 : Store) :
  same_elsewhere self st1 st2 → same_elsewhere self st2 st3 → same_elsewhere self st1 st3.
Proof.
  intros (Hs1 & Ho1 & Hd1) (Hs2 & Ho2 & Hd2). split; [congruence|]. split.
  - intros k Hk. rewrite Ho2, Ho1; done.
  - by rewrite Hd2.
Qed.

Lemma commit_same_elsewhere {A : Type} (self : string) (mut : Mutation A) (st : Store)
    (r : outcome A) (st' : Store) :
  commit self mut st = (r, st') → same_elsewhere self st st'.
Proof.
  unfold commit. destruct (scenes st !! self) as [this|] eqn:Hself.
  - destruct (mut this) as [r' this']. intros [= <- <-]. split; [done|]. split; simpl.
    + intros k Hk. by rewrite lookup_insert_ne.
    + rewrite lookup_insert_eq, Hself. split; by eexists.
  - intros [= <- <-]. apply same_elsewhere_refl.
Qed.

Lemma read_same_elsewhere {A : Type} (self : string) (f : Store → IScene → outcome A)
    (st : Store) (r : outcome A) (st' : Store) :
  read self f st = (r, st') → same_elsewhere self st st'.
Proof.
  unfold read. destruct (scenes st !! self); intros [= <- <-]; apply same_elsewhere_refl.
Qed.

Lemma bindM_same_elsewhere {A B : Type} (self : string) (m : M A) (k : A → M B)
    (st : Store) (r : outcome B) (st' : Store) :
  (∀ r1 st1, m st = (r1, st1) → same_elsewhere self st st1) →
  (∀ a st1 r2 st2, k a st1 = (r2, st2) → same_elsewhere self st1 st2) →
  bindM m k st = (r, st') → same_elsewhere self st st'.
Proof.
  intros Hm Hk. unfold bindM. destruct (m st) as [[a|e|] st1] eqn:Hrun.
  - intros Hrest. eapply same_elsewhere_trans; [by eapply Hm|by eapply Hk].
  - intros [= <- <-]. by eapply Hm.
  - intros [= <- <-]. by eapply Hm.
Qed.

Lemma makeItemsActive_same_elsewhere (self : string) (ids : list string) (st : Store)
    (r : outcome unit) (st' : Store) :
  makeItemsActive self ids st = (r, st') → same_elsewhere self st st'.
Proof.
  apply bindM_same_elsewhere.
  - intros r1 st1. apply read_same_elsewhere.
  - intros _ st1 r2 st2. apply commit_same_elsewhere.
Qed.

Lemma loadAttributes_same_elsewhere (self : string) (h : option SceneItem)
    (o : ObsSceneItem) (st : Store) (r : outcome unit) (st' : Store) :
  loadAttributes self h o st = (r, st') → same_elsewhere self st st'.
Proof.
  destruct h as [si|]; simpl.
  - apply commit_same_elsewhere.
  - intros [= <- <-]. apply same_elsewhere_refl.
Qed.

Lemma loadItemAttributes_same_elsewhere (self : string) (h : option SceneItem)
    (a : ArrayItem) (st : Store) (r : outcome unit) (st' : Store) :
  loadItemAttributes self h a st = (r, st') → same_elsewhere self st st'.
Proof.
  destruct h as [si|]; simpl.
  - apply commit_same_elsewhere.
  - intros [= <- <-]. apply same_elsewhere_refl.
Qed.

Lemma addSource_same_elsewhere (fuel : nat) (self srcId : string)
    (options : ISceneItemAddOptions) (uniqueId : string) (obsSceneItem : ObsSceneItem)
    (st : Store) (r : outcome (option SceneItem)) (st' : Store) :
  addSource fuel self srcId options uniqueId obsSceneItem st = (r, st') →
  same_elsewhere self st st'.
Proof.
  unfold addSource. destruct (getSource st srcId) as [source|].
  2:{ intros [= <- <-]. apply same_elsewhere_refl. }
  apply bindM_same_elsewhere; [intros r1 st1; apply read_same_elsewhere|].
  intros ok st1 r2 st2. destruct ok; simpl.
  2:{ intros [= <- <-]. apply same_elsewhere_refl. }
  apply bindM_same_elsewhere; [intros r1 st3; apply commit_same_elsewhere|].
  intros _ st3 r3 st4.
  apply bindM_same_elsewhere; [intros r1 st5; apply read_same_elsewhere|].
  intros sceneItem st5 r5 st6.
  apply bindM_same_elsewhere; [intros r1 st7; apply makeItemsActive_same_elsewhere|].
  intros _ st7 r7 st8.
  apply bindM_same_elsewhere; [intros r1 st9; apply loadAttributes_same_elsewhere|].
  intros _ st9 r9 st10 [= <- <-]. apply same_elsewhere_refl.
Qed.

Lemma removeItem_same_elsewhere (self id : string) (st : Store) (r : outcome unit)
    (st' : Store) :
  removeItem self id st = (r, st') → same_elsewhere self st st'.
Proof.
  apply bindM_same_elsewhere; [intros r1 st1; apply read_same_elsewhere|].
  intros [si|] st1 r2 st2.
  - apply commit_same_elsewhere.
  - intros [= <- <-]. apply same_elsewhere_refl.
Qed.

Lemma setSourceOrder_same_elsewhere (self id : string) (delta : Z) (order : list string)
    (st : Store) (r : outcome unit) (st' : Store) :
  setSourceOrder self id delta order st = (r, st') → same_elsewhere self st st'.
Proof.
  apply bindM_same_elsewhere; [intros r1 st1; apply read_same_elsewhere|].
  intros _ st1 r2 st2. apply commit_same_elsewhere.
Qed.

Lemma addSources_from_same_elsewhere (self : string) (infos : list ISceneItemInfo)
    (obsIds : list Z) (arrayItems : list ArrayItem) :
  ∀ index st r st',
    addSources_from self infos obsIds arrayItems index st = (r, st') →
    same_elsewhere self st st'.
Proof.
  induction arrayItems as [|a rest IH]; intros index st r st'; simpl.
  - intros [= <- <-]. apply same_elsewhere_refl.
  - destruct (infos !! index) as [item|]; [destruct (obsIds !! index) as [obsId|]|];
      try (intros [= <- <-]; apply same_elsewhere_refl).
    apply bindM_same_elsewhere; [intros r1 st1; apply commit_same_elsewhere|].
    intros _ st1 r2 st2.
    apply bindM_same_elsewhere; [intros r1 st3; apply read_same_elsewhere|].
    intros h st3 r3 st4.
    apply bindM_same_elsewhere; [intros r1 st5; apply loadItemAttributes_same_elsewhere|].
    intros _ st5 r5 st6. apply IH.
Qed.

(** X24: an operation of a scene handle, whatever its arguments and its
    outcome, changes no other scene's record, registers and unregisters no
    scene, and leaves the source registry as it is; [setName] alone writes
    to the registry. *)
Theorem operations_leave_the_rest (st : Store) (self : string) :
  (∀ fuel srcId options uniqueId obsSceneItem r st',
     addSource fuel self srcId options uniqueId obsSceneItem st = (r, st') →
     same_elsewhere self st st') ∧
  (∀ infos obsIds r st',
     addSources self infos obsIds st = (r, st') → same_elsewhere self st st') ∧
  (∀ sceneItemId r st',
     removeItem self sceneItemId st = (r, st') → same_elsewhere self st st') ∧
  (∀ sceneItemIds r st',
     makeItemsActive self sceneItemIds st = (r, st') → same_elsewhere self st st') ∧
  (∀ sceneItemId positionDelta order r st',
     setSourceOrder self sceneItemId positionDelta order st = (r, st') →
     same_elsewhere self st st') ∧
  (∀ newName r st',
     setName self newName st = (r, st') →
     (∀ k, k ≠ self → scenes st' !! k = scenes st !! k) ∧
     (is_Some (scenes st' !! self) ↔ is_Some (scenes st !! self))).
Proof.
  split; [|split; [|split; [|split; [|split]]]].
  - intros *. apply addSource_same_elsewhere.
  - intros *. unfold addSources. apply addSources_from_same_elsewhere.
  - intros *. apply removeItem_same_elsewhere.
  - intros *. apply makeItemsActive_same_elsewhere.
  - intros *. apply setSourceOrder_same_elsewhere.
  - intros newName r st'. unfold setName, bindM, read, rename_source, commit.
    destruct (scenes st !! self) as [this|] eqn:Hself;
      [|intros [= <- <-]; rewrite Hself; by split].
    destruct (sources st !! scene_id this) as [src|];
      [|intros [= <- <-]; rewrite Hself; by split].
    simpl. rewrite Hself. intros [= <- <-]. simpl. split.
    + intros k Hk. by rewrite lookup_insert_ne.
    + rewrite lookup_insert_eq. split; by eexists.
Qed.

Lemma operations_leave_the_rest_witness :
  same_elsewhere "S1" studio
    (addSource 3 "S1" "cam1" no_options "u1" (fresh_obs 9) studio).2.
Proof.
  exact (proj1 (operations_leave_the_rest studio "S1") 3 "cam1" no_options "u1"
           (fresh_obs 9) _ _ (surjective_pairing _)).
Defined.
